(** * pcluster command line front end: entrypoint, argument schema and
    the export-image-logs workflow

  Shallow embedding of [cli/src/pcluster/cli.py] and
  [cli/src/pcluster/cli/commands/image_logs.py].

  Python values are modelled as follows: [str] as [string] (a sequence of
  ASCII characters), the argparse [Namespace] and [os.environ] as finite maps
  keyed by strings, exceptions as an inductive type that keeps the part of
  the class hierarchy the [except] clauses of the program distinguish, and
  effectful code in a state-and-exception monad over a world that holds the
  process environment and the trace of observable events. *)

From Stdlib Require Import ZArith Ascii String List Bool Lia.
From stdpp Require Import base option list gmap strings.

Import ListNotations.

(** ** The Python runtime fragment the program relies on *)

Module Py.

(** Exceptions.  [KeyboardInterrupt], [SystemExit] and the remaining direct
    subclasses of [BaseException] are not instances of [Exception]; every
    other constructor is. *)
Inductive exn : Type :=
| NoCredentialsError
| KeyboardInterrupt
| SystemExit (code : Z)
| KeyError (key : string)
| AttributeError (msg : string)
| ArgumentTypeError (msg : string)
| OSError (errno : Z) (strerror : string)
| OtherException (type_name msg : string)
| OtherBaseException (type_name msg : string).

(** [isinstance(e, Exception)] *)
Definition is_Exception (e : exn) : bool :=
  match e with
  | KeyboardInterrupt | SystemExit _ | OtherBaseException _ _ => false
  | _ => true
  end.

(** [type(e).__name__] *)
Definition type_name_of (e : exn) : string :=
  match e with
  | NoCredentialsError => "NoCredentialsError"
  | KeyboardInterrupt => "KeyboardInterrupt"
  | SystemExit _ => "SystemExit"
  | KeyError _ => "KeyError"
  | AttributeError _ => "AttributeError"
  | ArgumentTypeError _ => "ArgumentTypeError"
  | OSError _ _ => "OSError"
  | OtherException n _ => n
  | OtherBaseException n _ => n
  end.

(** [str(e)].  The texts of the built-in exceptions are abbreviated; no
    statement below depends on them. *)
Definition str_of_exn (e : exn) : string :=
  match e with
  | NoCredentialsError => "Unable to locate credentials"
  | KeyboardInterrupt => EmptyString
  | SystemExit _ => EmptyString
  | KeyError key => "'" +:+ key +:+ "'"
  | AttributeError msg => msg
  | ArgumentTypeError msg => msg
  | OSError _ strerror => strerror
  | OtherException _ msg => msg
  | OtherBaseException _ msg => msg
  end.

(** Outcome of evaluating a Python expression or statement. *)
Inductive result (A : Type) : Type :=
| Return (a : A)
| Raise (e : exn).
Arguments Return {A} a.
Arguments Raise {A} e.

(** [str.upper] and [str.lower] on ASCII letters; every other character is
    left as it is. *)
Definition is_ascii_lower (c : ascii) : bool :=
  let n := nat_of_ascii c in (97 <=? n)%nat && (n <=? 122)%nat.
Definition is_ascii_upper (c : ascii) : bool :=
  let n := nat_of_ascii c in (65 <=? n)%nat && (n <=? 90)%nat.
Definition is_ascii_digit (c : ascii) : bool :=
  let n := nat_of_ascii c in (48 <=? n)%nat && (n <=? 57)%nat.

Definition chr_upper (c : ascii) : ascii :=
  if is_ascii_lower c then ascii_of_nat (nat_of_ascii c - 32) else c.
Definition chr_lower (c : ascii) : ascii :=
  if is_ascii_upper c then ascii_of_nat (nat_of_ascii c + 32) else c.

Fixpoint upper (s : string) : string :=
  match s with
  | EmptyString => EmptyString
  | String c s' => String (chr_upper c) (upper s')
  end.

Fixpoint lower (s : string) : string :=
  match s with
  | EmptyString => EmptyString
  | String c s' => String (chr_lower c) (lower s')
  end.

(** Truth value of a [str]: only the empty string is falsy. *)
Definition str_truthy (s : string) : bool :=
  match s with EmptyString => false | String _ _ => true end.

(** [s.startswith(p)] *)
Definition startswith (p s : string) : bool := String.prefix p s.

End Py.

Export Py.

(** ** [pcluster.validators.common.FailureLevel] *)

Module FailureLevel.

(** Modelled from the spec: the enumeration [FailureLevel] of
    [pcluster.validators.common] is imported by [cli.py] and not part of
    the sources; the spec describes it as the ordered enumeration
    INFO < WARNING < ERROR, the values the command line accepts for
    [--validation-failure-level]. *)
Inductive t : Type := INFO | WARNING | ERROR.

Definition name (l : t) : string :=
  match l with
  | INFO => "INFO"
  | WARNING => "WARNING"
  | ERROR => "ERROR"
  end.

(** [list(FailureLevel)], in definition order *)
Definition members : list t := [INFO; WARNING; ERROR].

#[global] Instance eq_dec : EqDecision t.
Proof. solve_decision. Defined.

(** [FailureLevel[key]]: lookup of a member by its exact name, [KeyError]
    when there is none. *)
Definition getitem (key : string) : result t :=
  match List.find (fun m => String.eqb (name m) key) members with
  | Some m => Return m
  | None => Raise (KeyError key)
  end.

End FailureLevel.

(** ** Values, events and the world *)

(** The functions of [cli.py] that the argument schema registers with
    [set_defaults(func=...)]. *)
Inductive handler : Type :=
| create | configure | ssh | dcv | status | list_clusters | delete
| instances | update | version | start | stop | build_image
| delete_image | describe_image | list_images.

(** [f.__name__] *)
Definition __name__ (f : handler) : string :=
  match f with
  | create => "create"
  | configure => "configure"
  | ssh => "ssh"
  | dcv => "dcv"
  | status => "status"
  | list_clusters => "list_clusters"
  | delete => "delete"
  | instances => "instances"
  | update => "update"
  | version => "version"
  | start => "start"
  | stop => "stop"
  | build_image => "build_image"
  | delete_image => "delete_image"
  | describe_image => "describe_image"
  | list_images => "list_images"
  end.

(** Attribute values of a parsed [Namespace]. *)
Inductive value : Type :=
| VNone
| VBool (b : bool)
| VStr (s : string)
| VLevel (l : FailureLevel.t)
| VFunc (f : handler).

#[global] Instance handler_eq_dec : EqDecision handler.
Proof. solve_decision. Defined.

#[global] Instance value_eq_dec : EqDecision value.
Proof. solve_decision. Defined.

(** Truth value of an attribute, as [if args.region] tests it. *)
Definition truthy (v : value) : bool :=
  match v with
  | VNone => false
  | VBool b => b
  | VStr s => str_truthy s
  | VLevel _ => true
  | VFunc _ => true
  end.

Abbreviation Namespace := (gmap string value).
Abbreviation Environ := (gmap string string).

(** The operations of the packages behind the command line
    ([pcluster.cli_commands.*]) that the handlers forward to. *)
Inductive extern_op : Type :=
| pcluster_create | easyconfig_configure | pcluster_ssh | dcv_connect
| pcluster_status | pcluster_list_clusters | pcluster_delete
| pcluster_instances | pcluster_update_execute | pcluster_version
| pcluster_start | pcluster_stop | pcluster_build_image
| pcluster_delete_image | pcluster_describe_image | pcluster_list_images.

Inductive stream : Type := Stdout | Stderr.

Inductive loglevel : Type := LOG_DEBUG | LOG_INFO | LOG_ERROR.

(** What [parser.error] reports. *)
Inductive parse_error : Type :=
| RequiredMissing (names : list string)
| ExpectedOneArgument (option_string : string)
| InvalidChoice (dest given : string)
| InvalidValue (arg msg : string).

(** Parameters of the log export operation of the image builder model. *)
Record export_request : Type := {
  req_image_id : string;
  req_output : string;
  req_bucket : string;
  req_bucket_prefix : option string;
  req_keep_s3_objects : bool;
  req_start_time : option string;
  req_end_time : option string
}.

(** Observable events of a run, in the order in which they happen. *)
Inductive event : Type :=
| EPutenv (key val : string)
| EPrint (st : stream) (text : string)
| EUsage (st : stream) (prog : string)
| EHelp (prog : string)
| EParseError (prog : string) (err : parse_error)
| ELog (lvl : loglevel) (msg : string)
| ELogArgs (args : Namespace)
| ETraceback (type_name msg : string)
| EHandler (f : handler) (args : Namespace) (extra_args : option (list string))
    (env : Environ)
| EExtern (op : extern_op) (args : option Namespace)
    (extra_args : option (list string)) (env : Environ)
| EValidatePath (path : string)
| EExportLogs (req : export_request).

Record World : Type := {
  environ : Environ;
  trace : list event
}.

(** ** State and exception monad *)

Definition M (A : Type) : Type := World -> result A * World.

Definition ret {A : Type} (a : A) : M A := fun w => (Return a, w).

Definition bind {A B : Type} (m : M A) (k : A -> M B) : M B :=
  fun w =>
    match m w with
    | (Return a, w') => k a w'
    | (Raise e, w') => (Raise e, w')
    end.

Definition raise {A : Type} (e : exn) : M A := fun w => (Raise e, w).

(** [try: body  except ...: ...]: [clauses e] is the body of the first
    [except] clause that matches [e], [None] when no clause matches and the
    exception propagates. *)
Definition try_except {A : Type} (body : M A) (clauses : exn -> option (M A))
  : M A :=
  fun w =>
    match body w with
    | (Return a, w') => (Return a, w')
    | (Raise e, w') =>
        match clauses e with
        | Some h => h w'
        | None => (Raise e, w')
        end
    end.

Definition lift {A : Type} (r : result A) : M A := fun w => (r, w).

Definition emit (ev : event) : M unit :=
  fun w => (Return tt, {| environ := environ w; trace := trace w ++ [ev] |}).

Definition get_environ : M Environ := fun w => (Return (environ w), w).

(** [os.environ[key] = val] *)
Definition putenv (key val : string) : M unit :=
  fun w => (Return tt, {| environ := <[key := val]> (environ w);
                          trace := trace w ++ [EPutenv key val] |}).

(** [sys.exit(code)] *)
Definition sys_exit {A : Type} (code : Z) : M A := raise (SystemExit code).

Declare Scope py_scope.
Delimit Scope py_scope with py.
Notation "x <- m ;; k" := (bind m (fun x => k))
  (at level 100, m at next level, right associativity) : py_scope.
Notation "m ;;; k" := (bind m (fun _ => k))
  (at level 100, right associativity) : py_scope.
Local Open Scope py_scope.

(** ** [_failure_level_type] *)

(** [cli.py], lines 134-138. *)
Definition _failure_level_type (failure_level_string : string)
  : result FailureLevel.t :=
  match FailureLevel.getitem (upper failure_level_string) with
  | Return l => Return l
  | Raise (KeyError _) =>
      Raise (ArgumentTypeError
               ("invalid value '" +:+ failure_level_string +:+ "'"))
  | Raise e => Raise e
  end.

(** ** The fragment of [argparse] that the argument schema uses

    Modelled: sub-parsers (with [required] and [dest]), positional arguments
    taking one value, options taking one value ([store], with an optional
    [type] function and [choices]), flags ([store_true]), required options,
    [set_defaults], the [-h/--help] action, and [parse_known_args], which
    collects the tokens it does not recognise instead of failing.

    Not modelled: the spellings that argparse resolves by rewriting a token,
    namely unambiguous prefixes of long options, [--opt=value], [-ovalue],
    the separator [--] and tokens that look like negative numbers.  On a
    command line with such a token, in a position where argparse examines it,
    [parse_known_args] answers [Unmodelled]. *)

Module Argparse.

Inductive action_kind : Type :=
| Store (type : option (string -> result value))
| StoreTrue
| HelpAction.

Record argument : Type := {
  option_strings : list string;
  dest : string;
  action : action_kind;
  required : bool;
  default : value;
  choices : option (list value)
}.

#[warnings="-register-all"]
Inductive parser : Type :=
| Parser (prog : string) (arguments : list argument)
    (subparsers : option (string * bool * list (string * parser)))
    (defaults : list (string * value)).

Definition prog_of (p : parser) : string :=
  match p with Parser prog _ _ _ => prog end.

Inductive outcome : Type :=
| Parsed (args : Namespace) (extras : list string)
| Error (prog : string) (err : parse_error)
| Help (prog : string)
| Raised (e : exn)
| Unmodelled.

Definition is_positional (a : argument) : bool :=
  match option_strings a with [] => true | _ => false end.

Definition all_option_strings (arguments : list argument) : list string :=
  flat_map option_strings arguments.

Definition find_option (arguments : list argument) (tok : string)
  : option argument :=
  List.find (fun a => existsb (String.eqb tok) (option_strings a)) arguments.

Definition contains_char (c : ascii) (s : string) : bool :=
  existsb (Ascii.eqb c) (list_ascii_of_string s).

(** [s[:2]] *)
Definition take2 (s : string) : string :=
  match s with
  | String a (String b _) => String a (String b EmptyString)
  | _ => s
  end.

Definition second_is_numeric (s : string) : bool :=
  match s with
  | String _ (String b _) => is_ascii_digit b || Ascii.eqb b "."
  | _ => false
  end.

(** Tokens whose treatment by argparse is not modelled. *)
Definition outside_fragment (opts : list string) (tok : string) : bool :=
  startswith "-" tok
  && negb (existsb (String.eqb tok) opts)
  && negb (String.eqb tok "-")
  && (String.eqb tok "--"
      || contains_char "=" tok
      || second_is_numeric tok
      || (if startswith "--" tok
          then existsb (startswith tok) opts
          else existsb (fun o => String.eqb o (take2 tok) || startswith tok o)
                 opts)).

Inductive token_class : Type :=
| Positional
| Optional (a : argument)
| UnknownOptional.

(** [_parse_optional], on the modelled fragment. *)
Definition classify (arguments : list argument) (tok : string) : token_class :=
  if negb (startswith "-" tok) then Positional
  else
    match find_option arguments tok with
    | Some a => Optional a
    | None =>
        if String.eqb tok "-" then Positional
        else if contains_char " " tok then Positional
        else UnknownOptional
    end.

Definition is_positional_token (arguments : list argument) (tok : string)
  : bool :=
  match classify arguments tok with Positional => true | _ => false end.

Fixpoint join (sep : string) (l : list string) : string :=
  match l with
  | [] => EmptyString
  | [x] => x
  | x :: l' => x +:+ sep +:+ join sep l'
  end.

(** [_get_action_name] *)
Definition argument_name (a : argument) : string :=
  match option_strings a with
  | [] => dest a
  | l => join "/" l
  end.

Inductive conversion : Type :=
| Converted (v : value)
| Rejected (err : parse_error)
| Failed (e : exn).

(** [_get_value] followed by [_check_value]. *)
Definition get_value (a : argument) (arg_string : string) : conversion :=
  let check v :=
    match choices a with
    | Some l =>
        if bool_decide (v ∈ l) then Converted v
        else Rejected (InvalidChoice (argument_name a) arg_string)
    | None => Converted v
    end in
  match action a with
  | Store (Some type_func) =>
      match type_func arg_string with
      | Return v => check v
      | Raise (ArgumentTypeError msg) =>
          Rejected (InvalidValue (argument_name a) msg)
      | Raise e => Failed e
      end
  | _ => check (VStr arg_string)
  end.

Inductive loop_result : Type :=
| LDone (ns : Namespace) (seen : list string) (extras : list string)
| LSub (name : string) (rest : list string) (ns : Namespace)
    (seen : list string) (extras : list string)
| LStop (o : outcome).

(** The consumption loop of [_parse_known_args] for one parser: options and
    positionals are taken from left to right; [pos] holds the positional
    arguments not filled yet, [seen] the destinations of the actions taken. *)
Fixpoint consume (prog : string) (arguments : list argument) (has_sub : bool)
    (toks : list string) (pos : list argument) (seen : list string)
    (ns : Namespace) (extras : list string) : loop_result :=
  match toks with
  | [] => LDone ns seen extras
  | tok :: rest =>
      match classify arguments tok with
      | Optional a =>
          match action a with
          | HelpAction => LStop (Help prog)
          | StoreTrue =>
              consume prog arguments has_sub rest pos (dest a :: seen)
                (<[dest a := VBool true]> ns) extras
          | Store _ =>
              match rest with
              | v :: rest' =>
                  if is_positional_token arguments v then
                    match get_value a v with
                    | Converted x =>
                        consume prog arguments has_sub rest' pos
                          (dest a :: seen) (<[dest a := x]> ns) extras
                    | Rejected err => LStop (Error prog err)
                    | Failed e => LStop (Raised e)
                    end
                  else LStop (Error prog (ExpectedOneArgument (argument_name a)))
              | [] => LStop (Error prog (ExpectedOneArgument (argument_name a)))
              end
          end
      | UnknownOptional =>
          consume prog arguments has_sub rest pos seen ns (extras ++ [tok])
      | Positional =>
          match pos with
          | a :: pos' =>
              match get_value a tok with
              | Converted x =>
                  consume prog arguments has_sub rest pos' (dest a :: seen)
                    (<[dest a := x]> ns) extras
              | Rejected err => LStop (Error prog err)
              | Failed e => LStop (Raised e)
              end
          | [] =>
              if has_sub then LSub tok rest ns seen extras
              else consume prog arguments has_sub rest pos seen ns
                     (extras ++ [tok])
          end
      end
  end.

Definition setdefault (k : string) (v : value) (ns : Namespace) : Namespace :=
  match ns !! k with
  | Some _ => ns
  | None => <[k := v]> ns
  end.

(** The namespace before any token is read: the default of every action,
    then the defaults given with [set_defaults]. *)
Definition init_namespace (arguments : list argument)
    (subparsers : option (string * bool * list (string * parser)))
    (defaults : list (string * value)) : Namespace :=
  let ns1 :=
    fold_left
      (fun ns a =>
         match action a with
         | HelpAction => ns
         | _ => setdefault (dest a) (default a) ns
         end) arguments ∅ in
  let ns2 :=
    match subparsers with
    | Some (sdest, _, _) => setdefault sdest VNone ns1
    | None => ns1
    end in
  fold_left (fun ns kv => setdefault (fst kv) (snd kv) ns) defaults ns2.

(** After the loop: an action that was not taken is reported when it is
    required, and otherwise has its default converted when that default is
    a string still in place. *)
Fixpoint finalize (actions : list argument) (seen : list string)
    (ns : Namespace) (missing : list string)
  : conversion + (Namespace * list string) :=
  match actions with
  | [] => inr (ns, missing)
  | a :: rest =>
      if bool_decide (dest a ∈ seen) then finalize rest seen ns missing
      else if required a then
        finalize rest seen ns (missing ++ [argument_name a])
      else
        match default a, action a, ns !! dest a with
        | VStr s, Store _, Some (VStr s') =>
            if String.eqb s s' then
              match get_value a s with
              | Converted x => finalize rest seen (<[dest a := x]> ns) missing
              | c => inl c
              end
            else finalize rest seen ns missing
        | _, _, _ => finalize rest seen ns missing
        end
  end.

Definition finish (prog : string) (arguments : list argument)
    (subparsers : option (string * bool * list (string * parser)))
    (sub_seen : bool) (seen : list string) (ns : Namespace)
    (extras : list string) : outcome :=
  match finalize arguments seen ns [] with
  | inl (Rejected err) => Error prog err
  | inl (Failed e) => Raised e
  | inl (Converted _) => Unmodelled
  | inr (ns', missing) =>
      let missing' :=
        match subparsers with
        | Some (sdest, true, _) =>
            if sub_seen then missing else missing ++ [sdest]
        | _ => missing
        end in
      match missing' with
      | [] => Parsed ns' extras
      | _ => Error prog (RequiredMissing missing')
      end
  end.

(** The tokens that the parser itself examines: all of them, or, when the
    parser has sub-parsers, those up to the one that selects a sub-parser. *)
Fixpoint examined (arguments : list argument) (has_sub : bool)
    (toks : list string) : list string :=
  match toks with
  | [] => []
  | tok :: rest =>
      if has_sub && is_positional_token arguments tok then [tok]
      else tok :: examined arguments has_sub rest
  end.

(** [self._name_parser_map[name]]: the sub-parser registered under [name]. *)
Definition select {A : Type} (name : string) (found : parser -> A)
    (missing : A) : list (string * parser) -> A :=
  fix go (l : list (string * parser)) : A :=
    match l with
    | [] => missing
    | (n, q) :: l' => if String.eqb n name then found q else go l'
    end.

Fixpoint parse_known_args (p : parser) (arg_strings : list string) {struct p}
  : outcome :=
  match p with
  | Parser prog arguments subparsers defaults =>
      let has_sub := match subparsers with Some _ => true | None => false end in
      if existsb (outside_fragment (all_option_strings arguments))
           (examined arguments has_sub arg_strings)
      then Unmodelled
      else
        match consume prog arguments has_sub arg_strings
                (List.filter is_positional arguments) []
                (init_namespace arguments subparsers defaults) [] with
        | LStop o => o
        | LDone ns seen extras =>
            finish prog arguments subparsers false seen ns extras
        | LSub name rest ns seen extras =>
            match subparsers with
            | None => Unmodelled
            | Some (sdest, _, parsers) =>
                select name
                  (fun q =>
                     match parse_known_args q rest with
                     | Parsed subns subextras =>
                         finish prog arguments subparsers true seen
                           (subns ∪ <[sdest := VStr name]> ns)
                           (extras ++ subextras)
                     | o => o
                     end)
                  (Error prog (InvalidChoice sdest name)) parsers
            end
        end
  end.

End Argparse.

Import Argparse.

(** ** [cli.py]: the argument schema *)

(** The [-h/--help] action that every [ArgumentParser] starts with. *)
Definition help_argument : argument :=
  {| option_strings := ["-h"; "--help"]; dest := "help"; action := HelpAction;
     required := false; default := VNone; choices := None |}.

(** [add_argument(name, help=...)] for a positional argument. *)
Definition positional (name : string) : argument :=
  {| option_strings := []; dest := name; action := Store None;
     required := true; default := VNone; choices := None |}.

(** [add_argument] with option strings, for an option that takes one value. *)
Definition store_option (flags : list string) (dest : string)
    (required : bool) : argument :=
  {| option_strings := flags; dest := dest; action := Store None;
     required := required; default := VNone; choices := None |}.

(** [add_argument] with option strings and [action=store_true]. *)
Definition store_true (flags : list string) (dest : string) : argument :=
  {| option_strings := flags; dest := dest; action := StoreTrue;
     required := false; default := VBool false; choices := None |}.

(** Lines 120-131. *)
Definition _addarg_config : argument :=
  store_option ["-c"; "--config"] "config_file" false.

Definition _addarg_region : argument :=
  store_option ["-r"; "--region"] "region" false.

Definition _addarg_nowait : argument :=
  store_true ["-nw"; "--nowait"] "nowait".

(** [--validation-failure-level], lines 185-191. *)
Definition validation_failure_level : argument :=
  {| option_strings := ["--validation-failure-level"];
     dest := "validation_failure_level";
     action :=
       Store (Some (fun s =>
                      match _failure_level_type s with
                      | Return l => Return (VLevel l)
                      | Raise e => Raise e
                      end));
     required := false;
     default := VStr (FailureLevel.name FailureLevel.ERROR);
     choices := Some (map VLevel FailureLevel.members) |}.

Definition pcreate : parser :=
  Parser "pcluster create"
    [help_argument;
     positional "cluster_name";
     store_true ["--disable-update-check"] "disable_update_check";
     store_true ["--suppress-validators"] "suppress_validators";
     validation_failure_level;
     _addarg_config;
     _addarg_region;
     _addarg_nowait;
     store_true ["-nr"; "--norollback"] "norollback";
     store_option ["-u"; "--template-url"] "template_url" false]
    None [("func", VFunc create)].

Definition pupdate : parser :=
  Parser "pcluster update"
    [help_argument;
     positional "cluster_name";
     _addarg_config;
     _addarg_region;
     _addarg_nowait;
     store_true ["-nr"; "--norollback"] "norollback";
     store_true ["-f"; "--force"] "force"]
    None [("func", VFunc update)].

Definition pdelete : parser :=
  Parser "pcluster delete"
    [help_argument;
     positional "cluster_name";
     store_true ["--keep-logs"] "keep_logs";
     _addarg_region;
     _addarg_nowait]
    None [("func", VFunc delete)].

Definition pstart : parser :=
  Parser "pcluster start"
    [help_argument; positional "cluster_name"; _addarg_region]
    None [("func", VFunc start)].

Definition pstop : parser :=
  Parser "pcluster stop"
    [help_argument; positional "cluster_name"; _addarg_region]
    None [("func", VFunc stop)].

Definition pstatus : parser :=
  Parser "pcluster status"
    [help_argument; positional "cluster_name"; _addarg_region; _addarg_nowait]
    None [("func", VFunc status)].

Definition plist : parser :=
  Parser "pcluster list"
    [help_argument; store_true ["--color"] "color"; _addarg_region]
    None [("func", VFunc list_clusters)].

Definition pinstances : parser :=
  Parser "pcluster instances"
    [help_argument; positional "cluster_name"; _addarg_region]
    None [("func", VFunc instances)].

Definition pssh : parser :=
  Parser "pcluster ssh"
    [help_argument;
     _addarg_region;
     positional "cluster_name";
     store_true ["-d"; "--dryrun"] "dryrun"]
    None [("func", VFunc ssh)].

Definition pami : parser :=
  Parser "pcluster build-image"
    [help_argument;
     store_option ["-n"; "--name"] "image_name" true;
     _addarg_config;
     _addarg_region]
    None [("func", VFunc build_image)].

Definition pdeleteami : parser :=
  Parser "pcluster delete-image"
    [help_argument;
     store_option ["-n"; "--name"] "image_name" true;
     store_true ["-f"; "--force"] "force";
     _addarg_region]
    None [("func", VFunc delete_image)].

Definition pdescribeami : parser :=
  Parser "pcluster describe-image"
    [help_argument;
     store_option ["-n"; "--name"] "image_name" true;
     _addarg_region]
    None [("func", VFunc describe_image)].

Definition plistami : parser :=
  Parser "pcluster list-images"
    [help_argument; store_true ["--color"] "color"; _addarg_region]
    None [("func", VFunc list_images)].

Definition pconfigure : parser :=
  Parser "pcluster configure"
    [help_argument; _addarg_config; _addarg_region]
    None [("func", VFunc configure)].

Definition pversion : parser :=
  Parser "pcluster version" [help_argument] None [("func", VFunc version)].

Definition pdcv_connect : parser :=
  Parser "pcluster dcv connect"
    [help_argument;
     _addarg_region;
     positional "cluster_name";
     store_option ["--key-path"; "-k"] "key_path" false;
     store_true ["--show-url"; "-s"] "show_url"]
    None [].

Definition pdcv : parser :=
  Parser "pcluster dcv" [help_argument]
    (Some ("subcommand", true, [("connect", pdcv_connect)]))
    [("func", VFunc dcv)].

(** Lines 141-388. *)
Definition _get_parser : parser :=
  Parser "pcluster" [help_argument]
    (Some ("command", true,
           [("create", pcreate);
            ("update", pupdate);
            ("delete", pdelete);
            ("start", pstart);
            ("stop", pstop);
            ("status", pstatus);
            ("list", plist);
            ("instances", pinstances);
            ("ssh", pssh);
            ("build-image", pami);
            ("delete-image", pdeleteami);
            ("describe-image", pdescribeami);
            ("list-images", plistami);
            ("configure", pconfigure);
            ("version", pversion);
            ("dcv", pdcv)]))
    [].


(** ** [os.path] on POSIX, for a file system without symbolic links *)

Module os_path.

(** [p.split('/')] *)
Fixpoint split_slash (p : string) : list string :=
  match p with
  | EmptyString => [EmptyString]
  | String c p' =>
      let r := split_slash p' in
      if Ascii.eqb c "/" then EmptyString :: r
      else
        match r with
        | h :: t => String c h :: t
        | [] => [String c EmptyString]
        end
  end.

Definition isabs (p : string) : bool := startswith "/" p.

Fixpoint endswith_slash (p : string) : bool :=
  match p with
  | EmptyString => false
  | String c EmptyString => Ascii.eqb c "/"
  | String _ p' => endswith_slash p'
  end.

(** [os.path.join(a, b)] *)
Definition join2 (a b : string) : string :=
  if isabs b then b
  else if negb (str_truthy a) || endswith_slash a then a +:+ b
  else a +:+ "/" +:+ b.

(** One iteration of the loop of [normpath]; [new_comps] is kept with its
    last element first. *)
Definition normpath_step (initial_slashes : nat) (new_comps : list string)
    (comp : string) : list string :=
  if String.eqb comp EmptyString || String.eqb comp "." then new_comps
  else if negb (String.eqb comp "..")
          || (Nat.eqb initial_slashes 0
              && match new_comps with [] => true | _ => false end)
          || match new_comps with
             | last :: _ => String.eqb last ".."
             | [] => false
             end
  then comp :: new_comps
  else
    match new_comps with
    | _ :: t => t
    | [] => []
    end.

Fixpoint slashes (n : nat) : string :=
  match n with
  | O => EmptyString
  | S n' => String "/" (slashes n')
  end.

Definition normpath (path : string) : string :=
  if negb (str_truthy path) then "."
  else
    let initial_slashes :=
      if startswith "/" path then
        if startswith "//" path && negb (startswith "///" path) then 2 else 1
      else 0 in
    let comps :=
      rev (fold_left (normpath_step initial_slashes) (split_slash path) []) in
    let path' := slashes initial_slashes +:+ Argparse.join "/" comps in
    if str_truthy path' then path' else ".".

(** [os.path.abspath], with the current directory as a parameter. *)
Definition abspath (cwd path : string) : string :=
  normpath (if isabs path then path else join2 cwd path).

(** [os.path.realpath]: without symbolic links it is [abspath]. *)
Definition realpath (cwd path : string) : string := abspath cwd path.

(** [p[:p.rfind('/') + 1]], [None] when [p] has no slash. *)
Fixpoint head_to_last_slash (p : string) : option string :=
  match p with
  | EmptyString => None
  | String c p' =>
      match head_to_last_slash p' with
      | Some h => Some (String c h)
      | None => if Ascii.eqb c "/" then Some (String c EmptyString) else None
      end
  end.

Definition all_slashes (p : string) : bool :=
  forallb (Ascii.eqb "/") (list_ascii_of_string p).

(** [p.rstrip('/')] *)
Fixpoint rstrip_slash (p : string) : string :=
  match p with
  | EmptyString => EmptyString
  | String c p' =>
      match rstrip_slash p' with
      | EmptyString =>
          if Ascii.eqb c "/" then EmptyString else String c EmptyString
      | r => String c r
      end
  end.

Definition dirname (p : string) : string :=
  match head_to_last_slash p with
  | None => EmptyString
  | Some head => if all_slashes head then head else rstrip_slash head
  end.

End os_path.

(** [errno.EEXIST] *)
Definition EEXIST : Z := 17.

(** ** [cli.py]: logging set-up, handlers and [main] *)

Section Cli.

(** Outcome of the operations behind the handlers, from their arguments and
    the process environment at the time of the call: the value returned or
    the exception raised. *)
Variable extern :
  extern_op -> option Namespace -> option (list string) -> Environ ->
  result string.

(** [utils.get_cli_log_file()] *)
Variable cli_log_file : string.

(** [os.makedirs(d)]: [None] on success, else the [errno] and text of the
    [OSError] raised. *)
Variable os_makedirs : string -> option (Z * string).

Definition call_extern (op : extern_op) (args : option Namespace)
    (extra_args : option (list string)) : M string :=
  env <- get_environ ;;
  emit (EExtern op args extra_args env) ;;;
  lift (extern op args extra_args env).

(** Lines 32-93: the body of each handler. *)
Definition handler_body (f : handler) (args : Namespace)
    (extra_args : option (list string)) : M unit :=
  match f with
  | create => call_extern pcluster_create (Some args) None ;;; ret tt
  | configure => call_extern easyconfig_configure (Some args) None ;;; ret tt
  | ssh => call_extern pcluster_ssh (Some args) extra_args ;;; ret tt
  | dcv => call_extern dcv_connect (Some args) None ;;; ret tt
  | status => call_extern pcluster_status (Some args) None ;;; ret tt
  | list_clusters =>
      call_extern pcluster_list_clusters (Some args) None ;;; ret tt
  | delete => call_extern pcluster_delete (Some args) None ;;; ret tt
  | instances => call_extern pcluster_instances (Some args) None ;;; ret tt
  | update => call_extern pcluster_update_execute (Some args) None ;;; ret tt
  | version =>
      v <- call_extern pcluster_version None None ;;
      emit (EPrint Stdout v)
  | start => call_extern pcluster_start (Some args) None ;;; ret tt
  | stop => call_extern pcluster_stop (Some args) None ;;; ret tt
  | build_image => call_extern pcluster_build_image (Some args) None ;;; ret tt
  | delete_image =>
      call_extern pcluster_delete_image (Some args) None ;;; ret tt
  | describe_image =>
      call_extern pcluster_describe_image (Some args) None ;;; ret tt
  | list_images => call_extern pcluster_list_images (Some args) None ;;; ret tt
  end.

(** A call [f(args)] or [f(args, extra_args)] of a handler. *)
Definition call (f : handler) (args : Namespace)
    (extra_args : option (list string)) : M unit :=
  env <- get_environ ;;
  emit (EHandler f args extra_args env) ;;;
  handler_body f args extra_args.

(** Lines 96-117.  The console handler writes records at INFO and above to
    standard output, the rotating file handler keeps every record; creating
    the handlers is taken to succeed, creating the log directory is not. *)
Definition config_logger : M unit :=
  match os_makedirs (os_path.dirname cli_log_file) with
  | None => ret tt
  | Some (errno, strerror) =>
      if (errno =? EEXIST)%Z then ret tt else raise (OSError errno strerror)
  end.

Definition console_shows (lvl : loglevel) : bool :=
  match lvl with LOG_DEBUG => false | _ => true end.

(** [args.name] *)
Definition getattr (args : Namespace) (name : string) : M value :=
  match args !! name with
  | Some v => ret v
  | None =>
      raise (AttributeError
               ("'Namespace' object has no attribute '" +:+ name +:+ "'"))
  end.

(** [repr] of a list of strings (exact when the strings need no escape). *)
Definition repr_list (l : list string) : string :=
  "[" +:+ Argparse.join ", " (map (fun x => "'" +:+ x +:+ "'") l) +:+ "]".

(** Lines 402-404. *)
Definition set_region (args : Namespace) : M unit :=
  match args !! "region" with
  | Some region =>
      if truthy region then
        match region with
        | VStr r => putenv "AWS_DEFAULT_REGION" r
        | _ => raise (OtherException "TypeError" "str expected")
        end
      else ret tt
  | None => ret tt
  end.

(** Lines 406-413. *)
Definition invoke (prog : string) (args : Namespace) (extra_args : list string)
  : M unit :=
  func <- getattr args "func" ;;
  match func with
  | VFunc f =>
      if String.eqb (__name__ f) "ssh" then call f args (Some extra_args)
      else
        (match extra_args with
         | [] => ret tt
         | _ =>
             emit (EUsage Stdout prog) ;;;
             emit (EPrint Stdout
                     ("Invalid arguments " +:+ repr_list extra_args +:+ "...")) ;;;
             sys_exit 1
         end) ;;;
        call f args None
  | _ =>
      raise (AttributeError "object has no attribute '__name__'")
  end.

(** The [except] clauses of [main], lines 414-422. *)
Definition main_except (e : exn) : option (M unit) :=
  match e with
  | NoCredentialsError =>
      Some (emit (ELog LOG_ERROR "AWS Credentials not found.") ;;; sys_exit 1)
  | KeyboardInterrupt =>
      Some (emit (ELog LOG_INFO "Exiting...") ;;; sys_exit 1)
  | _ =>
      if is_Exception e then
        Some (emit (ELog LOG_ERROR
                      ("Unexpected error of type " +:+ type_name_of e +:+ ": "
                       +:+ str_of_exn e)) ;;;
              sys_exit 1)
      else None
  end.

(** The body of the [try] statement of [main], lines 402-413. *)
Definition try_body (prog : string) (args : Namespace)
    (extra_args : list string) : M unit :=
  set_region args ;;; invoke prog args extra_args.

(** The [try] statement of [main], lines 401-422. *)
Definition dispatch (prog : string) (args : Namespace)
    (extra_args : list string) : M unit :=
  try_except (try_body prog args extra_args) main_except.

(** [parser.parse_known_args()] with the reporting that argparse does itself:
    a usage error goes to standard error and exits with status 2, a request
    for help prints it and exits with status 0. *)
Definition parse_command_line (argv : list string)
  : option (M (Namespace * list string)) :=
  match parse_known_args _get_parser argv with
  | Parsed args extra_args => Some (ret (args, extra_args))
  | Error prog err =>
      Some (emit (EUsage Stderr prog) ;;; emit (EParseError prog err) ;;;
            sys_exit 2)
  | Help prog => Some (emit (EHelp prog) ;;; sys_exit 0)
  | Raised e => Some (raise e)
  | Unmodelled => None
  end.

(** Lines 391-422; [None] when [argv] is outside the modelled fragment of
    argparse. *)
Definition main (argv : list string) : option (M unit) :=
  match parse_command_line argv with
  | None => None
  | Some parse =>
      Some (config_logger ;;;
            emit (ELog LOG_DEBUG "pcluster CLI starting") ;;;
            parsed <- parse ;;
            emit (ELogArgs (fst parsed)) ;;;
            dispatch (prog_of _get_parser) (fst parsed) (snd parsed))
  end.

(** The end of the process: an exception that leaves [main] ends it,
    [SystemExit] with its code and any other one with a traceback and
    status 1; without exception the status is 0. *)
Definition conclude (rw : result unit * World) : Z * World :=
  match rw with
  | (Return _, w) => (0%Z, w)
  | (Raise (SystemExit code), w) => (code, w)
  | (Raise e, w) =>
      (1%Z, {| environ := environ w;
               trace := trace w ++ [ETraceback (type_name_of e) (str_of_exn e)] |})
  end.

(** The process: [main()] run from the initial environment. *)
Definition run_process (m : M unit) (env : Environ) : Z * World :=
  conclude (m {| environ := env; trace := [] |}).

Definition pcluster (argv : list string) (env : Environ)
  : option (Z * World) :=
  match main argv with
  | Some m => Some (run_process m env)
  | None => None
  end.

End Cli.

Definition is_handler_event (ev : event) : bool :=
  match ev with EHandler _ _ _ _ => true | _ => false end.

(** The handler calls of a trace. *)
Definition handler_events (tr : list event) : list event :=
  List.filter is_handler_event tr.

(** ** [datetime] and [strftime] *)

Module datetime.

Record t : Type := {
  year : Z;
  month : Z;
  day : Z;
  hour : Z;
  minute : Z;
  second : Z;
  microsecond : Z
}.

(** The ranges that the constructor of [datetime] enforces. *)
Definition valid (d : t) : Prop :=
  (1 <= year d <= 9999 /\ 1 <= month d <= 12 /\ 1 <= day d <= 31 /\
   0 <= hour d < 24 /\ 0 <= minute d < 60 /\ 0 <= second d < 60 /\
   0 <= microsecond d < 1000000)%Z.

Definition digit (n : Z) : ascii := ascii_of_nat (48 + Z.to_nat (n mod 10)).

Fixpoint decimal_aux (fuel : nat) (n : Z) (acc : string) : string :=
  match fuel with
  | O => acc
  | S fuel' =>
      let acc' := String (digit n) acc in
      if (n <? 10)%Z then acc' else decimal_aux fuel' (n / 10) acc'
  end.

(** [str(n)] for [0 <= n]; a number has no more decimal digits than bits. *)
Definition decimal (n : Z) : string :=
  decimal_aux (S (Z.to_nat (Z.log2 n))) n EmptyString.

Fixpoint zeros (n : nat) : string :=
  match n with
  | O => EmptyString
  | S n' => String "0" (zeros n')
  end.

(** [s.zfill(width)] for a string of digits *)
Definition zfill (width : nat) (s : string) : string :=
  zeros (width - String.length s) +:+ s.

(** [d.strftime('%Y%m%d%H%M')]: the year on four digits, then month, day,
    hour and minute on two digits each. *)
Definition strftime_YmdHM (d : t) : string :=
  zfill 4 (decimal (year d)) +:+ zfill 2 (decimal (month d))
  +:+ zfill 2 (decimal (day d)) +:+ zfill 2 (decimal (hour d))
  +:+ zfill 2 (decimal (minute d)).

End datetime.

(** ** [image_logs.py]: the export-image-logs command *)

(** The attributes of the parsed arguments that the command reads. *)
Record export_args : Type := {
  image_id : string;
  output : option string;
  bucket : string;
  bucket_prefix : option string;
  keep_s3_objects : bool;
  start_time : option string;
  end_time : option string
}.

Definition with_output (o : option string) (args : export_args) : export_args :=
  {| image_id := image_id args; output := o; bucket := bucket args;
     bucket_prefix := bucket_prefix args;
     keep_s3_objects := keep_s3_objects args;
     start_time := start_time args; end_time := end_time args |}.

(** [a or b] for an optional string [a]: [b] when [a] is [None] or empty. *)
Definition py_or (a : option string) (b : string) : string :=
  match a with
  | Some x => if str_truthy x then x else b
  | None => b
  end.

Definition newline : string := String (ascii_of_nat 10) EmptyString.

Section ImageLogs.

(** [os.getcwd()] *)
Variable cwd : string.

(** [datetime.now()] *)
Variable now : datetime.t.

(** [os.path.isfile] and whether a file can be created at a path. *)
Variable isfile : string -> bool.
Variable writable : string -> bool.

(** The errors with which the validation of the output path fails. *)
Variable path_conflict_error : string -> exn.
Variable not_writable_error : string -> exn.

(** [ImageBuilder(image_id=...).export_logs(...)]: the value returned or the
    exception raised. *)
Variable export_logs : export_request -> result unit.

(** Modelled from the spec: [utils.error] is not part of the sources; the
    spec has the message printed to the error stream and the execution of the
    command terminated with a non-zero outcome. *)
Definition utils_error (message : string) : M unit :=
  emit (EPrint Stderr message) ;;; sys_exit 1.

(** Modelled from the spec: [_validate_output_file_path] is inherited from
    [ExportLogsCommand] in [pcluster.cli.commands.common], which is not part
    of the sources; the spec has it check that the output path is writable
    and does not overwrite an existing file, failing with a path-conflict
    error otherwise. *)
Definition _validate_output_file_path (file_path : string) : M unit :=
  emit (EValidatePath file_path) ;;;
  if isfile file_path then raise (path_conflict_error file_path)
  else if negb (writable file_path) then raise (not_writable_error file_path)
  else ret tt.

(** The default of line 49-51. *)
Definition default_output_file_path (args : export_args) : string :=
  os_path.realpath cwd
    (image_id args +:+ "-logs-" +:+ datetime.strftime_YmdHM now +:+ ".tar.gz").

(** [args.output or os.path.realpath(...)], lines 49-51. *)
Definition output_file_path (args : export_args) : string :=
  py_or (output args) (default_output_file_path args).

Definition request_of (args : export_args) (output_file_path : string)
  : export_request :=
  {| req_image_id := image_id args;
     req_output := output_file_path;
     req_bucket := bucket args;
     req_bucket_prefix := bucket_prefix args;
     req_keep_s3_objects := keep_s3_objects args;
     req_start_time := start_time args;
     req_end_time := end_time args |}.

(** Lines 57-72. *)
Definition _export_image_logs (args : export_args) (output_file_path : string)
  : M unit :=
  emit (ELog LOG_INFO
          ("Beginning export of logs for the image: " +:+ image_id args)) ;;;
  emit (EExportLogs (request_of args output_file_path)) ;;;
  lift (export_logs (request_of args output_file_path)) ;;;
  emit (ELog LOG_INFO
          ("Image's logs exported correctly to " +:+ output_file_path)).

Definition export_failure_prefix : string := "Unable to export image's logs.".

(** Lines 47-55. *)
Definition execute (args : export_args) (extra_args : list string) : M unit :=
  try_except
    (let output_file_path := output_file_path args in
     _validate_output_file_path output_file_path ;;;
     _export_image_logs args output_file_path)
    (fun e =>
       if is_Exception e then
         Some (utils_error
                 (export_failure_prefix +:+ newline +:+ str_of_exn e))
       else None).

End ImageLogs.

Definition is_export_event (ev : event) : bool :=
  match ev with EExportLogs _ => true | _ => false end.

(** The calls of the log-export delegate in a trace. *)
Definition export_events (tr : list event) : list event :=
  List.filter is_export_event tr.

Definition is_stderr_event (ev : event) : bool :=
  match ev with EPrint Stderr _ => true | _ => false end.

(** ** Notions used in the statements *)

(** Two strings match case-insensitively when they have the same length and
    agree, position by position, up to the case of ASCII letters. *)
Definition chr_ci_eq (a b : ascii) : bool :=
  Ascii.eqb (chr_lower a) (chr_lower b).

Fixpoint ci_match (s t : string) : bool :=
  match s, t with
  | EmptyString, EmptyString => true
  | String a s', String b t' => chr_ci_eq a b && ci_match s' t'
  | _, _ => false
  end.

(** [check 0 && ... && check (k - 1)] *)
Fixpoint all_below (k : nat) (check : Z -> bool) : bool :=
  match k with
  | O => true
  | S k' => check (Z.of_nat k') && all_below k' check
  end.

(** Whether a string is made of [n] decimal digits. *)
Definition all_digits (s : string) : bool :=
  forallb is_ascii_digit (list_ascii_of_string s).

Definition digits (n : nat) (s : string) : bool :=
  Nat.eqb (String.length s) n && all_digits s.

(** Whether an optional string is falsy: [None] or the empty string. *)
Definition falsy (o : option string) : bool :=
  match o with
  | Some x => negb (str_truthy x)
  | None => true
  end.

(** The first log record of [_export_image_logs] and the text that [execute]
    hands to [utils.error]. *)
Definition begin_message (args : export_args) : event :=
  ELog LOG_INFO ("Beginning export of logs for the image: " +:+ image_id args).

Definition failure_message (e : exn) : string :=
  export_failure_prefix +:+ newline +:+ str_of_exn e.

Definition stderr_events (tr : list event) : list event :=
  List.filter is_stderr_event tr.

(** A concrete run of the export command: image [ami-123], bucket
    [my-bucket], on 2021-06-01 at 09:05:59 in [/home/user], where no file
    exists yet and every path can be written. *)
Definition sample_args (o : option string) : export_args :=
  {| image_id := "ami-123"; output := o; bucket := "my-bucket";
     bucket_prefix := None; keep_s3_objects := false;
     start_time := None; end_time := None |}.

Definition sample_now : datetime.t :=
  {| datetime.year := 2021; datetime.month := 6; datetime.day := 1;
     datetime.hour := 9; datetime.minute := 5; datetime.second := 59;
     datetime.microsecond := 0 |}.

Definition sample_path_error (path : string) : exn :=
  OtherException "ValueError" path.

Definition sample_execute (isfile : string -> bool)
    (export_logs : export_request -> result unit) (o : option string)
  : result unit * World :=
  execute "/home/user" sample_now isfile (fun _ => true) sample_path_error
    sample_path_error export_logs (sample_args o) []
    {| environ := ∅; trace := [] |}.

(** The attribute [region] of a namespace is absent, [None] or a string. *)
Definition region_ok (o : option value) : Prop :=
  match o with
  | None | Some VNone | Some (VStr _) => True
  | Some _ => False
  end.

Definition region_wf (args : Namespace) : Prop := region_ok (args !! "region").

(** The handler registered for each subcommand. *)
Definition command_table : list (string * handler) :=
  [("create", create); ("update", update); ("delete", delete);
   ("start", start); ("stop", stop); ("status", status);
   ("list", list_clusters); ("instances", instances); ("ssh", ssh);
   ("build-image", build_image); ("delete-image", delete_image);
   ("describe-image", describe_image); ("list-images", list_images);
   ("configure", configure); ("version", version); ("dcv", dcv)].

(** The names under which a parser registers its sub-parsers. *)
Definition subcommand_names (p : parser) : list string :=
  match p with
  | Parser _ _ (Some (_, _, parsers)) _ => map fst parsers
  | Parser _ _ None _ => []
  end.

(** Check of a parser without sub-parsers: no argument is stored under
    [func], [command] or [subcommand], an argument stored under [region] is
    a plain string option, and the initial namespace has [func] as expected,
    no [command] and no region yet. *)
Definition plain_store (a : argument) : bool :=
  match action a, choices a with
  | Store None, None => true
  | _, _ => false
  end.

Definition leaf_ok (func : option value) (p : parser) : bool :=
  match p with
  | Parser _ arguments None defaults =>
      forallb
        (fun a =>
           negb (String.eqb (dest a) "func")
           && negb (String.eqb (dest a) "command")
           && (negb (String.eqb (dest a) "region") || plain_store a))
        arguments
      && bool_decide (init_namespace arguments None defaults !! "func" = func)
      && bool_decide (init_namespace arguments None defaults !! "command" = None)
      && match init_namespace arguments None defaults !! "region" with
         | None | Some VNone => true
         | _ => false
         end
  | _ => false
  end.

(** The effect of lines 402-404 on the environment and on the trace. *)
Definition region_env (args : Namespace) (env : Environ) : Environ :=
  match args !! "region" with
  | Some (VStr r) =>
      if str_truthy r then <["AWS_DEFAULT_REGION" := r]> env else env
  | _ => env
  end.

Definition region_events (args : Namespace) : list event :=
  match args !! "region" with
  | Some (VStr r) =>
      if str_truthy r then [EPutenv "AWS_DEFAULT_REGION" r] else []
  | _ => []
  end.

Definition invalid_arguments_message (extra_args : list string) : string :=
  "Invalid arguments " +:+ repr_list extra_args +:+ "...".

(** The log directory can be used: [os.makedirs] succeeds or reports that
    the directory exists. *)
Definition logger_ready (cli_log_file : string)
    (os_makedirs : string -> option (Z * string)) : Prop :=
  match os_makedirs (os_path.dirname cli_log_file) with
  | None => True
  | Some (errno, _) => errno = EEXIST
  end.

(** The two records that [main] logs before it dispatches. *)
Definition startup (args : Namespace) : list event :=
  [ELog LOG_DEBUG "pcluster CLI starting"; ELogArgs args].

(** The extra arguments that a handler is called with. *)
Definition passed_extra (f : handler) (extra_args : list string)
  : option (list string) :=
  match f with ssh => Some extra_args | _ => None end.

(** The records of a trace that the console handler shows. *)
Definition console_records (tr : list event) : list event :=
  List.filter
    (fun ev => match ev with ELog lvl _ => console_shows lvl | _ => false end)
    tr.

(** A token that a parser neither recognises nor takes as a positional
    argument. *)
Definition unrecognised (arguments : list argument) (tok : string) : bool :=
  match classify arguments tok with
  | UnknownOptional => negb (outside_fragment (all_option_strings arguments) tok)
  | _ => false
  end.

(** A command line for every subcommand that declares the region option,
    with the handler registered for it. *)
Definition region_command_lines : list (list string * handler) :=
  [(["create"; "mycluster"], create);
   (["update"; "mycluster"], update);
   (["delete"; "mycluster"], delete);
   (["start"; "mycluster"], start);
   (["stop"; "mycluster"], stop);
   (["status"; "mycluster"], status);
   (["list"], list_clusters);
   (["instances"; "mycluster"], instances);
   (["ssh"; "mycluster"], ssh);
   (["build-image"; "-n"; "myimage"], build_image);
   (["delete-image"; "-n"; "myimage"], delete_image);
   (["describe-image"; "-n"; "myimage"], describe_image);
   (["list-images"], list_images);
   (["configure"], configure);
   (["dcv"; "connect"; "mycluster"], dcv)].

Definition with_region (base : list string) : list string :=
  base ++ ["--region"; "us-west-2"].

Definition accepts_region (line : list string * handler) : bool :=
  match parse_known_args _get_parser (with_region (fst line)) with
  | Parsed args [] =>
      bool_decide (args !! "region" = Some (VStr "us-west-2"))
      && bool_decide (args !! "func" = Some (VFunc (snd line)))
  | _ => false
  end.

(** A concrete process: every operation behind the handlers returns, the
    log directory exists, the environment starts empty. *)
Definition extern_ok (op : extern_op) (args : option Namespace)
    (extra_args : option (list string)) (env : Environ) : result string :=
  Return "3.0.0".

Definition makedirs_exists (d : string) : option (Z * string) :=
  Some (EEXIST, "File exists").

Definition sample_log_file : string :=
  "/home/user/.parallelcluster/pcluster-cli.log".

Definition sample_pcluster (argv : list string) : option (Z * World) :=
  pcluster extern_ok sample_log_file makedirs_exists argv ∅.

(** The namespace that a command line parses to (empty when it does not
    parse). *)
Definition parsed_args (argv : list string) : Namespace :=
  match parse_known_args _get_parser argv with
  | Parsed args _ => args
  | _ => ∅
  end.

(** A command line of [create] with a region and one unrecognised token. *)
Definition usage_error_argv : list string :=
  ["create"; "mycluster"; "--region"; "us-west-2"; "extra"].

(** A property [S] of the value under the key [k], read on the namespace of
    a result of the consumption loop; the loop never stops on [Parsed]. *)
Definition loop_key (k : string) (S : option value -> Prop) (r : loop_result)
  : Prop :=
  match r with
  | LDone ns _ _ => S (ns !! k)
  | LSub _ _ ns _ _ => S (ns !! k)
  | LStop o => match o with Parsed _ _ => False | _ => True end
  end.

Definition no_file (path : string) : bool := false.

(** A delegate that returns, and one that raises [e]. *)
Definition delegate_ok (req : export_request) : result unit := Return tt.
Definition delegate_raising (e : exn) (req : export_request) : result unit :=
  Raise e.

Definition sample_default_path : string :=
  "/home/user/ami-123-logs-202106010905.tar.gz".

(** ** Notions used in the further properties *)

(** The operation that each handler forwards to (lines 32-93), the
    namespace and the extra arguments it hands over, and what it prints. *)
Definition operation_of (f : handler) : extern_op :=
  match f with
  | create => pcluster_create
  | configure => easyconfig_configure
  | ssh => pcluster_ssh
  | dcv => dcv_connect
  | status => pcluster_status
  | list_clusters => pcluster_list_clusters
  | delete => pcluster_delete
  | instances => pcluster_instances
  | update => pcluster_update_execute
  | version => pcluster_version
  | start => pcluster_start
  | stop => pcluster_stop
  | build_image => pcluster_build_image
  | delete_image => pcluster_delete_image
  | describe_image => pcluster_describe_image
  | list_images => pcluster_list_images
  end.

Definition forwarded_args (f : handler) (args : Namespace)
  : option Namespace :=
  match f with version => None | _ => Some args end.

Definition forwarded_extra (f : handler) (extra_args : option (list string))
  : option (list string) :=
  match f with ssh => extra_args | _ => None end.

Definition printed_result (f : handler) (r : result string) : list event :=
  match f, r with
  | version, Return v => [EPrint Stdout v]
  | _, _ => []
  end.

(** The exit status of the process after an operation ended with [r], and
    what the process reports about it. *)
Definition exit_status_of (r : result string) : Z :=
  match r with
  | Return _ => 0%Z
  | Raise (SystemExit code) => code
  | Raise _ => 1%Z
  end.

Definition report_of (r : result string) : list event :=
  match r with
  | Return _ => []
  | Raise NoCredentialsError => [ELog LOG_ERROR "AWS Credentials not found."]
  | Raise KeyboardInterrupt => [ELog LOG_INFO "Exiting..."]
  | Raise (SystemExit _) => []
  | Raise (OtherBaseException type_name msg) => [ETraceback type_name msg]
  | Raise e =>
      [ELog LOG_ERROR
         ("Unexpected error of type " +:+ type_name_of e +:+ ": "
          +:+ str_of_exn e)]
  end.

(** A token that is neither an option string of the parser nor one of the
    spellings left out of the model. *)
Definition plain_token (arguments : list argument) (tok : string) : bool :=
  match classify arguments tok with
  | Positional => negb (outside_fragment (all_option_strings arguments) tok)
  | _ => false
  end.

(** A token that a parser hands on: not one of its options. *)
Definition passed_on (arguments : list argument) (tok : string) : bool :=
  match classify arguments tok with
  | Optional _ => false
  | _ => negb (outside_fragment (all_option_strings arguments) tok)
  end.

(** The arguments that the [ssh] sub-parser declares. *)
Definition pssh_arguments : list argument :=
  match pssh with Parser _ arguments _ _ => arguments end.

(** The namespace of [pcluster ssh <cluster_name>] without options. *)
Definition ssh_namespace (cluster_name : string) : Namespace :=
  list_to_map
    [("command", VStr "ssh"); ("cluster_name", VStr cluster_name);
     ("func", VFunc ssh); ("region", VNone); ("dryrun", VBool false)].

(** The argument under which a parser stores the attribute [key]: the first
    one, the help action apart, whose destination is [key]. *)
Definition is_help (a : argument) : bool :=
  match action a with HelpAction => true | _ => false end.

Definition find_arg (arguments : list argument) (key : string)
  : option argument :=
  List.find (fun a => String.eqb (dest a) key && negb (is_help a)) arguments.

(** The value that [set_defaults] gives to [key]. *)
Definition defaults_lookup (defaults : list (string * value)) (key : string)
  : option value :=
  option_map snd (List.find (fun kv => String.eqb (fst kv) key) defaults).

(** [x] is a value that the consumption loop stores for the argument [a]:
    [True] for a flag, the converted token for an argument with a value. *)
Definition inserted (a : argument) (x : value) : Prop :=
  (action a = StoreTrue /\ x = VBool true) \/
  ((is_positional a = true \/ exists ty, action a = Store ty) /\
   exists s, get_value a s = Converted x).

(** The value of an argument that was not given, after the final pass: its
    default, converted when it is a string. *)
Definition default_of (a : argument) : option value :=
  match default a, action a with
  | VStr s, Store _ =>
      match get_value a s with
      | Converted v => Some v
      | _ => None
      end
  | d, _ => Some d
  end.

Definition settled_default (a : argument) (v : value) : Prop :=
  default_of a = Some v.

(** Destinations identify the arguments of a parser, and positional
    arguments are not help actions. *)
Definition arguments_wf (arguments : list argument) : Prop :=
  forall a, In a arguments ->
    (is_help a = false -> find_arg arguments (dest a) = Some a) /\
    (is_positional a = true -> is_help a = false).

(** The namespace [ns], reached with the destinations [seen] taken, against
    the namespace [base] that the loop started from. *)
Definition loop_state (arguments : list argument) (base : Namespace)
    (seen : list string) (ns : Namespace) : Prop :=
  forall key,
    match find_arg arguments key with
    | Some a =>
        if bool_decide (key ∈ seen)
        then exists v, ns !! key = Some v /\ inserted a v
        else ns !! key = base !! key
    | None => ns !! key = base !! key
    end.

Definition loop_result_state (arguments : list argument) (base : Namespace)
    (r : loop_result) : Prop :=
  match r with
  | LDone ns seen _ => loop_state arguments base seen ns
  | LSub _ _ ns seen _ => loop_state arguments base seen ns
  | LStop o => match o with Parsed _ _ => False | _ => True end
  end.

(** The same during the final pass. *)
Definition final_state (arguments : list argument) (base : Namespace)
    (seen : list string) (ns : Namespace) : Prop :=
  forall key,
    match find_arg arguments key with
    | Some a =>
        if bool_decide (key ∈ seen)
        then exists v, ns !! key = Some v /\ inserted a v
        else ns !! key = base !! key \/
             exists v, ns !! key = Some v /\ settled_default a v
    | None => ns !! key = base !! key
    end.

Definition settled (seen : list string) (done : list argument)
    (ns : Namespace) : Prop :=
  forall a, In a done -> is_help a = false -> ~ dest a ∈ seen ->
    required a = false ->
    exists v, ns !! dest a = Some v /\ settled_default a v.

(** What a successful parse of a parser without sub-parsers leaves under
    [key], with [seen] the destinations given on the command line. *)
Definition attribute_of (arguments : list argument)
    (defaults : list (string * value)) (seen : list string)
    (args : Namespace) (key : string) : Prop :=
  match find_arg arguments key with
  | Some a =>
      exists v, args !! key = Some v /\
        if bool_decide (key ∈ seen) then inserted a v
        else required a = false /\ settled_default a v
  | None => args !! key = defaults_lookup defaults key
  end.

(** The sub-parsers and the arguments that a parser declares. *)
Definition sub_parsers (p : parser) : list (string * parser) :=
  match p with
  | Parser _ _ (Some (_, _, parsers)) _ => parsers
  | Parser _ _ None _ => []
  end.

Definition arguments_of (p : parser) : list argument :=
  match p with Parser _ arguments _ _ => arguments end.

(** The parser that reads the arguments of a subcommand: its sub-parser, or
    for a subcommand with a single subcommand of its own ([dcv connect]) the
    parser of that one. *)
Definition argument_parser (q : parser) : parser :=
  match q with
  | Parser _ _ (Some (_, _, [(_, q')])) _ => q'
  | _ => q
  end.

(** Whether an option string of [a] is among the tokens. *)
Definition given (toks : list string) (a : argument) : bool :=
  existsb (fun tok => existsb (String.eqb tok) (option_strings a)) toks.

(** The values that the declaration of an argument allows for its
    attribute: a boolean for a flag, a string for an argument with a value
    and no [type], or [None] when it is not required, and a result of the
    [type] function otherwise. *)
Definition attribute_typed (a : argument) (v : value) : Prop :=
  match action a with
  | StoreTrue => exists b, v = VBool b
  | Store None => (exists s, v = VStr s) \/ (required a = false /\ v = VNone)
  | Store (Some type_func) => exists s, type_func s = Return v
  | HelpAction => False
  end.

Fixpoint distinct (l : list string) : bool :=
  match l with
  | [] => true
  | x :: l' => negb (existsb (String.eqb x) l') && distinct l'
  end.

(** The shapes of declaration that the schema uses. *)
Definition declared_ok (a : argument) : bool :=
  match action a, default a, choices a with
  | StoreTrue, VBool false, _ => negb (is_positional a)
  | Store None, VNone, None => true
  | Store (Some _), VStr _, _ => true
  | HelpAction, _, _ => negb (is_positional a)
  | _, _, _ => false
  end.

(** Check of the arguments of a parser: destinations and option strings
    identify the arguments, option strings start with a dash, and every
    declaration has one of the shapes above. *)
Definition schema_ok (arguments : list argument) : bool :=
  distinct (map dest (List.filter (fun a => negb (is_help a)) arguments))
  && distinct (all_option_strings arguments)
  && forallb (startswith "-") (all_option_strings arguments)
  && forallb declared_ok arguments.

Definition options_wf (arguments : list argument) : Prop :=
  forall a tok, In a arguments -> In tok (option_strings a) ->
    classify arguments tok = Optional a.

(** Where a destination taken by the consumption loop comes from: it was
    taken before, or it is that of a positional argument to fill, or that of
    an option among the tokens. *)
Definition seen_from (arguments : list argument) (toks : list string)
    (pos : list argument) (seen : list string) (key : string) : Prop :=
  key ∈ seen \/
  (exists a, In a pos /\ dest a = key) \/
  (exists tok a, In tok toks /\ classify arguments tok = Optional a /\
                 is_help a = false /\ dest a = key).

Definition seen_all (arguments : list argument) (toks : list string)
    (seen0 seen : list string) : Prop :=
  (forall key, key ∈ seen0 -> key ∈ seen) /\
  forall tok a, In tok toks -> classify arguments tok = Optional a ->
    dest a ∈ seen.

(** A property of the destinations taken, read on a result of the loop. *)
Definition loop_seen (P : list string -> Prop) (r : loop_result) : Prop :=
  match r with
  | LDone _ seen _ => P seen
  | LSub _ _ _ seen _ => P seen
  | LStop _ => True
  end.

Definition loop_done (P : list string -> Prop) (r : loop_result) : Prop :=
  match r with
  | LDone _ seen _ => P seen
  | _ => True
  end.

Definition is_leaf (q : parser) : bool :=
  match q with Parser _ _ None _ => true | _ => false end.

Definition defaults_of (p : parser) : list (string * value) :=
  match p with Parser _ _ _ defaults => defaults end.

(** The parsers of the schema, each with the tokens that lead to it. *)
Definition parser_paths : list (list string * parser) :=
  ([], _get_parser)
  :: flat_map
       (fun nq =>
          ([fst nq], snd nq)
          :: map (fun nq' => ([fst nq; fst nq'], snd nq'))
               (sub_parsers (snd nq)))
       (sub_parsers _get_parser).

(** Those that read the arguments of a command. *)
Definition command_parsers : list (list string * parser) :=
  List.filter (fun pq => is_leaf (snd pq)) parser_paths.

Definition help_flags : list string := option_strings help_argument.

(** The namespace that a parser with only the help option starts from,
    once the sub-parser [name] is selected. *)
Definition node_namespace (p : parser) (name : string) : Namespace :=
  match p with
  | Parser _ arguments (Some (sdest, required, parsers)) defaults =>
      <[sdest := VStr name]>
        (init_namespace arguments (Some (sdest, required, parsers)) defaults)
  | Parser _ arguments None defaults => init_namespace arguments None defaults
  end.

(** Check of a parser that reads the arguments of a command: its arguments
    pass [schema_ok], none of them is stored under [command], [subcommand]
    or [func], and the only default it sets is [func]. *)
Definition command_ok (pq : list string * parser) : bool :=
  schema_ok (arguments_of (snd pq))
  && forallb
       (fun a =>
          negb (String.eqb (dest a) "command")
          && negb (String.eqb (dest a) "subcommand")
          && negb (String.eqb (dest a) "func"))
       (arguments_of (snd pq))
  && forallb (fun kv => String.eqb (fst kv) "func") (defaults_of (snd pq)).

(** Whether the arguments of a parser start with the help action. *)
Definition help_leads (q : parser) : bool :=
  match arguments_of q with
  | a :: _ => is_help a && bool_decide (option_strings a = help_flags)
  | [] => false
  end.

(** A property of the tokens handed on, read on a result of the loop. *)
Definition loop_extras (P : list string -> Prop) (r : loop_result) : Prop :=
  match r with
  | LDone _ _ extras => P extras
  | LSub _ _ _ _ _ => True
  | LStop o => match o with Parsed _ _ => False | _ => True end
  end.

(** Concrete runs for the further properties: a process whose log
    directory cannot be created, an environment with one variable, and the
    outcome of the sample process on a command line. *)
Definition makedirs_denied (d : string) : option (Z * string) :=
  Some (13%Z, "Permission denied").

Definition home_env : Environ := {["HOME" := "/home/user"]}.

Definition outcome_of (argv : list string) (env : Environ) : Z * World :=
  match pcluster extern_ok sample_log_file makedirs_exists argv env with
  | Some cw => cw
  | None => (0%Z, {| environ := env; trace := [] |})
  end.

Definition nowait_argv : list string := ["create"; "mycluster"; "--nowait"].

(** The last log record of [_export_image_logs]. *)
Definition success_message (output_file_path : string) : event :=
  ELog LOG_INFO ("Image's logs exported correctly to " +:+ output_file_path).

(** Two tokens that are equal or option strings of the same argument. *)
Definition alias (arguments : list argument) (t t' : string) : bool :=
  String.eqb t t'
  || existsb
       (fun a =>
          existsb (String.eqb t) (option_strings a)
          && existsb (String.eqb t') (option_strings a))
       arguments.

(** The names under which argparse reports the required arguments of a
    parser, in the order of their declaration. *)
Definition required_names (q : parser) : list string :=
  map argument_name (List.filter required (arguments_of q)).

(** Check of a parser without sub-parsers: when no argument is given, the
    final pass of the parser converts the defaults and reports the required
    arguments. *)
Definition reports_required (pq : list string * parser) : bool :=
  match finalize (arguments_of (snd pq)) []
          (init_namespace (arguments_of (snd pq)) None (defaults_of (snd pq)))
          [] with
  | inr (_, missing) => bool_decide (missing = required_names (snd pq))
  | inl _ => false
  end.

(** * Properties *)

(** ** The failure-level coercion *)

Lemma chr_lower_upper (c : ascii) : chr_lower (chr_upper c) = chr_lower c.
Proof. destruct c as [[] [] [] [] [] [] [] []]; reflexivity. Qed.

Lemma chr_upper_lower (c : ascii) : chr_upper (chr_lower c) = chr_upper c.
Proof. destruct c as [[] [] [] [] [] [] [] []]; reflexivity. Qed.

Lemma ci_match_upper (s : string) : ci_match s (upper s) = true.
Proof.
  induction s as [|c s IH]; simpl; [reflexivity|].
  unfold chr_ci_eq. rewrite chr_lower_upper, Ascii.eqb_refl. exact IH.
Qed.

Lemma ci_match_upper_eq (s t : string) :
  ci_match s t = true -> upper t = t -> upper s = t.
Proof.
  revert t. induction s as [|c s IH]; intros [|d t]; simpl; try discriminate.
  - reflexivity.
  - intros Hm Hu. apply andb_prop in Hm as [Hc Hm].
    injection Hu as Hd Ht.
    unfold chr_ci_eq in Hc. apply Ascii.eqb_eq in Hc.
    f_equal.
    + rewrite <- chr_upper_lower, Hc, chr_upper_lower. exact Hd.
    + apply IH; assumption.
Qed.

Lemma name_is_upper (m : FailureLevel.t) :
  upper (FailureLevel.name m) = FailureLevel.name m.
Proof. destruct m; reflexivity. Qed.

Lemma getitem_name (m : FailureLevel.t) :
  FailureLevel.getitem (FailureLevel.name m) = Return m.
Proof. destruct m; reflexivity. Qed.

Lemma getitem_other (key : string) :
  (forall m, FailureLevel.name m <> key) ->
  FailureLevel.getitem key = Raise (KeyError key).
Proof.
  intros Hne. unfold FailureLevel.getitem, FailureLevel.members.
  cbn [List.find FailureLevel.name].
  destruct (String.eqb_spec "INFO" key) as [E|_];
    [exfalso; exact (Hne FailureLevel.INFO E)|].
  destruct (String.eqb_spec "WARNING" key) as [E|_];
    [exfalso; exact (Hne FailureLevel.WARNING E)|].
  destruct (String.eqb_spec "ERROR" key) as [E|_];
    [exfalso; exact (Hne FailureLevel.ERROR E)|].
  reflexivity.
Qed.



(** ** The export-image-logs workflow *)

Lemma string_length_append (a b : string) :
  String.length (a +:+ b) = String.length a + String.length b.
Proof. induction a as [|c a IH]; simpl; [reflexivity|]. now rewrite IH. Qed.

Lemma all_digits_append (a b : string) :
  all_digits (a +:+ b) = all_digits a && all_digits b.
Proof.
  unfold all_digits. induction a as [|c a IH]; simpl; [reflexivity|].
  now rewrite IH, andb_assoc.
Qed.

Lemma digits_append (n m : nat) (a b : string) :
  digits n a = true -> digits m b = true -> digits (n + m) (a +:+ b) = true.
Proof.
  unfold digits. intros Ha Hb.
  apply andb_prop in Ha as [Ha1 Ha2]. apply andb_prop in Hb as [Hb1 Hb2].
  apply Nat.eqb_eq in Ha1, Hb1.
  rewrite string_length_append, all_digits_append, Ha1, Hb1, Ha2, Hb2.
  now rewrite Nat.eqb_refl.
Qed.

Lemma all_below_spec (k : nat) (check : Z -> bool) :
  all_below k check = true ->
  forall z, (0 <= z < Z.of_nat k)%Z -> check z = true.
Proof.
  induction k as [|k IH]; intros Hall z Hz; [lia|].
  simpl in Hall. apply andb_prop in Hall as [Hk Hall].
  destruct (Z.eq_dec z (Z.of_nat k)) as [->|Hne]; [exact Hk|].
  apply IH; [exact Hall|lia].
Qed.

Lemma two_digits (n : Z) :
  (0 <= n < 100)%Z -> digits 2 (datetime.zfill 2 (datetime.decimal n)) = true.
Proof.
  intros Hn.
  apply (all_below_spec 100
           (fun z => digits 2 (datetime.zfill 2 (datetime.decimal z))));
    [vm_compute; reflexivity|lia].
Qed.

Lemma four_digits (n : Z) :
  (0 <= n < 10000)%Z -> digits 4 (datetime.zfill 4 (datetime.decimal n)) = true.
Proof.
  intros Hn.
  assert (Hk : Z.of_nat (Z.to_nat 10000) = 10000%Z) by reflexivity.
  apply (all_below_spec (Z.to_nat 10000)
           (fun z => digits 4 (datetime.zfill 4 (datetime.decimal z))));
    [vm_compute; reflexivity|lia].
Qed.

(** The time stamp of a valid date is made of twelve digits. *)
Lemma strftime_digits (d : datetime.t) :
  datetime.valid d -> digits 12 (datetime.strftime_YmdHM d) = true.
Proof.
  intros (Hy & Hm & Hd & Hh & Hmin & _).
  unfold datetime.strftime_YmdHM.
  apply (digits_append 4 8); [apply four_digits; lia|].
  apply (digits_append 2 6); [apply two_digits; lia|].
  apply (digits_append 2 4); [apply two_digits; lia|].
  apply (digits_append 2 2); apply two_digits; lia.
Qed.

(** The time stamp has minute precision: it depends on the date down to the
    minute only. *)
Lemma strftime_minute_precision (d d' : datetime.t) :
  datetime.year d = datetime.year d' ->
  datetime.month d = datetime.month d' ->
  datetime.day d = datetime.day d' ->
  datetime.hour d = datetime.hour d' ->
  datetime.minute d = datetime.minute d' ->
  datetime.strftime_YmdHM d = datetime.strftime_YmdHM d'.
Proof.
  intros Hy Hm Hd Hh Hmin. unfold datetime.strftime_YmdHM.
  now rewrite Hy, Hm, Hd, Hh, Hmin.
Qed.

Lemma isabs_cons (p : string) :
  os_path.isabs p = true -> exists p', p = String "/" p'.
Proof.
  destruct p as [|c p]; [discriminate|].
  unfold os_path.isabs, startswith. intros H.
  apply String.prefix_correct in H. simpl in H.
  destruct p; injection H as ->; eauto.
Qed.

Lemma isabs_slash (p : string) : os_path.isabs (String "/" p) = true.
Proof. destruct p; reflexivity. Qed.

Lemma normpath_isabs (p : string) :
  os_path.isabs p = true -> os_path.isabs (os_path.normpath p) = true.
Proof.
  intros Habs. destruct (isabs_cons p Habs) as [p' ->].
  unfold os_path.normpath. unfold os_path.isabs in Habs. rewrite Habs.
  cbn [str_truthy negb].
  destruct (startswith "//" (String "/" p') &&
            negb (startswith "///" (String "/" p')));
    cbn [os_path.slashes String.append str_truthy]; apply isabs_slash.
Qed.

(** [realpath] answers an absolute path when the current directory is
    absolute. *)
Lemma realpath_isabs (cwd p : string) :
  os_path.isabs cwd = true -> os_path.isabs (os_path.realpath cwd p) = true.
Proof.
  intros Hcwd. unfold os_path.realpath, os_path.abspath.
  apply normpath_isabs.
  destruct (os_path.isabs p) eqn:Hp; [exact Hp|].
  destruct (isabs_cons cwd Hcwd) as [c' ->].
  unfold os_path.join2. rewrite Hp.
  destruct (negb (str_truthy (String "/" c')) ||
            os_path.endswith_slash (String "/" c'));
    cbn [String.append]; apply isabs_slash.
Qed.

Section ExportFacts.

Variables (cwd : string) (now : datetime.t) (isfile writable : string -> bool).
Variables (path_conflict_error not_writable_error : string -> exn).
Variable export_logs : export_request -> result unit.

Local Abbreviation run :=
  (execute cwd now isfile writable path_conflict_error not_writable_error
     export_logs).
Local Abbreviation path_of := (output_file_path cwd now).

(** The run of [execute] when the validation of the output path passes. *)
Lemma execute_validated (args : export_args) (extra_args : list string)
    (w : World) :
  isfile (path_of args) = false -> writable (path_of args) = true ->
  run args extra_args w
  = let req := request_of args (path_of args) in
    let started :=
      trace w ++ [EValidatePath (path_of args); begin_message args;
                  EExportLogs req] in
    match export_logs req with
    | Return _ =>
        (Return tt,
         {| environ := environ w;
            trace := started ++
                     [ELog LOG_INFO ("Image's logs exported correctly to "
                                     +:+ path_of args)] |})
    | Raise e =>
        if is_Exception e then
          (Raise (SystemExit 1),
           {| environ := environ w;
              trace := started ++ [EPrint Stderr (failure_message e)] |})
        else (Raise e, {| environ := environ w; trace := started |})
    end.
Proof.
  intros Hfile Hwr.
  unfold execute, try_except, _validate_output_file_path, _export_image_logs,
    utils_error, sys_exit, bind, emit, lift, raise, ret.
  cbn [environ trace fst snd]. rewrite Hfile, Hwr. cbn [negb].
  cbn [environ trace fst snd].
  destruct (export_logs _) as [[]|e]; cbn [environ trace].
  - rewrite <- !app_assoc. reflexivity.
  - destruct (is_Exception e); cbn [environ trace];
      rewrite <- !app_assoc; reflexivity.
Qed.

(** The run of [execute] when the validation of the output path fails. *)
Lemma execute_rejected (args : export_args) (extra_args : list string)
    (w : World) (e : exn) :
  (isfile (path_of args) = true /\ e = path_conflict_error (path_of args)) \/
  (isfile (path_of args) = false /\ writable (path_of args) = false /\
   e = not_writable_error (path_of args)) ->
  run args extra_args w
  = if is_Exception e then
      (Raise (SystemExit 1),
       {| environ := environ w;
          trace := trace w ++ [EValidatePath (path_of args);
                               EPrint Stderr (failure_message e)] |})
    else
      (Raise e,
       {| environ := environ w;
          trace := trace w ++ [EValidatePath (path_of args)] |}).
Proof.
  intros H.
  unfold execute, try_except, _validate_output_file_path, _export_image_logs,
    utils_error, sys_exit, bind, emit, lift, raise, ret.
  cbn [environ trace fst snd].
  destruct H as [[Hfile ->]|(Hfile & Hwr & ->)]; rewrite Hfile;
    [|rewrite Hwr; cbn [negb]];
    match goal with |- context [is_Exception ?x] => destruct (is_Exception x) end;
    cbn [environ trace]; rewrite <- ?app_assoc; reflexivity.
Qed.

Lemma export_events_app (l1 l2 : list event) :
  export_events (l1 ++ l2) = export_events l1 ++ export_events l2.
Proof. apply List.filter_app. Qed.

(** C2, as amended.  When the log-export delegate raises an instance of
    [Exception], [execute] catches it, prints a message that begins with the
    fixed prefix to the error stream and terminates with [SystemExit(1)],
    which the [except] clauses of the entrypoint do not catch. *)
Theorem export_failure_reported (args : export_args)
    (extra_args : list string) (w : World) (e : exn) :
  isfile (path_of args) = false -> writable (path_of args) = true ->
  export_logs (request_of args (path_of args)) = Raise e ->
  is_Exception e = true ->
  exists msg,
    startswith export_failure_prefix msg = true /\
    run args extra_args w
    = (Raise (SystemExit 1),
       {| environ := environ w;
          trace := (trace w ++ [EValidatePath (path_of args);
                                begin_message args;
                                EExportLogs (request_of args (path_of args))])
                   ++ [EPrint Stderr msg] |}) /\
    main_except (SystemExit 1) = None.
Proof.
  intros Hfile Hwr Hraise Hexc. exists (failure_message e).
  split; [|split].
  - unfold failure_message, export_failure_prefix, startswith.
    apply String.prefix_correct. cbn [String.length String.append].
    cbn [String.substring]. repeat f_equal.
  - rewrite (execute_validated args extra_args w Hfile Hwr).
    cbv zeta. rewrite Hraise, Hexc. reflexivity.
  - reflexivity.
Qed.

(** C3, as amended.  Without an [--output] value the path is the real path
    of [<image_id>-logs-<twelve digits>.tar.gz], an absolute path; a
    non-empty [--output] value is the path itself; and the path so obtained
    is, once validated, the one handed to the delegate. *)
Theorem export_output_path (args : export_args) (extra_args : list string)
    (w : World) :
  (output args = None -> datetime.valid now -> os_path.isabs cwd = true ->
   exists ts,
     ts = datetime.strftime_YmdHM now /\ digits 12 ts = true /\
     path_of args
     = os_path.realpath cwd (image_id args +:+ "-logs-" +:+ ts +:+ ".tar.gz") /\
     os_path.isabs (path_of args) = true) /\
  (forall p, output args = Some p -> p <> EmptyString -> path_of args = p) /\
  (isfile (path_of args) = false -> writable (path_of args) = true ->
   export_events (trace (snd (run args extra_args w)))
   = export_events (trace w)
     ++ [EExportLogs (request_of args (path_of args))]).
Proof.
  split; [|split].
  - intros Hnone Hvalid Hcwd. exists (datetime.strftime_YmdHM now).
    unfold output_file_path, default_output_file_path.
    rewrite Hnone. cbn [py_or].
    repeat split; [apply strftime_digits, Hvalid|apply realpath_isabs, Hcwd].
  - intros p Hsome Hne. unfold output_file_path.
    rewrite Hsome. destruct p; [congruence|reflexivity].
  - intros Hfile Hwr.
    rewrite (execute_validated args extra_args w Hfile Hwr). cbv zeta.
    destruct (export_logs _) as [[]|e]; [|destruct (is_Exception e)];
      cbn [snd trace]; rewrite ?export_events_app; cbn;
      rewrite ?app_nil_r; reflexivity.
Qed.

(** C4.  Validation of the output path is the first step of every run, and
    when the path exists as a file the run fails there: the delegate is not
    invoked. *)
Theorem export_path_conflict (args : export_args) (extra_args : list string)
    (w : World) :
  (exists rest,
     trace (snd (run args extra_args w))
     = trace w ++ EValidatePath (path_of args) :: rest) /\
  (isfile (path_of args) = true ->
   (exists e, fst (run args extra_args w) = Raise e) /\
   export_events (trace (snd (run args extra_args w)))
   = export_events (trace w)).
Proof.
  split.
  - destruct (isfile (path_of args)) eqn:Hfile.
    + rewrite (execute_rejected args extra_args w _ (or_introl (conj Hfile eq_refl))).
      destruct (is_Exception _); cbn [snd trace]; eauto.
    + destruct (writable (path_of args)) eqn:Hwr.
      * rewrite (execute_validated args extra_args w Hfile Hwr). cbv zeta.
        destruct (export_logs _) as [[]|e]; [|destruct (is_Exception e)];
          cbn [snd trace]; rewrite <- ?app_assoc; cbn [app]; eauto.
      * rewrite (execute_rejected args extra_args w _
                   (or_intror (conj Hfile (conj Hwr eq_refl)))).
        destruct (is_Exception _); cbn [snd trace]; eauto.
  - intros Hfile.
    rewrite (execute_rejected args extra_args w _ (or_introl (conj Hfile eq_refl))).
    destruct (is_Exception _); cbn [fst snd trace];
      (split; [eauto|]); rewrite export_events_app; cbn;
      apply app_nil_r.
Qed.


End ExportFacts.

Lemma sample_now_valid : datetime.valid sample_now.
Proof. unfold datetime.valid, sample_now; cbn; lia. Qed.

(** C2, counterexample: a [KeyboardInterrupt] raised by the delegate is not
    caught by [execute]; it leaves the command as it is and nothing is
    printed to the error stream. *)
Lemma export_interrupt_not_caught :
  fst (sample_execute no_file (delegate_raising KeyboardInterrupt) None)
  = Raise KeyboardInterrupt /\
  stderr_events
    (trace (snd (sample_execute no_file (delegate_raising KeyboardInterrupt)
                   None)))
  = [].
Proof. split; vm_compute; reflexivity. Qed.

Lemma export_failure_reported_witness :
  fst (sample_execute no_file
         (delegate_raising (OtherException "ImageBuilderActionError" "denied"))
         None)
  = Raise (SystemExit 1).
Proof.
  destruct (export_failure_reported "/home/user" sample_now no_file
              (fun _ => true) sample_path_error sample_path_error
              (delegate_raising
                 (OtherException "ImageBuilderActionError" "denied"))
              (sample_args None) [] {| environ := ∅; trace := [] |}
              (OtherException "ImageBuilderActionError" "denied")
              eq_refl eq_refl eq_refl eq_refl) as (msg & _ & Hrun & _).
  unfold sample_execute. rewrite Hrun. reflexivity.
Defined.

(** C3, counterexample: with the explicit output path [--output ''] the
    delegate does not receive that path but the default one. *)
Lemma empty_output_not_passed :
  export_events
    (trace (snd (sample_execute no_file delegate_ok (Some EmptyString))))
  = [EExportLogs
       (request_of (sample_args (Some EmptyString)) sample_default_path)] /\
  sample_default_path <> EmptyString.
Proof. split; [vm_compute; reflexivity|discriminate]. Qed.

Lemma export_output_path_witness :
  (exists ts,
     digits 12 ts = true /\
     output_file_path "/home/user" sample_now (sample_args None)
     = os_path.realpath "/home/user" ("ami-123-logs-" +:+ ts +:+ ".tar.gz")) /\
  output_file_path "/home/user" sample_now (sample_args (Some "out.tar.gz"))
  = "out.tar.gz" /\
  export_events
    (trace (snd (sample_execute no_file delegate_ok (Some "out.tar.gz"))))
  = [EExportLogs (request_of (sample_args (Some "out.tar.gz")) "out.tar.gz")].
Proof.
  split; [|split].
  - destruct (proj1 (export_output_path "/home/user" sample_now no_file
                       (fun _ => true) sample_path_error sample_path_error
                       delegate_ok (sample_args None) []
                       {| environ := ∅; trace := [] |})
                eq_refl sample_now_valid eq_refl) as (ts & _ & Hd & Hp & _).
    exists ts. split; [exact Hd|exact Hp].
  - apply (proj1 (proj2 (export_output_path "/home/user" sample_now no_file
                           (fun _ => true) sample_path_error sample_path_error
                           delegate_ok (sample_args (Some "out.tar.gz")) []
                           {| environ := ∅; trace := [] |})));
      [reflexivity|discriminate].
  - apply (proj2 (proj2 (export_output_path "/home/user" sample_now no_file
                           (fun _ => true) sample_path_error sample_path_error
                           delegate_ok (sample_args (Some "out.tar.gz")) []
                           {| environ := ∅; trace := [] |})));
      reflexivity.
Defined.

Lemma export_path_conflict_witness :
  (exists e, fst (sample_execute (fun _ => true) delegate_ok None) = Raise e) /\
  export_events (trace (snd (sample_execute (fun _ => true) delegate_ok None)))
  = [].
Proof.
  apply (proj2 (export_path_conflict "/home/user" sample_now (fun _ => true)
                  (fun _ => true) sample_path_error sample_path_error
                  delegate_ok (sample_args None) []
                  {| environ := ∅; trace := [] |})).
  reflexivity.
Defined.


(** ** The argument parser *)

Lemma parse_known_args_eq (prog : string) (arguments : list argument)
    (subparsers : option (string * bool * list (string * parser)))
    (defaults : list (string * value)) (arg_strings : list string) :
  parse_known_args (Parser prog arguments subparsers defaults) arg_strings
  = let has_sub := match subparsers with Some _ => true | None => false end in
    if existsb (outside_fragment (all_option_strings arguments))
         (examined arguments has_sub arg_strings)
    then Unmodelled
    else
      match consume prog arguments has_sub arg_strings
              (List.filter is_positional arguments) []
              (init_namespace arguments subparsers defaults) [] with
      | LStop o => o
      | LDone ns seen extras =>
          finish prog arguments subparsers false seen ns extras
      | LSub name rest ns seen extras =>
          match subparsers with
          | None => Unmodelled
          | Some (sdest, _, parsers) =>
              select name
                (fun q =>
                   match parse_known_args q rest with
                   | Parsed subns subextras =>
                       finish prog arguments subparsers true seen
                         (subns ∪ <[sdest := VStr name]> ns)
                         (extras ++ subextras)
                   | o => o
                   end)
                (Error prog (InvalidChoice sdest name)) parsers
          end
      end.
Proof. reflexivity. Qed.

Lemma find_option_In (arguments : list argument) (tok : string) (a : argument) :
  find_option arguments tok = Some a -> In a arguments.
Proof. intros H. apply List.find_some in H. tauto. Qed.

Lemma select_found {A : Type} (name : string) (found : parser -> A)
    (missing : A) (l : list (string * parser)) :
  select name found missing l = missing \/
  exists q, In (name, q) l /\ select name found missing l = found q.
Proof.
  induction l as [|[n q] l IH]; [left; reflexivity|].
  cbn [select]. destruct (String.eqb_spec n name) as [->|Hne].
  - right. exists q. split; [left; reflexivity|reflexivity].
  - destruct IH as [IH|(q' & Hin & IH)]; [left; exact IH|].
    right. exists q'. split; [right; exact Hin|exact IH].
Qed.

Section KeyInvariant.

(** A property [S] of the value under the key [k] that every argument of a
    parser respects: an argument stored under [k] is a plain string option
    and [S] holds of every string. *)
Variables (k : string) (S : option value -> Prop).
Variables (prog : string) (arguments : list argument) (has_sub : bool).

Hypothesis respects :
  forall a, In a arguments -> dest a = k ->
    action a = Store None /\ choices a = None /\ forall s, S (Some (VStr s)).

Lemma get_value_key (a : argument) (s : string) (x : value) :
  In a arguments -> get_value a s = Converted x -> dest a = k -> S (Some x).
Proof.
  intros Hin Hget Hk. destruct (respects a Hin Hk) as (Hact & Hch & HS).
  unfold get_value in Hget. rewrite Hact, Hch in Hget.
  injection Hget as <-. apply HS.
Qed.

Lemma insert_key (a : argument) (x : value) (ns : Namespace) :
  (dest a = k -> S (Some x)) -> S (ns !! k) -> S (<[dest a := x]> ns !! k).
Proof.
  intros Hx Hns. destruct (decide (dest a = k)) as [E|Hne].
  - rewrite E, lookup_insert_eq. apply Hx, E.
  - rewrite lookup_insert_ne; assumption.
Qed.

Lemma consume_key_bounded (n : nat) :
  forall toks pos seen ns extras,
    length toks <= n ->
    (forall a, In a pos -> In a arguments) ->
    S (ns !! k) ->
    loop_key k S (consume prog arguments has_sub toks pos seen ns extras).
Proof.
  induction n as [|n IH]; intros toks pos seen ns extras Hlen Hpos Hns.
  - destruct toks; [exact Hns|simpl in Hlen; lia].
  - destruct toks as [|tok rest]; [exact Hns|]. simpl in Hlen.
    cbn [consume].
    destruct (classify arguments tok) as [|a|] eqn:Hcl.
    + destruct pos as [|a pos'].
      * destruct has_sub; [exact Hns|]. apply IH; [lia|exact Hpos|exact Hns].
      * destruct (get_value a tok) as [x| |] eqn:Hget; try exact I.
        apply IH; [lia|intros b Hb; apply Hpos; right; exact Hb|].
        apply insert_key; [|exact Hns].
        apply (get_value_key a tok x); [apply Hpos; left; reflexivity|exact Hget].
    + assert (Hin : In a arguments).
      { unfold classify in Hcl. destruct (negb _); [discriminate|].
        destruct (find_option arguments tok) eqn:Hf;
          [injection Hcl as ->; eapply find_option_In; exact Hf|].
        destruct (String.eqb tok "-"); [discriminate|].
        destruct (contains_char _ tok); discriminate. }
      destruct (action a) eqn:Hact; [| |exact I].
      * destruct rest as [|v rest']; [exact I|].
        destruct (is_positional_token arguments v); [|exact I].
        destruct (get_value a v) as [x| |] eqn:Hget; try exact I.
        apply IH; [simpl in Hlen; lia|exact Hpos|].
        apply insert_key; [|exact Hns].
        apply (get_value_key a v x); [exact Hin|exact Hget].
      * apply IH; [lia|exact Hpos|].
        apply insert_key; [|exact Hns].
        intros Hk. destruct (respects a Hin Hk) as (Hact' & _).
        congruence.
    + apply IH; [lia|exact Hpos|exact Hns].
Qed.

Lemma consume_key (toks : list string) (pos : list argument)
    (seen : list string) (ns : Namespace) (extras : list string) :
  (forall a, In a pos -> In a arguments) ->
  S (ns !! k) ->
  loop_key k S (consume prog arguments has_sub toks pos seen ns extras).
Proof. apply (consume_key_bounded (length toks)). reflexivity. Qed.

Lemma finalize_key (actions : list argument) :
  forall seen ns missing ns' missing',
    (forall a, In a actions -> In a arguments) ->
    S (ns !! k) ->
    finalize actions seen ns missing = inr (ns', missing') ->
    S (ns' !! k).
Proof.
  induction actions as [|a actions IH];
    intros seen ns missing ns' missing' Hsub Hns Hfin.
  - injection Hfin as <- _. exact Hns.
  - assert (Hsub' : forall b, In b actions -> In b arguments)
      by (intros b Hb; apply Hsub; right; exact Hb).
    cbn [finalize] in Hfin.
    destruct (bool_decide (dest a ∈ seen)); [eapply IH; eassumption|].
    destruct (required a); [eapply IH; eassumption|].
    destruct (default a) as [| |s| |]; try (eapply IH; eassumption).
    destruct (action a) eqn:Hact; try (eapply IH; eassumption).
    destruct (ns !! dest a) as [[| |s'| |]|]; try (eapply IH; eassumption).
    destruct (String.eqb s s'); [|eapply IH; eassumption].
    destruct (get_value a s) as [x| |] eqn:Hget; try discriminate.
    eapply IH; [exact Hsub'| |exact Hfin].
    apply insert_key; [|exact Hns].
    apply (get_value_key a s x); [apply Hsub; left; reflexivity|exact Hget].
Qed.

Lemma finish_key (subparsers : option (string * bool * list (string * parser)))
    (sub_seen : bool) (seen : list string) (ns : Namespace)
    (extras : list string) (args : Namespace) (extra_args : list string) :
  S (ns !! k) ->
  finish prog arguments subparsers sub_seen seen ns extras
  = Parsed args extra_args ->
  S (args !! k) /\ extra_args = extras.
Proof.
  intros Hns Hfin. unfold finish in Hfin.
  destruct (finalize arguments seen ns []) as [[| |]|[ns' missing]] eqn:Hf;
    try discriminate.
  assert (Hk : S (ns' !! k))
    by (eapply finalize_key; [intros a Ha; exact Ha|exact Hns|exact Hf]).
  destruct (match subparsers with
            | Some (sdest, true, _) =>
                if sub_seen then missing else missing ++ [sdest]
            | _ => missing
            end); [|discriminate].
  injection Hfin as <- <-. split; [exact Hk|reflexivity].
Qed.

End KeyInvariant.

(** A parser without sub-parsers keeps [S] from the initial namespace to the
    namespace it answers. *)
Lemma leaf_parse_key (k : string) (S : option value -> Prop) (prog : string)
    (arguments : list argument) (defaults : list (string * value))
    (arg_strings : list string) (args : Namespace) (extra_args : list string) :
  (forall a, In a arguments -> dest a = k ->
     action a = Store None /\ choices a = None /\ forall s, S (Some (VStr s))) ->
  S (init_namespace arguments None defaults !! k) ->
  parse_known_args (Parser prog arguments None defaults) arg_strings
  = Parsed args extra_args ->
  S (args !! k).
Proof.
  intros Hresp Hinit Hparse. rewrite parse_known_args_eq in Hparse.
  cbv zeta in Hparse. destruct (existsb _ _); [discriminate|].
  pose proof (consume_key k S prog arguments false Hresp arg_strings
                (List.filter is_positional arguments) []
                (init_namespace arguments None defaults) []) as Hloop.
  destruct (consume _ _ _ _ _ _ _ _) as [ns seen extras| |o];
    [|discriminate|].
  - eapply (finish_key k S); [exact Hresp| |exact Hparse].
    apply Hloop; [|exact Hinit].
    intros a Ha. apply List.filter_In in Ha. tauto.
  - cbv beta iota in Hparse. subst o. cbn in Hloop. exfalso.
    apply Hloop; [|exact Hinit].
    intros a Ha. apply List.filter_In in Ha. tauto.
Qed.

Lemma leaf_ok_sound (func : option value) (p : parser)
    (arg_strings : list string) (args : Namespace) (extra_args : list string) :
  leaf_ok func p = true ->
  parse_known_args p arg_strings = Parsed args extra_args ->
  args !! "func" = func /\ args !! "command" = None /\ region_wf args.
Proof.
  destruct p as [prog arguments [?|] defaults]; [discriminate|].
  unfold leaf_ok. intros Hok Hparse.
  apply andb_prop in Hok as [Hok Hregion].
  apply andb_prop in Hok as [Hok Hcommand].
  apply andb_prop in Hok as [Hargs Hfunc].
  apply bool_decide_eq_true in Hfunc, Hcommand.
  rewrite List.forallb_forall in Hargs.
  assert (Hdest : forall a key, In a arguments -> dest a = key ->
            key <> "func" /\ key <> "command" /\
            (key = "region" -> plain_store a = true)).
  { intros a key Ha <-. specialize (Hargs a Ha).
    apply andb_prop in Hargs as [Hargs Hr].
    apply andb_prop in Hargs as [Hf Hc].
    apply negb_true_iff, String.eqb_neq in Hf, Hc.
    repeat split; try assumption.
    intros E. rewrite E in Hr. exact Hr. }
  split; [|split].
  - apply (leaf_parse_key "func" (fun o => o = func) prog arguments defaults
             arg_strings args extra_args); [|exact Hfunc|exact Hparse].
    intros a Ha Hk. destruct (Hdest a _ Ha Hk) as (Hne & _). congruence.
  - apply (leaf_parse_key "command" (fun o => o = None) prog arguments defaults
             arg_strings args extra_args); [|exact Hcommand|exact Hparse].
    intros a Ha Hk. destruct (Hdest a _ Ha Hk) as (_ & Hne & _). congruence.
  - apply (leaf_parse_key "region" region_ok prog arguments defaults
             arg_strings args extra_args); [| |exact Hparse].
    + intros a Ha Hk. destruct (Hdest a _ Ha Hk) as (_ & _ & Hplain).
      specialize (Hplain eq_refl). unfold plain_store in Hplain.
      destruct (action a) as [[?|]| |]; try discriminate.
      destruct (choices a); [discriminate|].
      split; [reflexivity|]. split; [reflexivity|]. intros s. exact I.
    + destruct (init_namespace arguments None defaults !! "region")
        as [[| | | |]|]; try discriminate; exact I.
Qed.

(** A parser that has only the help option in front of its sub-parsers keeps
    its namespace until a sub-parser is selected. *)
Lemma consume_help_only (prog : string) (toks : list string) :
  forall ns extras,
    match consume prog [help_argument] true toks [] [] ns extras with
    | LDone ns' seen _ => ns' = ns /\ seen = []
    | LSub _ _ ns' seen _ => ns' = ns /\ seen = []
    | LStop o => o = Help prog
    end.
Proof.
  induction toks as [|tok rest IH]; intros ns extras; [split; reflexivity|].
  cbn [consume].
  destruct (classify [help_argument] tok) as [|a|] eqn:Hcl.
  - split; reflexivity.
  - assert (Ha : a = help_argument).
    { unfold classify in Hcl. destruct (negb _); [discriminate|].
      destruct (find_option [help_argument] tok) eqn:Hf.
      - injection Hcl as ->. apply find_option_In in Hf.
        destruct Hf as [<-|[]]. reflexivity.
      - destruct (String.eqb tok "-"); [discriminate|].
        destruct (contains_char _ tok); discriminate. }
    subst a. reflexivity.
  - apply IH.
Qed.

Lemma finish_help_only (prog sdest : string)
    (parsers : list (string * parser)) (sub_seen : bool) (ns : Namespace)
    (extras : list string) :
  finish prog [help_argument] (Some (sdest, true, parsers)) sub_seen [] ns extras
  = if sub_seen then Parsed ns extras
    else Error prog (RequiredMissing [sdest]).
Proof. destruct sub_seen; reflexivity. Qed.

Lemma node_parse (prog sdest : string) (parsers : list (string * parser))
    (defaults : list (string * value)) (arg_strings : list string)
    (args : Namespace) (extra_args : list string) :
  parse_known_args
    (Parser prog [help_argument] (Some (sdest, true, parsers)) defaults)
    arg_strings
  = Parsed args extra_args ->
  exists name q rest subns,
    In (name, q) parsers /\
    (exists subextras, parse_known_args q rest = Parsed subns subextras) /\
    args = subns ∪ <[sdest := VStr name]>
             (init_namespace [help_argument] (Some (sdest, true, parsers))
                defaults).
Proof.
  intros Hparse. rewrite parse_known_args_eq in Hparse. cbv zeta in Hparse.
  destruct (existsb _ _); [discriminate|].
  pose proof (consume_help_only prog arg_strings
                (init_namespace [help_argument] (Some (sdest, true, parsers))
                   defaults) []) as Hloop.
  destruct (consume _ _ _ _ _ _ _ _) as [ns seen extras|name rest ns seen extras|o].
  - destruct Hloop as [-> ->]. rewrite finish_help_only in Hparse. discriminate.
  - destruct Hloop as [-> ->].
    match type of Hparse with
    | select ?n ?f ?m ?l = _ => destruct (select_found n f m l) as [E|(q & Hin & E)]
    end; rewrite E in Hparse; [discriminate|].
    destruct (parse_known_args q rest) as [subns subextras| | | |] eqn:Hsub;
      try discriminate.
    rewrite finish_help_only in Hparse. injection Hparse as <- <-.
    exists name, q, rest, subns. split; [exact Hin|]. split; eauto.
  - subst o. discriminate.
Qed.

Lemma union_lookup_left (m1 m2 : Namespace) (key : string) (v : value) :
  m1 !! key = Some v -> (m1 ∪ m2) !! key = Some v.
Proof. intros H. apply lookup_union_Some_l. exact H. Qed.

Lemma union_lookup_right (m1 m2 : Namespace) (key : string) :
  m1 !! key = None -> (m1 ∪ m2) !! key = m2 !! key.
Proof. intros H. apply lookup_union_r. exact H. Qed.

Lemma region_ok_union (m1 m2 : Namespace) :
  region_ok (m1 !! "region") -> m2 !! "region" = None ->
  region_ok ((m1 ∪ m2) !! "region").
Proof.
  intros H1 H2. destruct (m1 !! "region") as [v|] eqn:E.
  - rewrite (union_lookup_left _ _ _ _ E). exact H1.
  - rewrite (union_lookup_right _ _ _ E), H2. exact I.
Qed.

(** What the parser of the [dcv] subcommand answers. *)
Lemma pdcv_parse (arg_strings : list string) (args : Namespace)
    (extra_args : list string) :
  parse_known_args pdcv arg_strings = Parsed args extra_args ->
  args !! "func" = Some (VFunc dcv) /\ args !! "command" = None /\
  region_wf args.
Proof.
  intros Hparse. apply node_parse in Hparse
    as (name & q & rest & subns & Hin & (subextras & Hsub) & ->).
  destruct Hin as [E|[]]. injection E as <- <-.
  apply (leaf_ok_sound None) in Hsub as (Hf & Hc & Hr); [|vm_compute; reflexivity].
  split; [|split].
  - rewrite (union_lookup_right _ _ _ Hf). reflexivity.
  - rewrite (union_lookup_right _ _ _ Hc). reflexivity.
  - apply region_ok_union; [exact Hr|reflexivity].
Qed.

(** The table lists the subcommands of the schema, in its order. *)
Lemma command_table_names :
  map fst command_table = subcommand_names _get_parser.
Proof. reflexivity. Qed.

(** A sub-parser without sub-parsers of its own, checked against the handler
    [h] that it registers. *)
Ltac leaf_case h Hsub :=
  apply (leaf_ok_sound (Some (VFunc h))) in Hsub as (Hf & Hc & Hr);
  [|vm_compute; reflexivity].

(** 4.2 of the spec, on the code: a successful parse names a subcommand of
    the table, carries the handler registered for it, and has a region that
    is absent, [None] or a string. *)
Lemma parsed_namespace (argv : list string) (args : Namespace)
    (extra_args : list string) :
  parse_known_args _get_parser argv = Parsed args extra_args ->
  exists name f,
    In (name, f) command_table /\
    args !! "command" = Some (VStr name) /\
    args !! "func" = Some (VFunc f) /\
    region_wf args.
Proof.
  intros Hparse. apply node_parse in Hparse
    as (name & q & rest & subns & Hin & (subextras & Hsub) & ->).
  assert (Hleaf : exists f, In (name, f) command_table /\
            subns !! "func" = Some (VFunc f) /\ subns !! "command" = None /\
            region_wf subns).
  { cbn [In] in Hin.
    repeat (destruct Hin as [E|Hin];
            [injection E as <- <-;
             first
               [ apply pdcv_parse in Hsub as (Hf & Hc & Hr)
               | leaf_case create Hsub
               | leaf_case update Hsub
               | leaf_case delete Hsub
               | leaf_case start Hsub
               | leaf_case stop Hsub
               | leaf_case status Hsub
               | leaf_case list_clusters Hsub
               | leaf_case instances Hsub
               | leaf_case ssh Hsub
               | leaf_case build_image Hsub
               | leaf_case delete_image Hsub
               | leaf_case describe_image Hsub
               | leaf_case list_images Hsub
               | leaf_case configure Hsub
               | leaf_case version Hsub ];
             eexists; (split; [|split; [exact Hf|split; [exact Hc|exact Hr]]]);
             unfold command_table; cbn [In]; tauto
            |]).
    destruct Hin. }
  destruct Hleaf as (f & Htab & Hf & Hc & Hr).
  exists name, f. split; [exact Htab|]. split; [|split].
  - rewrite (union_lookup_right _ _ _ Hc). apply lookup_insert_eq.
  - apply union_lookup_left. exact Hf.
  - apply region_ok_union; [exact Hr|reflexivity].
Qed.

(** ** The entrypoint *)

Section CliFacts.

Variable extern :
  extern_op -> option Namespace -> option (list string) -> Environ ->
  result string.
Variable cli_log_file : string.
Variable os_makedirs : string -> option (Z * string).

Lemma world_eta (w : World) : {| environ := environ w; trace := trace w |} = w.
Proof. destruct w; reflexivity. Qed.

Lemma set_region_spec (args : Namespace) (w : World) :
  region_wf args ->
  set_region args w
  = (Return tt, {| environ := region_env args (environ w);
                   trace := trace w ++ region_events args |}).
Proof.
  unfold region_wf, set_region, region_env, region_events.
  destruct (args !! "region") as [[| |r| |]|]; cbn; try contradiction;
    intros _; try (destruct r); cbn; unfold ret, putenv;
    rewrite ?app_nil_r, ?world_eta; reflexivity.
Qed.

(** A handler call records itself first, and no handler is called from
    inside a handler. *)
Lemma call_spec (f : handler) (args : Namespace)
    (extra_args : option (list string)) (w : World) :
  exists r rest,
    call extern f args extra_args w
    = (r, {| environ := environ w;
             trace := trace w
                      ++ EHandler f args extra_args (environ w) :: rest |}) /\
    handler_events rest = [].
Proof.
  unfold call, handler_body, call_extern, bind, get_environ, emit, lift, ret.
  destruct f; cbn [environ trace];
    match goal with
    | |- context [extern ?op ?a ?e ?env] => destruct (extern op a e env)
    end;
    cbn [environ trace]; eexists _, _; rewrite <- ?app_assoc; cbn [app];
    (split; [reflexivity|reflexivity]).
Qed.

Lemma handler_name_ssh (f : handler) :
  String.eqb (__name__ f) "ssh" = true <-> f = ssh.
Proof. destruct f; cbn; split; congruence. Qed.

Lemma handler_events_app (l1 l2 : list event) :
  handler_events (l1 ++ l2) = handler_events l1 ++ handler_events l2.
Proof. apply List.filter_app. Qed.

Lemma handler_events_cons (f : handler) (args : Namespace)
    (extra_args : option (list string)) (env : Environ) (l : list event) :
  handler_events (EHandler f args extra_args env :: l)
  = EHandler f args extra_args env :: handler_events l.
Proof. reflexivity. Qed.

Lemma handler_events_region (args : Namespace) :
  handler_events (region_events args) = [].
Proof.
  unfold region_events. destruct (args !! "region") as [[| |r| |]|];
    try reflexivity. destruct (str_truthy r); reflexivity.
Qed.

(** An [except] clause of [main] logs one record and exits with status 1. *)
Lemma main_except_spec (e : exn) (h : M unit) (w : World) :
  main_except e = Some h ->
  exists ev,
    h w = (Raise (SystemExit 1),
           {| environ := environ w; trace := trace w ++ [ev] |}) /\
    is_handler_event ev = false.
Proof.
  unfold main_except. intros H.
  destruct e; cbn in H; try discriminate; injection H as <-;
    unfold bind, emit, sys_exit, raise; cbn [environ trace];
    eexists; (split; [reflexivity|reflexivity]).
Qed.

(** The [try] statement when unrecognised arguments are left for a handler
    other than [ssh]: usage, message, exit with status 1. *)
Lemma dispatch_rejects (prog : string) (args : Namespace)
    (extra_args : list string) (f : handler) (w : World) :
  args !! "func" = Some (VFunc f) -> f <> ssh -> region_wf args ->
  extra_args <> [] ->
  dispatch extern prog args extra_args w
  = (Raise (SystemExit 1),
     {| environ := region_env args (environ w);
        trace := (trace w ++ region_events args)
                 ++ [EUsage Stdout prog;
                     EPrint Stdout (invalid_arguments_message extra_args)] |}).
Proof.
  intros Hfunc Hssh Hwf Hextra.
  unfold dispatch, try_except, try_body, bind.
  rewrite (set_region_spec args w Hwf).
  unfold invoke, getattr, bind. rewrite Hfunc. unfold ret at 1.
  destruct (String.eqb (__name__ f) "ssh") eqn:Hname;
    [apply handler_name_ssh in Hname; contradiction|].
  destruct extra_args as [|x extra_args]; [contradiction|].
  unfold emit, sys_exit, raise. cbn [environ trace main_except is_Exception].
  rewrite <- !app_assoc. reflexivity.
Qed.

(** The [try] statement when the handler is called. *)
Lemma dispatch_calls (prog : string) (args : Namespace)
    (extra_args : list string) (f : handler) (w : World) :
  args !! "func" = Some (VFunc f) -> region_wf args ->
  f = ssh \/ extra_args = [] ->
  exists r rest,
    dispatch extern prog args extra_args w
    = (r, {| environ := region_env args (environ w);
             trace := (trace w ++ region_events args)
                      ++ EHandler f args (passed_extra f extra_args)
                           (region_env args (environ w)) :: rest |}) /\
    handler_events rest = [].
Proof.
  intros Hfunc Hwf Hcall.
  unfold dispatch, try_except, try_body, bind.
  rewrite (set_region_spec args w Hwf).
  unfold invoke, getattr, bind. rewrite Hfunc. unfold ret at 1.
  set (w1 := {| environ := region_env args (environ w);
                trace := trace w ++ region_events args |}).
  assert (Hbody :
    (if String.eqb (__name__ f) "ssh" then call extern f args (Some extra_args)
     else
       bind (match extra_args with
             | [] => ret tt
             | _ :: _ =>
                 bind (emit (EUsage Stdout prog))
                   (fun _ =>
                      bind (emit (EPrint Stdout
                                    ("Invalid arguments "
                                     +:+ repr_list extra_args +:+ "...")))
                        (fun _ => sys_exit 1))
             end) (fun _ => call extern f args None)) w1
    = call extern f args (passed_extra f extra_args) w1).
  { destruct Hcall as [->| ->]; [reflexivity|].
    destruct (String.eqb (__name__ f) "ssh") eqn:Hname.
    - apply handler_name_ssh in Hname. subst f. reflexivity.
    - assert (Hp : passed_extra f [] = None)
        by (destruct f; try reflexivity; discriminate).
      rewrite Hp. reflexivity. }
  unfold bind in Hbody. rewrite Hbody.
  destruct (call_spec f args (passed_extra f extra_args) w1)
    as (r & rest & Hcall' & Hrest).
  rewrite Hcall'. subst w1. cbn [environ trace].
  destruct r as [[]|e].
  - eexists _, rest. split; [reflexivity|exact Hrest].
  - destruct (main_except e) as [h|] eqn:Hexc.
    + destruct (main_except_spec e h
                  {| environ := region_env args (environ w);
                     trace := (trace w ++ region_events args)
                              ++ EHandler f args (passed_extra f extra_args)
                                   (region_env args (environ w)) :: rest |}
                  Hexc) as (ev & Hh & Hev).
      rewrite Hh. cbn [environ trace].
      eexists _, (rest ++ [ev]). rewrite <- !app_assoc. cbn [app].
      split; [reflexivity|].
      rewrite handler_events_app, Hrest. cbn. rewrite Hev. reflexivity.
    + eexists _, rest. split; [reflexivity|exact Hrest].
Qed.

(** The process after a successful parse. *)
Lemma pcluster_parsed (argv : list string) (env : Environ) (args : Namespace)
    (extra_args : list string) :
  logger_ready cli_log_file os_makedirs ->
  parse_known_args _get_parser argv = Parsed args extra_args ->
  pcluster extern cli_log_file os_makedirs argv env
  = Some (conclude
            (dispatch extern "pcluster" args extra_args
               {| environ := env; trace := startup args |})).
Proof.
  intros Hlog Hparse.
  unfold pcluster, main, parse_command_line. rewrite Hparse.
  unfold run_process, bind, config_logger. unfold logger_ready in Hlog.
  destruct (os_makedirs _) as [[errno msg]|].
  - subst errno. reflexivity.
  - reflexivity.
Qed.

(** The process after a usage error reported by argparse. *)
Lemma pcluster_usage_error (argv : list string) (env : Environ)
    (prog : string) (err : parse_error) :
  logger_ready cli_log_file os_makedirs ->
  parse_known_args _get_parser argv = Error prog err ->
  pcluster extern cli_log_file os_makedirs argv env
  = Some (2%Z, {| environ := env;
                  trace := [ELog LOG_DEBUG "pcluster CLI starting";
                            EUsage Stderr prog; EParseError prog err] |}).
Proof.
  intros Hlog Hparse.
  unfold pcluster, main, parse_command_line. rewrite Hparse.
  unfold run_process, bind, config_logger. unfold logger_ready in Hlog.
  destruct (os_makedirs _) as [[errno msg]|].
  - subst errno. reflexivity.
  - reflexivity.
Qed.

Lemma conclude_handler_events (r : result unit) (w : World) :
  handler_events (trace (snd (conclude (r, w)))) = handler_events (trace w).
Proof.
  destruct r as [[]|e]; [reflexivity|].
  destruct e; cbn [conclude snd trace]; try reflexivity;
    rewrite handler_events_app; cbn; apply app_nil_r.
Qed.

Lemma command_table_ssh (name : string) (f : handler) :
  In (name, f) command_table -> (name = "ssh" <-> f = ssh).
Proof.
  unfold command_table. cbn [In]. intros H.
  repeat (destruct H as [E|H];
          [injection E as <- <-; split; intros; congruence|]).
  destruct H.
Qed.



(** The region of the namespace is in the environment when the handler
    starts. *)
Lemma region_set_before_handler (argv : list string) (env : Environ)
    (args : Namespace) (extra_args : list string) (r : string) :
  logger_ready cli_log_file os_makedirs ->
  parse_known_args _get_parser argv = Parsed args extra_args ->
  args !! "command" = Some (VStr "ssh") \/ extra_args = [] ->
  args !! "region" = Some (VStr r) -> r <> EmptyString ->
  exists f code w rest,
    args !! "func" = Some (VFunc f) /\
    pcluster extern cli_log_file os_makedirs argv env = Some (code, w) /\
    trace w = startup args
              ++ EPutenv "AWS_DEFAULT_REGION" r
                 :: EHandler f args (passed_extra f extra_args)
                      (<["AWS_DEFAULT_REGION" := r]> env) :: rest /\
    handler_events rest = [].
Proof.
  intros Hlog Hparse Hcall Hregion Hr.
  destruct (parsed_namespace argv args extra_args Hparse)
    as (name & f & Htab & Hname & Hfunc & Hwf).
  assert (Hcall' : f = ssh \/ extra_args = []).
  { destruct Hcall as [Hssh|Hnil]; [left|right; exact Hnil].
    apply (command_table_ssh name f Htab). congruence. }
  rewrite (pcluster_parsed argv env args extra_args Hlog Hparse).
  destruct (dispatch_calls "pcluster" args extra_args f
              {| environ := env; trace := startup args |} Hfunc Hwf Hcall')
    as (res & rest & Hrun & Hrest).
  rewrite Hrun. clear Hrun. cbn [environ trace].
  unfold region_env, region_events. rewrite Hregion.
  destruct r as [|c r]; [contradiction|]. cbn [str_truthy].
  rewrite <- app_assoc. cbn [app].
  destruct res as [[]|e].
  - eexists f, _, _, rest. cbn [conclude].
    split; [exact Hfunc|]. split; [reflexivity|]. split; [reflexivity|exact Hrest].
  - destruct e; cbn [conclude];
      first
        [ eexists f, _, _, rest;
          split; [exact Hfunc|]; split; [reflexivity|];
          split; [reflexivity|exact Hrest]
        | eexists f, _, _, (rest ++ [_]);
          split; [exact Hfunc|]; split; [reflexivity|]; cbn [trace];
          split; [rewrite <- app_assoc; reflexivity|];
          rewrite handler_events_app, Hrest; reflexivity ].
Qed.

Lemma region_command_lines_accepted :
  forallb accepts_region region_command_lines = true.
Proof. vm_compute. reflexivity. Qed.

(** C6, as amended.  Every subcommand except [version] declares the region
    option and has a command line in [region_command_lines]; on each of them
    [--region us-west-2] puts exactly [us-west-2] into [AWS_DEFAULT_REGION]
    before the handler of the subcommand starts, and the handler finds it
    there; the same holds on every command line that parses to the region
    [us-west-2] and reaches its handler. *)
Theorem region_before_handler :
  (forall name f,
     In (name, f) command_table -> name <> "version" ->
     exists base, In (base, f) region_command_lines /\ hd_error base = Some name) /\
  (forall base f env,
     logger_ready cli_log_file os_makedirs ->
     In (base, f) region_command_lines ->
     exists args code w rest,
       pcluster extern cli_log_file os_makedirs (with_region base) env
       = Some (code, w) /\
       trace w = startup args
                 ++ EPutenv "AWS_DEFAULT_REGION" "us-west-2"
                    :: EHandler f args (passed_extra f [])
                         (<["AWS_DEFAULT_REGION" := "us-west-2"]> env) :: rest /\
       handler_events rest = []) /\
  (forall argv args extra_args env,
     logger_ready cli_log_file os_makedirs ->
     parse_known_args _get_parser argv = Parsed args extra_args ->
     args !! "command" = Some (VStr "ssh") \/ extra_args = [] ->
     args !! "region" = Some (VStr "us-west-2") ->
     exists f code w rest,
       args !! "func" = Some (VFunc f) /\
       pcluster extern cli_log_file os_makedirs argv env = Some (code, w) /\
       trace w = startup args
                 ++ EPutenv "AWS_DEFAULT_REGION" "us-west-2"
                    :: EHandler f args (passed_extra f extra_args)
                         (<["AWS_DEFAULT_REGION" := "us-west-2"]> env) :: rest /\
       handler_events rest = []).
Proof.
  split; [|split].
  - intros name f Htab Hne. unfold command_table in Htab. cbn [In] in Htab.
    repeat (destruct Htab as [E|Htab];
            [injection E as <- <-;
             first [ congruence
                   | eexists; split; [unfold region_command_lines; cbn [In];
                                      repeat (first [left; reflexivity|right])
                                     |reflexivity] ]
            |]).
    destruct Htab.
  - intros base f env Hlog Hin.
    pose proof region_command_lines_accepted as Hall.
    rewrite List.forallb_forall in Hall. specialize (Hall _ Hin).
    unfold accepts_region in Hall. cbn [fst snd] in Hall.
    destruct (parse_known_args _get_parser (with_region base))
      as [args [|x extras]| | | |] eqn:Hparse; try discriminate.
    apply andb_prop in Hall as [Hregion Hfunc].
    apply bool_decide_eq_true in Hregion, Hfunc.
    destruct (region_set_before_handler (with_region base) env args []
                "us-west-2" Hlog Hparse (or_intror eq_refl) Hregion)
      as (f' & code & w & rest & Hf' & Hrun & Htr & Hrest); [discriminate|].
    assert (f' = f) by congruence. subst f'.
    exists args, code, w, rest. split; [exact Hrun|]. split; [exact Htr|exact Hrest].
  - intros argv args extra_args env Hlog Hparse Hcall Hregion.
    apply (region_set_before_handler argv env args extra_args "us-west-2");
      [exact Hlog|exact Hparse|exact Hcall|exact Hregion|discriminate].
Qed.

(** C7, as amended.  How the [try] statement of [main] ends the process, by
    the way its body ends: status 0 when the body completes; status 1 and
    one log record for missing credentials, for an interrupt and for any
    other instance of [Exception]; the code of a [SystemExit], which is how
    the check of unrecognised arguments exits, without a log record; status
    1 and a traceback for any other exception. *)
Theorem entrypoint_exit_codes (prog : string) (args : Namespace)
    (extra_args : list string) (w : World) :
  let body := try_body extern prog args extra_args w in
  let finish := conclude (dispatch extern prog args extra_args w) in
  environ (snd finish) = environ (snd body) /\
  match fst body with
  | Return _ => fst finish = 0%Z /\ trace (snd finish) = trace (snd body)
  | Raise NoCredentialsError =>
      fst finish = 1%Z /\
      trace (snd finish)
      = trace (snd body) ++ [ELog LOG_ERROR "AWS Credentials not found."]
  | Raise KeyboardInterrupt =>
      fst finish = 1%Z /\
      trace (snd finish) = trace (snd body) ++ [ELog LOG_INFO "Exiting..."]
  | Raise (SystemExit code) =>
      fst finish = code /\ trace (snd finish) = trace (snd body)
  | Raise (OtherBaseException type_name msg) =>
      fst finish = 1%Z /\
      trace (snd finish) = trace (snd body) ++ [ETraceback type_name msg]
  | Raise e =>
      fst finish = 1%Z /\
      trace (snd finish)
      = trace (snd body)
        ++ [ELog LOG_ERROR
              ("Unexpected error of type " +:+ type_name_of e +:+ ": "
               +:+ str_of_exn e)]
  end.
Proof.
  cbv zeta. unfold dispatch, try_except.
  destruct (try_body extern prog args extra_args w) as [[[]|e] w'];
    [split; [|split]; reflexivity|].
  destruct e; cbn; (split; [|split]); reflexivity.
Qed.

Lemma forallb_unrecognised_examined (toks : list string) :
  forallb (unrecognised [help_argument]) toks = true ->
  existsb (outside_fragment (all_option_strings [help_argument]))
    (examined [help_argument] true toks) = false.
Proof.
  induction toks as [|tok toks IH]; [reflexivity|].
  cbn [forallb examined]. intros H. apply andb_prop in H as [Htok Htoks].
  unfold unrecognised in Htok. unfold is_positional_token.
  destruct (classify [help_argument] tok); try discriminate.
  cbn [andb existsb]. apply negb_true_iff in Htok. rewrite Htok.
  apply IH, Htoks.
Qed.

Lemma consume_unrecognised (prog : string) (toks : list string) :
  forall ns extras,
    forallb (unrecognised [help_argument]) toks = true ->
    consume prog [help_argument] true toks [] [] ns extras
    = LDone ns [] (extras ++ toks).
Proof.
  induction toks as [|tok toks IH]; intros ns extras H.
  - cbn. rewrite app_nil_r. reflexivity.
  - cbn [forallb] in H. apply andb_prop in H as [Htok Htoks].
    cbn [consume]. unfold unrecognised in Htok.
    destruct (classify [help_argument] tok); try discriminate.
    rewrite (IH ns (extras ++ [tok]) Htoks), <- app_assoc. reflexivity.
Qed.

(** A parser whose sub-parsers are required reports a usage error when no
    token selects one. *)
Lemma node_no_subcommand (prog sdest : string)
    (parsers : list (string * parser)) (defaults : list (string * value))
    (toks : list string) :
  forallb (unrecognised [help_argument]) toks = true ->
  parse_known_args
    (Parser prog [help_argument] (Some (sdest, true, parsers)) defaults) toks
  = Error prog (RequiredMissing [sdest]).
Proof.
  intros H. rewrite parse_known_args_eq. cbv zeta.
  rewrite (forallb_unrecognised_examined toks H).
  change (List.filter is_positional [help_argument]) with (@nil argument).
  rewrite (consume_unrecognised prog toks _ [] H).
  apply finish_help_only.
Qed.

Lemma select_ext {A : Type} (name : string) (f g : parser -> A) (missing : A)
    (l : list (string * parser)) :
  (forall q, f q = g q) -> select name f missing l = select name g missing l.
Proof.
  intros Hfg. induction l as [|[n q] l IH]; [reflexivity|].
  cbn [select]. destruct (String.eqb n name); [apply Hfg|exact IH].
Qed.

(** A parser with only the help option hands the tokens after the name of a
    sub-parser to that sub-parser. *)
Lemma node_select (prog sdest : string) (parsers : list (string * parser))
    (defaults : list (string * value)) (name : string) (toks : list string) :
  classify [help_argument] name = Positional ->
  outside_fragment (all_option_strings [help_argument]) name = false ->
  parse_known_args
    (Parser prog [help_argument] (Some (sdest, true, parsers)) defaults)
    (name :: toks)
  = select name
      (fun q =>
         match parse_known_args q toks with
         | Parsed subns subextras =>
             Parsed (subns ∪ <[sdest := VStr name]>
                       (init_namespace [help_argument]
                          (Some (sdest, true, parsers)) defaults))
               subextras
         | o => o
         end)
      (Error prog (InvalidChoice sdest name)) parsers.
Proof.
  intros Hcl Hout. rewrite parse_known_args_eq. cbv zeta.
  cbn [examined consume]. unfold is_positional_token. rewrite Hcl.
  cbn [andb existsb orb]. rewrite Hout.
  change (List.filter is_positional [help_argument]) with (@nil argument).
  cbv beta iota. apply select_ext. intros q.
  destruct (parse_known_args q toks); reflexivity.
Qed.

Lemma parse_dcv (toks : list string) :
  parse_known_args _get_parser ("dcv" :: toks)
  = match parse_known_args pdcv toks with
    | Parsed subns subextras =>
        Parsed (subns ∪ <["command" := VStr "dcv"]>
                  (init_namespace [help_argument]
                     (Some ("command", true, @nil (string * parser))) []))
          subextras
    | o => o
    end.
Proof.
  unfold _get_parser at 1.
  rewrite node_select; [reflexivity|reflexivity|reflexivity].
Qed.

(** C8.  Without a token that selects a subcommand the process reports the
    usage on the error stream and exits with status 2, before any handler is
    reached; the same holds for [dcv] without its own subcommand. *)
Theorem subcommand_required (env : Environ) (opts : list string) :
  logger_ready cli_log_file os_makedirs ->
  forallb (unrecognised [help_argument]) opts = true ->
  pcluster extern cli_log_file os_makedirs opts env
  = Some (2%Z, {| environ := env;
                  trace := [ELog LOG_DEBUG "pcluster CLI starting";
                            EUsage Stderr "pcluster";
                            EParseError "pcluster"
                              (RequiredMissing ["command"])] |}) /\
  pcluster extern cli_log_file os_makedirs ("dcv" :: opts) env
  = Some (2%Z, {| environ := env;
                  trace := [ELog LOG_DEBUG "pcluster CLI starting";
                            EUsage Stderr "pcluster dcv";
                            EParseError "pcluster dcv"
                              (RequiredMissing ["subcommand"])] |}).
Proof.
  intros Hlog Hopts. split.
  - apply pcluster_usage_error; [exact Hlog|].
    unfold _get_parser. apply node_no_subcommand, Hopts.
  - apply pcluster_usage_error; [exact Hlog|].
    rewrite parse_dcv. unfold pdcv.
    rewrite (node_no_subcommand _ _ _ _ opts Hopts). reflexivity.
Qed.

End CliFacts.

(** ** The statements at concrete command lines *)

Lemma sample_logger_ready : logger_ready sample_log_file makedirs_exists.
Proof. reflexivity. Qed.

Lemma usage_error_parse :
  parse_known_args _get_parser usage_error_argv
  = Parsed (parsed_args usage_error_argv) ["extra"].
Proof. vm_compute. reflexivity. Qed.

Lemma usage_error_command :
  parsed_args usage_error_argv !! "command" = Some (VStr "create") /\
  parsed_args usage_error_argv !! "region" = Some (VStr "us-west-2").
Proof. split; vm_compute; reflexivity. Qed.



(** C6, counterexample: [version] declares no region option, so
    [--region us-west-2] is left unrecognised; the process exits with
    status 1, the variable is not set and the handler is not called. *)
Lemma region_on_version_rejected :
  match sample_pcluster ["version"; "--region"; "us-west-2"] with
  | Some (code, w) =>
      code = 1%Z /\ environ w !! "AWS_DEFAULT_REGION" = None /\
      handler_events (trace w) = []
  | None => False
  end.
Proof. vm_compute. repeat split. Qed.

Lemma region_before_handler_witness :
  exists args code w rest,
    pcluster extern_ok sample_log_file makedirs_exists
      (with_region ["create"; "mycluster"]) ∅
    = Some (code, w) /\
    trace w = startup args
              ++ EPutenv "AWS_DEFAULT_REGION" "us-west-2"
                 :: EHandler create args (passed_extra create [])
                      (<["AWS_DEFAULT_REGION" := "us-west-2"]> ∅) :: rest /\
    handler_events rest = [].
Proof.
  apply (proj1 (proj2 (region_before_handler extern_ok sample_log_file
                         makedirs_exists)) ["create"; "mycluster"] create ∅);
    [exact sample_logger_ready|left; reflexivity].
Defined.

(** C7, counterexample: unrecognised arguments end the process with status
    1 although no handler failed and nothing is logged on the console: an
    exit with status 1 outside the three categories of the [except]
    clauses. *)
Lemma usage_exit_outside_categories :
  match sample_pcluster ["create"; "mycluster"; "extra"] with
  | Some (code, w) =>
      code = 1%Z /\ console_records (trace w) = [] /\
      handler_events (trace w) = []
  | None => False
  end.
Proof. vm_compute. repeat split. Qed.

Lemma subcommand_required_witness :
  sample_pcluster []
  = Some (2%Z, {| environ := ∅;
                  trace := [ELog LOG_DEBUG "pcluster CLI starting";
                            EUsage Stderr "pcluster";
                            EParseError "pcluster"
                              (RequiredMissing ["command"])] |}) /\
  sample_pcluster ["dcv"]
  = Some (2%Z, {| environ := ∅;
                  trace := [ELog LOG_DEBUG "pcluster CLI starting";
                            EUsage Stderr "pcluster dcv";
                            EParseError "pcluster dcv"
                              (RequiredMissing ["subcommand"])] |}).
Proof.
  apply (subcommand_required extern_ok sample_log_file makedirs_exists ∅ []);
    [exact sample_logger_ready|reflexivity].
Defined.

(** * Further properties *)

(** ** The failure-level coercion *)

Lemma getitem_return (key : string) (m : FailureLevel.t) :
  FailureLevel.getitem key = Return m -> key = FailureLevel.name m.
Proof.
  unfold FailureLevel.getitem, FailureLevel.members.
  cbn [List.find FailureLevel.name].
  destruct (String.eqb_spec "INFO" key) as [<-|_];
    [intros H; injection H as <-; reflexivity|].
  destruct (String.eqb_spec "WARNING" key) as [<-|_];
    [intros H; injection H as <-; reflexivity|].
  destruct (String.eqb_spec "ERROR" key) as [<-|_];
    [intros H; injection H as <-; reflexivity|].
  discriminate.
Qed.

Lemma failure_level_type_cases (s : string) :
  _failure_level_type s
  = match FailureLevel.getitem (upper s) with
    | Return m => Return m
    | Raise _ => Raise (ArgumentTypeError ("invalid value '" +:+ s +:+ "'"))
    end.
Proof.
  unfold _failure_level_type, FailureLevel.getitem.
  destruct (List.find _ _); reflexivity.
Qed.

(** X1.  [_failure_level_type] answers the member [m] exactly when the
    upper-cased argument is the name of [m]; it gives back every member from
    its name; and when it fails, it fails with [ArgumentTypeError] quoting
    the argument as it was typed: the [KeyError] of the lookup never
    escapes. *)
Theorem failure_level_type_characterised (s : string) :
  (forall m, _failure_level_type s = Return m <->
             upper s = FailureLevel.name m) /\
  (forall m, _failure_level_type (FailureLevel.name m) = Return m) /\
  ((forall m, _failure_level_type s <> Return m) ->
   _failure_level_type s
   = Raise (ArgumentTypeError ("invalid value '" +:+ s +:+ "'"))) /\
  (forall key, _failure_level_type s <> Raise (KeyError key)).
Proof.
  rewrite failure_level_type_cases. split; [|split; [|split]].
  - intros m. split.
    + destruct (FailureLevel.getitem (upper s)) as [m'|e] eqn:E;
        [|discriminate].
      intros H. injection H as ->. apply getitem_return, E.
    + intros ->. rewrite getitem_name. reflexivity.
  - intros m. rewrite failure_level_type_cases, name_is_upper, getitem_name.
    reflexivity.
  - intros Hno. destruct (FailureLevel.getitem (upper s)) as [m|e];
      [exfalso; exact (Hno m eq_refl)|reflexivity].
  - intros key. destruct (FailureLevel.getitem (upper s)); discriminate.
Qed.

Lemma failure_level_type_characterised_witness :
  _failure_level_type "wArNiNg" = Return FailureLevel.WARNING /\
  _failure_level_type "warn" = Raise (ArgumentTypeError "invalid value 'warn'").
Proof.
  split.
  - apply (proj1 (failure_level_type_characterised "wArNiNg")). reflexivity.
  - apply (proj1 (proj2 (proj2 (failure_level_type_characterised "warn")))).
    intros m. destruct m; discriminate.
Defined.

(** ** The export-image-logs workflow *)

Section ExportRuns.

Variables (cwd : string) (now : datetime.t) (isfile writable : string -> bool).
Variables (path_conflict_error not_writable_error : string -> exn).
Variable export_logs : export_request -> result unit.

Local Abbreviation run :=
  (execute cwd now isfile writable path_conflict_error not_writable_error
     export_logs).
Local Abbreviation path_of := (output_file_path cwd now).

(** The three ways a run of [execute] goes. *)
Lemma execute_cases (args : export_args) (extra_args : list string)
    (w : World) :
  (isfile (path_of args) = false /\ writable (path_of args) = true) \/
  (exists e,
     (isfile (path_of args) = true /\ e = path_conflict_error (path_of args)) \/
     (isfile (path_of args) = false /\ writable (path_of args) = false /\
      e = not_writable_error (path_of args))).
Proof.
  destruct (isfile (path_of args)) eqn:Hfile.
  - right. eexists. left. split; reflexivity.
  - destruct (writable (path_of args)) eqn:Hwr.
    + left. split; reflexivity.
    + right. eexists. right. repeat split; reflexivity.
Qed.


(** X3.  An exception of the delegate that is not an instance of
    [Exception], such as [KeyboardInterrupt] or [SystemExit], leaves
    [execute] as it is: nothing is printed and no success is logged. *)
Theorem export_base_exception_propagates (args : export_args)
    (extra_args : list string) (w : World) (e : exn) :
  isfile (path_of args) = false -> writable (path_of args) = true ->
  export_logs (request_of args (path_of args)) = Raise e ->
  is_Exception e = false ->
  run args extra_args w
  = (Raise e,
     {| environ := environ w;
        trace := trace w ++ [EValidatePath (path_of args);
                             begin_message args;
                             EExportLogs (request_of args (path_of args))] |}).
Proof.
  intros Hfile Hwr Hraise Hexc.
  rewrite (execute_validated cwd now isfile writable path_conflict_error
             not_writable_error export_logs args extra_args w Hfile Hwr).
  cbv zeta. rewrite Hraise, Hexc. reflexivity.
Qed.

Lemma append_cancel (p a b : string) : p +:+ a = p +:+ b -> a = b.
Proof.
  induction p as [|c p IH]; cbn [String.append]; intros H; [exact H|].
  injection H as H. exact (IH H).
Qed.

Lemma success_not_started (args : export_args) (path p : string)
    (req : export_request) :
  ~ In (success_message path) [EValidatePath p; begin_message args;
                               EExportLogs req].
Proof.
  intros [H|[H|[H|[]]]]; discriminate H.
Qed.

(** X4.  The record of success is logged only when the output path was
    accepted and the delegate returned, and it names the very path that the
    delegate was given; conversely, when the path is accepted and the
    delegate returns, [execute] returns and that record is its last one. *)
Theorem export_success_reports_path (args : export_args)
    (extra_args : list string) (w : World) :
  (forall path,
     In (success_message path) (trace (snd (run args extra_args w))) ->
     ~ In (success_message path) (trace w) ->
     path = req_output (request_of args (path_of args)) /\
     isfile (path_of args) = false /\ writable (path_of args) = true /\
     export_logs (request_of args (path_of args)) = Return tt) /\
  (isfile (path_of args) = false -> writable (path_of args) = true ->
   export_logs (request_of args (path_of args)) = Return tt ->
   run args extra_args w
   = (Return tt,
      {| environ := environ w;
         trace := (trace w ++ [EValidatePath (path_of args);
                               begin_message args;
                               EExportLogs (request_of args (path_of args))])
                  ++ [success_message (path_of args)] |})).
Proof.
  split.
  - intros path Hin Hnot.
    destruct (execute_cases args extra_args w) as [[Hfile Hwr]|[e He]].
    + rewrite (execute_validated cwd now isfile writable path_conflict_error
                 not_writable_error export_logs args extra_args w Hfile Hwr)
        in Hin.
      cbv zeta in Hin.
      destruct (export_logs _) as [[]|e]; [|destruct (is_Exception e)];
        cbn [snd trace] in Hin;
        repeat (apply in_app_or in Hin as [Hin|Hin]);
        try contradiction;
        try (exfalso; exact (success_not_started args path _ _ Hin)).
      * destruct Hin as [Hin|[]]. injection Hin as Hin.
        apply append_cancel in Hin. subst path. repeat split; assumption.
      * destruct Hin as [Hin|[]]. discriminate Hin.
    + rewrite (execute_rejected cwd now isfile writable path_conflict_error
                 not_writable_error export_logs args extra_args w e He) in Hin.
      destruct (is_Exception e); cbn [snd trace] in Hin;
        apply in_app_or in Hin as [Hin|Hin]; try contradiction;
        repeat (destruct Hin as [Hin|Hin]; [discriminate Hin|]);
        destruct Hin.
  - intros Hfile Hwr Hret.
    rewrite (execute_validated cwd now isfile writable path_conflict_error
               not_writable_error export_logs args extra_args w Hfile Hwr).
    cbv zeta. rewrite Hret. reflexivity.
Qed.

End ExportRuns.

Lemma export_base_exception_propagates_witness :
  fst (sample_execute no_file (delegate_raising (SystemExit 3)) None)
  = Raise (SystemExit 3).
Proof.
  unfold sample_execute.
  rewrite (export_base_exception_propagates "/home/user" sample_now no_file
             (fun _ => true) sample_path_error sample_path_error
             (delegate_raising (SystemExit 3)) (sample_args None) []
             {| environ := ∅; trace := [] |} (SystemExit 3)
             eq_refl eq_refl eq_refl eq_refl).
  reflexivity.
Defined.

Lemma export_success_reports_path_witness :
  fst (sample_execute no_file delegate_ok None) = Return tt.
Proof.
  unfold sample_execute.
  rewrite (proj2 (export_success_reports_path "/home/user" sample_now no_file
                    (fun _ => true) sample_path_error sample_path_error
                    delegate_ok (sample_args None) []
                    {| environ := ∅; trace := [] |})
             eq_refl eq_refl eq_refl).
  reflexivity.
Defined.

(** ** The entrypoint *)

Section ProcessRuns.

Variable extern :
  extern_op -> option Namespace -> option (list string) -> Environ ->
  result string.
Variable cli_log_file : string.
Variable os_makedirs : string -> option (Z * string).

(** A handler call: the record of the call, the one operation it forwards
    to, and for [version] the line it prints. *)
Lemma call_run (f : handler) (args : Namespace)
    (extra_args : option (list string)) (w : World) :
  let r := extern (operation_of f) (forwarded_args f args)
             (forwarded_extra f extra_args) (environ w) in
  call extern f args extra_args w
  = (match r with Return _ => Return tt | Raise e => Raise e end,
     {| environ := environ w;
        trace := (trace w
                  ++ [EHandler f args extra_args (environ w);
                      EExtern (operation_of f) (forwarded_args f args)
                        (forwarded_extra f extra_args) (environ w)])
                 ++ printed_result f r |}).
Proof.
  cbv zeta.
  unfold call, handler_body, call_extern, bind, get_environ, emit, lift, ret.
  destruct f; cbn [environ trace operation_of forwarded_args forwarded_extra];
    match goal with
    | |- context [extern ?op ?a ?e ?env] => destruct (extern op a e env)
    end;
    cbn [environ trace printed_result]; rewrite <- ?app_assoc; cbn [app];
    rewrite ?app_nil_r; reflexivity.
Qed.

(** The body of the [try] statement when the handler is reached. *)
Lemma try_body_calls (prog : string) (args : Namespace)
    (extra_args : list string) (f : handler) (w : World) :
  args !! "func" = Some (VFunc f) -> region_wf args ->
  f = ssh \/ extra_args = [] ->
  try_body extern prog args extra_args w
  = call extern f args (passed_extra f extra_args)
      {| environ := region_env args (environ w);
         trace := trace w ++ region_events args |}.
Proof.
  intros Hfunc Hwf Hcall. unfold try_body, bind.
  rewrite (set_region_spec args w Hwf).
  unfold invoke, getattr, bind. rewrite Hfunc. unfold ret at 1.
  destruct Hcall as [->| ->]; [reflexivity|].
  destruct (String.eqb (__name__ f) "ssh") eqn:Hname.
  - apply handler_name_ssh in Hname. subst f. reflexivity.
  - assert (Hp : passed_extra f [] = None)
      by (destruct f; try reflexivity; discriminate).
    rewrite Hp. reflexivity.
Qed.


Lemma set_region_environ (args : Namespace) (w : World) :
  environ (snd (set_region args w)) = region_env args (environ w).
Proof.
  unfold set_region, region_env.
  destruct (args !! "region") as [[|b|r|l|f]|]; cbn; try reflexivity.
  - destruct b; reflexivity.
  - destruct r; reflexivity.
Qed.

Lemma invoke_environ (prog : string) (args : Namespace)
    (extra_args : list string) (w : World) :
  environ (snd (invoke extern prog args extra_args w)) = environ w.
Proof.
  unfold invoke, getattr, bind.
  destruct (args !! "func") as [[| | | |f]|]; try reflexivity.
  unfold ret at 1.
  destruct (String.eqb (__name__ f) "ssh").
  - rewrite call_run. reflexivity.
  - destruct extra_args; [|reflexivity].
    unfold ret at 1. rewrite call_run. reflexivity.
Qed.

(** The [try] statement changes the environment by the region step only. *)
Lemma dispatch_environ (prog : string) (args : Namespace)
    (extra_args : list string) (w : World) :
  environ (snd (conclude (dispatch extern prog args extra_args w)))
  = region_env args (environ w).
Proof.
  unfold dispatch, try_except, try_body, bind.
  pose proof (set_region_environ args w) as Hset.
  destruct (set_region args w) as [[[]|e] w1]; cbn [snd] in Hset.
  - pose proof (invoke_environ prog args extra_args w1) as Hinv.
    destruct (invoke extern prog args extra_args w1) as [[[]|e] w2];
      cbn [snd] in Hinv; [cbn; congruence|].
    destruct (main_except e) as [h|] eqn:Hexc.
    + destruct (main_except_spec e h w2 Hexc) as (ev & -> & _).
      cbn. congruence.
    + destruct e; cbn; congruence.
  - destruct (main_except e) as [h|] eqn:Hexc.
    + destruct (main_except_spec e h w1 Hexc) as (ev & -> & _).
      cbn. congruence.
    + destruct e; cbn; congruence.
Qed.


(** X7.  When the log directory cannot be created, for a reason other than
    its existing already, the process ends with a traceback and status 1
    before the command line is looked at and before anything is logged; when
    the reason is that the directory exists ([EEXIST]), the process runs as
    if the directory had been created. *)
Theorem log_directory_failure (argv : list string) (env : Environ)
    (errno : Z) (strerror : string) :
  os_makedirs (os_path.dirname cli_log_file) = Some (errno, strerror) ->
  (errno <> EEXIST ->
   parse_known_args _get_parser argv <> Unmodelled ->
   pcluster extern cli_log_file os_makedirs argv env
   = Some (1%Z, {| environ := env;
                   trace := [ETraceback "OSError" strerror] |})) /\
  (errno = EEXIST ->
   pcluster extern cli_log_file os_makedirs argv env
   = pcluster extern cli_log_file (fun _ => None) argv env).
Proof.
  intros Hmk. split.
  - intros Hne Hmodel. unfold pcluster, main, parse_command_line.
    destruct (parse_known_args _get_parser argv); try contradiction;
      unfold run_process, bind, config_logger; rewrite Hmk;
      (destruct (Z.eqb_spec errno EEXIST); [contradiction|]); reflexivity.
  - intros ->. unfold pcluster, main.
    destruct (parse_command_line argv) as [parse|]; [|reflexivity].
    unfold run_process, bind, config_logger. rewrite Hmk. reflexivity.
Qed.

End ProcessRuns.

Section SubcommandFacts.

Variable extern :
  extern_op -> option Namespace -> option (list string) -> Environ ->
  result string.
Variable cli_log_file : string.
Variable os_makedirs : string -> option (Z * string).

Lemma select_missing {A : Type} (name : string) (found : parser -> A)
    (missing : A) (l : list (string * parser)) :
  ~ In name (map fst l) -> select name found missing l = missing.
Proof.
  induction l as [|[n q] l IH]; intros Hnot; [reflexivity|].
  cbn [select]. destruct (String.eqb_spec n name) as [->|Hne].
  - exfalso. apply Hnot. left. reflexivity.
  - apply IH. intros Hin. apply Hnot. right. exact Hin.
Qed.

Lemma plain_token_spec (arguments : list argument) (tok : string) :
  plain_token arguments tok = true ->
  classify arguments tok = Positional /\
  outside_fragment (all_option_strings arguments) tok = false.
Proof.
  unfold plain_token. destruct (classify arguments tok); try discriminate.
  intros H. apply negb_true_iff in H. split; [reflexivity|exact H].
Qed.

(** X8.  A first token that is not the name of a subcommand is a usage
    error: status 2, nothing dispatched; the same holds after [dcv] for a
    token other than [connect]. *)
Theorem unknown_subcommand_rejected (name : string) (toks : list string)
    (env : Environ) :
  logger_ready cli_log_file os_makedirs ->
  plain_token [help_argument] name = true ->
  (~ In name (map fst command_table) ->
   pcluster extern cli_log_file os_makedirs (name :: toks) env
   = Some (2%Z, {| environ := env;
                   trace := [ELog LOG_DEBUG "pcluster CLI starting";
                             EUsage Stderr "pcluster";
                             EParseError "pcluster"
                               (InvalidChoice "command" name)] |})) /\
  (name <> "connect" ->
   pcluster extern cli_log_file os_makedirs ("dcv" :: name :: toks) env
   = Some (2%Z, {| environ := env;
                   trace := [ELog LOG_DEBUG "pcluster CLI starting";
                             EUsage Stderr "pcluster dcv";
                             EParseError "pcluster dcv"
                               (InvalidChoice "subcommand" name)] |})).
Proof.
  intros Hlog Hplain. apply plain_token_spec in Hplain as [Hcl Hout]. split.
  - intros Hnot. apply pcluster_usage_error; [exact Hlog|].
    unfold _get_parser. rewrite (node_select _ _ _ _ name toks Hcl Hout).
    apply select_missing. exact Hnot.
  - intros Hne. apply pcluster_usage_error; [exact Hlog|].
    rewrite parse_dcv. unfold pdcv.
    rewrite (node_select _ _ _ _ name toks Hcl Hout).
    rewrite select_missing; [reflexivity|].
    cbn. intros [E|[]]. congruence.
Qed.

Lemma examined_flat (arguments : list argument) (toks : list string) :
  examined arguments false toks = toks.
Proof. induction toks as [|t toks IH]; cbn; [reflexivity|now rewrite IH]. Qed.

Lemma passed_on_inside (arguments : list argument) (toks : list string) :
  forallb (passed_on arguments) toks = true ->
  existsb (outside_fragment (all_option_strings arguments)) toks = false.
Proof.
  induction toks as [|t toks IH]; [reflexivity|].
  cbn [forallb existsb]. intros H. apply andb_prop in H as [Ht Htoks].
  rewrite (IH Htoks), orb_false_r. unfold passed_on in Ht.
  destruct (classify arguments t); try discriminate;
    apply negb_true_iff in Ht; exact Ht.
Qed.

(** Once its positional arguments are filled, a parser without sub-parsers
    hands on, in their order, the tokens that are not its options. *)
Lemma consume_passed_on (prog : string) (arguments : list argument)
    (toks : list string) :
  forall seen ns extras,
    forallb (passed_on arguments) toks = true ->
    consume prog arguments false toks [] seen ns extras
    = LDone ns seen (extras ++ toks).
Proof.
  induction toks as [|t toks IH]; intros seen ns extras H.
  - cbn. rewrite app_nil_r. reflexivity.
  - cbn [forallb] in H. apply andb_prop in H as [Ht Htoks].
    cbn [consume]. unfold passed_on in Ht.
    destruct (classify arguments t); try discriminate;
      rewrite (IH seen ns (extras ++ [t]) Htoks), <- app_assoc; reflexivity.
Qed.

Lemma pssh_parse (cluster_name : string) (toks : list string) :
  plain_token pssh_arguments cluster_name = true ->
  forallb (passed_on pssh_arguments) toks = true ->
  parse_known_args pssh (cluster_name :: toks)
  = Parsed (<["cluster_name" := VStr cluster_name]>
              (init_namespace pssh_arguments None [("func", VFunc ssh)]))
      toks.
Proof.
  intros Hname Htoks. apply plain_token_spec in Hname as [Hcl Hout].
  unfold pssh. rewrite parse_known_args_eq. cbv zeta.
  fold pssh_arguments in *. unfold pssh_arguments, pssh in *.
  rewrite examined_flat. cbn [existsb]. rewrite Hout, (passed_on_inside _ _ Htoks).
  cbn [orb consume List.filter is_positional option_strings positional
       store_option store_true help_argument _addarg_region].
  rewrite Hcl. cbn [get_value action choices positional dest].
  rewrite (consume_passed_on _ _ toks _ _ [] Htoks).
  reflexivity.
Qed.

(** X9.  [pcluster ssh <cluster_name>] followed by tokens that are not
    options of the [ssh] sub-parser parses to the namespace of the plain
    command and hands those tokens, unchanged and in their order, to the
    [ssh] handler, which is the only handler called. *)
Theorem ssh_passthrough (cluster_name : string) (toks : list string)
    (env : Environ) :
  logger_ready cli_log_file os_makedirs ->
  plain_token pssh_arguments cluster_name = true ->
  forallb (passed_on pssh_arguments) toks = true ->
  parse_known_args _get_parser ("ssh" :: cluster_name :: toks)
  = Parsed (ssh_namespace cluster_name) toks /\
  exists code w,
    pcluster extern cli_log_file os_makedirs ("ssh" :: cluster_name :: toks) env
    = Some (code, w) /\
    environ w = env /\
    handler_events (trace w)
    = [EHandler ssh (ssh_namespace cluster_name) (Some toks) env].
Proof.
  intros Hlog Hname Htoks.
  assert (Hparse : parse_known_args _get_parser ("ssh" :: cluster_name :: toks)
                   = Parsed (ssh_namespace cluster_name) toks).
  { unfold _get_parser.
    rewrite node_select; [|reflexivity|reflexivity].
    change (select "ssh" ?f ?m _) with (f pssh).
    cbv beta. rewrite (pssh_parse cluster_name toks Hname Htoks).
    reflexivity. }
  split; [exact Hparse|].
  rewrite (pcluster_parsed extern cli_log_file os_makedirs _ env _ _ Hlog Hparse).
  destruct (dispatch_calls extern "pcluster" (ssh_namespace cluster_name) toks
              ssh {| environ := env; trace := startup (ssh_namespace cluster_name) |}
              eq_refl I (or_introl eq_refl)) as (r & rest & Hrun & Hrest).
  rewrite Hrun. destruct (conclude _) as [code w] eqn:Hend.
  exists code, w. split; [reflexivity|].
  change w with (snd (code, w)). rewrite <- Hend. split.
  - destruct r as [[]|e]; [reflexivity|]. destruct e; reflexivity.
  - rewrite conclude_handler_events. cbn [trace].
    rewrite handler_events_app, handler_events_cons, Hrest. reflexivity.
Qed.

End SubcommandFacts.

(** ** The namespace of a successful parse *)

Lemma setdefault_lookup (k key : string) (v : value) (ns : Namespace) :
  setdefault k v ns !! key
  = match ns !! key with
    | Some x => Some x
    | None => if String.eqb k key then Some v else None
    end.
Proof.
  unfold setdefault. destruct (String.eqb_spec k key) as [->|Hne].
  - destruct (ns !! key) eqn:E; [exact E|apply lookup_insert_eq].
  - destruct (ns !! k) eqn:E.
    + destruct (ns !! key); reflexivity.
    + rewrite lookup_insert_ne by exact Hne. destruct (ns !! key); reflexivity.
Qed.

Lemma fold_arguments_lookup (arguments : list argument) :
  forall (ns : Namespace) (key : string),
    fold_left
      (fun ns a =>
         match action a with
         | HelpAction => ns
         | _ => setdefault (dest a) (default a) ns
         end) arguments ns !! key
    = match ns !! key with
      | Some x => Some x
      | None => option_map default (find_arg arguments key)
      end.
Proof.
  induction arguments as [|a l IH]; intros ns key; cbn [fold_left].
  - destruct (ns !! key); reflexivity.
  - rewrite IH. unfold find_arg. cbn [List.find]. unfold is_help.
    destruct (action a) eqn:Hact; cbn [negb];
      rewrite ?andb_true_r, ?andb_false_r;
      try (rewrite setdefault_lookup; destruct (ns !! key);
           [reflexivity|destruct (String.eqb (dest a) key); reflexivity]).
    reflexivity.
Qed.

Lemma fold_defaults_lookup (defaults : list (string * value)) :
  forall (ns : Namespace) (key : string),
    fold_left (fun ns kv => setdefault (fst kv) (snd kv) ns) defaults ns !! key
    = match ns !! key with
      | Some x => Some x
      | None => defaults_lookup defaults key
      end.
Proof.
  induction defaults as [|kv l IH]; intros ns key; cbn [fold_left].
  - destruct (ns !! key); reflexivity.
  - rewrite IH, setdefault_lookup. unfold defaults_lookup. cbn [List.find].
    destruct (ns !! key); [reflexivity|].
    destruct (String.eqb (fst kv) key); reflexivity.
Qed.

(** The namespace that a parser without sub-parsers starts from. *)
Lemma init_namespace_lookup (arguments : list argument)
    (defaults : list (string * value)) (key : string) :
  init_namespace arguments None defaults !! key
  = match find_arg arguments key with
    | Some a => Some (default a)
    | None => defaults_lookup defaults key
    end.
Proof.
  unfold init_namespace. rewrite fold_defaults_lookup, fold_arguments_lookup.
  rewrite lookup_empty. destruct (find_arg arguments key); reflexivity.
Qed.

Lemma find_arg_some (arguments : list argument) (key : string) (a : argument) :
  find_arg arguments key = Some a ->
  In a arguments /\ dest a = key /\ is_help a = false.
Proof.
  intros H. apply List.find_some in H as [Hin Hb].
  apply andb_prop in Hb as [Hd Hh].
  apply String.eqb_eq in Hd. apply negb_true_iff in Hh. tauto.
Qed.

Section Characterisation.

Variables (prog : string) (arguments : list argument) (has_sub : bool).
Variable base : Namespace.
Hypothesis wf : arguments_wf arguments.

Lemma loop_state_insert (a : argument) (x : value) (seen : list string)
    (ns : Namespace) :
  In a arguments -> is_help a = false -> inserted a x ->
  loop_state arguments base seen ns ->
  loop_state arguments base (dest a :: seen) (<[dest a := x]> ns).
Proof.
  intros Hin Hhelp Hx Hst key. specialize (Hst key).
  destruct (decide (key = dest a)) as [->|Hne].
  - rewrite (proj1 (wf a Hin) Hhelp).
    rewrite bool_decide_eq_true_2 by (left).
    exists x. split; [apply lookup_insert_eq|exact Hx].
  - rewrite lookup_insert_ne by congruence.
    destruct (find_arg arguments key); [|exact Hst].
    destruct (bool_decide (key ∈ seen)) eqn:Hs.
    + apply bool_decide_eq_true in Hs.
      rewrite bool_decide_eq_true_2 by (right; exact Hs). exact Hst.
    + apply bool_decide_eq_false in Hs.
      rewrite bool_decide_eq_false_2; [exact Hst|].
      intros Hc. apply elem_of_cons in Hc as [Hc|Hc]; [congruence|contradiction].
Qed.

Lemma classify_optional (tok : string) (a : argument) :
  classify arguments tok = Optional a ->
  In a arguments /\ In tok (option_strings a).
Proof.
  unfold classify. destruct (negb _); [discriminate|].
  destruct (find_option arguments tok) eqn:Hf.
  - intros H. injection H as ->. unfold find_option in Hf.
    apply List.find_some in Hf as [Hin Hex]. split; [exact Hin|].
    apply List.existsb_exists in Hex as (o & Ho & Heq).
    apply String.eqb_eq in Heq. subst o. exact Ho.
  - destruct (String.eqb tok "-"); [discriminate|].
    destruct (contains_char _ tok); discriminate.
Qed.

Lemma consume_state_bounded (n : nat) :
  forall toks pos seen ns extras,
    length toks <= n ->
    (forall a, In a pos -> In a arguments /\ is_positional a = true) ->
    loop_state arguments base seen ns ->
    loop_result_state arguments base
      (consume prog arguments has_sub toks pos seen ns extras).
Proof.
  induction n as [|n IH]; intros toks pos seen ns extras Hlen Hpos Hst.
  - destruct toks; [exact Hst|simpl in Hlen; lia].
  - destruct toks as [|tok rest]; [exact Hst|]. simpl in Hlen.
    cbn [consume].
    destruct (classify arguments tok) as [|a|] eqn:Hcl.
    + destruct pos as [|a pos'].
      * destruct has_sub; [exact Hst|]. apply IH; [lia|exact Hpos|exact Hst].
      * destruct (Hpos a (or_introl eq_refl)) as [Hin Hp].
        destruct (get_value a tok) as [x| |] eqn:Hget; try exact I.
        apply IH; [lia|intros b Hb; apply Hpos; right; exact Hb|].
        apply loop_state_insert;
          [exact Hin|exact (proj2 (wf a Hin) Hp)| |exact Hst].
        right. split; [left; exact Hp|exists tok; exact Hget].
    + destruct (classify_optional tok a Hcl) as [Hin _].
      destruct (action a) eqn:Hact; [| |exact I].
      * destruct rest as [|v rest']; [exact I|].
        destruct (is_positional_token arguments v); [|exact I].
        destruct (get_value a v) as [x| |] eqn:Hget; try exact I.
        apply IH; [simpl in Hlen; lia|exact Hpos|].
        apply loop_state_insert; [exact Hin| | |exact Hst].
        -- unfold is_help. rewrite Hact. reflexivity.
        -- right. split; [right; eexists; exact Hact|exists v; exact Hget].
      * apply IH; [lia|exact Hpos|].
        apply loop_state_insert; [exact Hin| | |exact Hst].
        -- unfold is_help. rewrite Hact. reflexivity.
        -- left. split; [exact Hact|reflexivity].
    + apply IH; [lia|exact Hpos|exact Hst].
Qed.

Lemma consume_state (toks : list string) (pos : list argument)
    (seen : list string) (ns : Namespace) (extras : list string) :
  (forall a, In a pos -> In a arguments /\ is_positional a = true) ->
  loop_state arguments base seen ns ->
  loop_result_state arguments base
    (consume prog arguments has_sub toks pos seen ns extras).
Proof. apply (consume_state_bounded (length toks)). reflexivity. Qed.

Hypothesis base_defaults :
  forall key a, find_arg arguments key = Some a ->
    base !! key = Some (default a).

Lemma same_dest (a b : argument) :
  In a arguments -> In b arguments -> is_help a = false ->
  is_help b = false -> dest b = dest a -> b = a.
Proof.
  intros Ha Hb Hha Hhb Hd.
  pose proof (proj1 (wf a Ha) Hha) as Ea.
  pose proof (proj1 (wf b Hb) Hhb) as Eb.
  rewrite Hd in Eb. congruence.
Qed.

Lemma finalize_state (seen : list string) (actions : list argument) :
  forall done ns missing ns' missing',
    (forall a, In a actions -> In a arguments) ->
    (forall a, In a done -> In a arguments) ->
    final_state arguments base seen ns ->
    settled seen done ns ->
    finalize actions seen ns missing = inr (ns', missing') ->
    final_state arguments base seen ns' /\
    settled seen (done ++ actions) ns'.
Proof.
  induction actions as [|a actions IH];
    intros done ns missing ns' missing' Hact Hdone Hst Hset Hfin.
  - injection Hfin as <- _. rewrite app_nil_r. split; assumption.
  - assert (Hact' : forall b, In b actions -> In b arguments)
      by (intros b Hb; apply Hact; right; exact Hb).
    assert (Hin : In a arguments) by (apply Hact; left; reflexivity).
    assert (Hdone' : forall b, In b (done ++ [a]) -> In b arguments).
    { intros b Hb. apply in_app_or in Hb as [Hb|[<-|[]]];
        [apply Hdone, Hb|exact Hin]. }
    replace (done ++ a :: actions) with ((done ++ [a]) ++ actions)
      by (rewrite <- app_assoc; reflexivity).
    cbn [finalize] in Hfin.
    assert (Hskip : forall m,
              (is_help a = false -> ~ dest a ∈ seen -> required a = false ->
               exists v, ns !! dest a = Some v /\ settled_default a v) ->
              finalize actions seen ns m = inr (ns', missing') ->
              final_state arguments base seen ns' /\
              settled seen ((done ++ [a]) ++ actions) ns').
    { intros m Ha Hrest.
      apply (IH (done ++ [a]) ns m ns' missing' Hact' Hdone' Hst); [|exact Hrest].
      intros b Hb Hhb Hsb Hrb. apply in_app_or in Hb as [Hb|[<-|[]]].
      - apply Hset; assumption.
      - apply Ha; assumption. }
    destruct (bool_decide (dest a ∈ seen)) eqn:Hseen.
    { apply bool_decide_eq_true in Hseen. apply (Hskip missing); [|exact Hfin].
      intros _ Hn. contradiction. }
    apply bool_decide_eq_false in Hseen.
    destruct (required a) eqn:Hreq.
    { eapply Hskip; [|exact Hfin]. intros _ _ Hc. discriminate. }
    assert (Hcur : is_help a = false ->
              ns !! dest a = Some (default a) \/
              exists v, ns !! dest a = Some v /\ settled_default a v).
    { intros Hh. specialize (Hst (dest a)).
      rewrite (proj1 (wf a Hin) Hh) in Hst.
      rewrite bool_decide_eq_false_2 in Hst by exact Hseen.
      destruct Hst as [Hb|Hs]; [left|right; exact Hs].
      rewrite Hb. apply base_defaults, (proj1 (wf a Hin) Hh). }
    destruct (default a) as [| |s| |] eqn:Hdef;
      try (eapply Hskip; [|exact Hfin]; intros Hh _ _;
           destruct (Hcur Hh) as [Hc|Hc]; [|exact Hc];
           eexists; split; [exact Hc|];
           unfold settled_default, default_of; rewrite Hdef; reflexivity).
    destruct (action a) as [ty| |] eqn:Haction;
      try (eapply Hskip; [|exact Hfin]; intros Hh _ _;
           destruct (Hcur Hh) as [Hc|Hc]; [|exact Hc];
           eexists; split; [exact Hc|];
           unfold settled_default, default_of; rewrite Hdef, Haction; reflexivity).
    assert (Hh : is_help a = false) by (unfold is_help; rewrite Haction; reflexivity).
    destruct (ns !! dest a) as [[| |s'| |]|] eqn:Hlook;
      try (eapply Hskip; [|exact Hfin]; intros _ _ _;
           destruct (Hcur Hh) as [Hc|Hc]; [discriminate Hc|exact Hc]).
    destruct (String.eqb_spec s s') as [<-|Hne].
    + destruct (get_value a s) as [x| |] eqn:Hget; try discriminate.
      apply (IH (done ++ [a]) (<[dest a:=x]> ns) missing ns' missing' Hact' Hdone');
        [| |exact Hfin].
      * intros key. specialize (Hst key).
        destruct (decide (key = dest a)) as [->|Hk].
        -- rewrite (proj1 (wf a Hin) Hh).
           rewrite bool_decide_eq_false_2 by exact Hseen.
           right. exists x. split; [apply lookup_insert_eq|].
           unfold settled_default, default_of. rewrite Hdef, Haction, Hget. reflexivity.
        -- rewrite lookup_insert_ne by congruence. exact Hst.
      * intros b Hb Hhb Hsb Hrb.
        destruct (decide (dest b = dest a)) as [Hd|Hd].
        -- assert (b = a).
           { apply same_dest; try assumption. apply Hdone', Hb. }
           subst b. exists x. split; [apply lookup_insert_eq|].
           unfold settled_default, default_of. rewrite Hdef, Haction, Hget. reflexivity.
        -- rewrite lookup_insert_ne by congruence.
           apply in_app_or in Hb as [Hb|[<-|[]]]; [|congruence].
           apply Hset; assumption.
    + eapply Hskip; [|exact Hfin]. intros _ _ _.
      destruct (Hcur Hh) as [Hc|Hc]; [|exact Hc].
      congruence.
Qed.

Lemma finalize_missing (seen : list string) (actions : list argument) :
  forall ns missing ns' missing',
    finalize actions seen ns missing = inr (ns', missing') ->
    missing' = [] ->
    missing = [] /\
    forall a, In a actions -> ~ dest a ∈ seen -> required a = false.
Proof.
  induction actions as [|a actions IH]; intros ns missing ns' missing' Hfin Hnil.
  - injection Hfin as _ <-. split; [exact Hnil|intros a []].
  - cbn [finalize] in Hfin.
    assert (Hgo : forall ns0,
              finalize actions seen ns0 missing = inr (ns', missing') ->
              (~ dest a ∈ seen -> required a = false) ->
              missing = [] /\
              forall b, In b (a :: actions) -> ~ dest b ∈ seen ->
                        required b = false).
    { intros ns0 Hrest Ha. destruct (IH _ _ _ _ Hrest Hnil) as [Hm Hall].
      split; [exact Hm|]. intros b [<-|Hb]; [exact Ha|apply Hall, Hb]. }
    destruct (bool_decide (dest a ∈ seen)) eqn:Hseen.
    { apply bool_decide_eq_true in Hseen. apply (Hgo ns Hfin). contradiction. }
    destruct (required a) eqn:Hreq.
    { destruct (IH _ _ _ _ Hfin Hnil) as [Hm _].
      destruct missing; discriminate. }
    destruct (default a) as [| |s| |]; try (apply (Hgo ns Hfin); reflexivity).
    destruct (action a); try (apply (Hgo ns Hfin); reflexivity).
    destruct (ns !! dest a) as [[| |s'| |]|];
      try (apply (Hgo ns Hfin); reflexivity).
    destruct (String.eqb s s'); [|apply (Hgo ns Hfin); reflexivity].
    destruct (get_value a s); try discriminate.
    apply (Hgo _ Hfin). reflexivity.
Qed.

End Characterisation.

(** ** The schema check *)

Lemma existsb_eqb_In (x : string) (l : list string) :
  existsb (String.eqb x) l = true <-> In x l.
Proof.
  rewrite List.existsb_exists. split.
  - intros (y & Hy & E). apply String.eqb_eq in E. subst y. exact Hy.
  - intros H. exists x. split; [exact H|apply String.eqb_refl].
Qed.

Lemma distinct_app (l1 l2 : list string) :
  distinct (l1 ++ l2) = true ->
  distinct l2 = true /\ forall x, In x l1 -> In x l2 -> False.
Proof.
  induction l1 as [|y l1 IH]; cbn [distinct app]; intros H.
  - split; [exact H|intros x []].
  - apply andb_prop in H as [Hy H]. destruct (IH H) as [H2 Hno].
    split; [exact H2|]. intros x [<-|Hx] Hx2; [|exact (Hno x Hx Hx2)].
    apply negb_true_iff in Hy.
    assert (Hin : existsb (String.eqb y) (l1 ++ l2) = true)
      by (apply existsb_eqb_In, in_or_app; right; exact Hx2).
    congruence.
Qed.

Lemma dests_distinct_wf (arguments : list argument) :
  distinct (map dest (List.filter (fun a => negb (is_help a)) arguments))
  = true ->
  forall a, In a arguments -> is_help a = false ->
    find_arg arguments (dest a) = Some a.
Proof.
  induction arguments as [|b l IH]; intros Hd a Ha Hh; [destruct Ha|].
  unfold find_arg. cbn [List.find]. cbn [List.filter] in Hd.
  destruct Ha as [->|Ha].
  - rewrite String.eqb_refl, Hh. reflexivity.
  - destruct (is_help b) eqn:Hb; cbn [negb] in Hd |- *.
    + rewrite andb_false_r. apply IH; assumption.
    + cbn [map distinct] in Hd. apply andb_prop in Hd as [Hnot Hd].
      destruct (String.eqb_spec (dest b) (dest a)) as [E|_];
        [|apply IH; assumption].
      exfalso. apply negb_true_iff in Hnot.
      assert (Hin : existsb (String.eqb (dest b))
                      (map dest (List.filter (fun a => negb (is_help a)) l))
                    = true).
      { apply existsb_eqb_In. rewrite E. apply in_map.
        apply List.filter_In. split; [exact Ha|]. rewrite Hh. reflexivity. }
      congruence.
Qed.

Lemma options_distinct_find (arguments : list argument) :
  distinct (all_option_strings arguments) = true ->
  forall a tok, In a arguments -> In tok (option_strings a) ->
    find_option arguments tok = Some a.
Proof.
  unfold all_option_strings.
  induction arguments as [|b l IH]; intros Hd a tok Ha Htok; [destruct Ha|].
  unfold find_option. cbn [List.find]. cbn [flat_map] in Hd.
  destruct (distinct_app _ _ Hd) as [Hl Hno].
  destruct Ha as [->|Ha].
  - rewrite (proj2 (existsb_eqb_In tok (option_strings a)) Htok). reflexivity.
  - destruct (existsb (String.eqb tok) (option_strings b)) eqn:Hb.
    + exfalso. apply existsb_eqb_In in Hb. apply (Hno tok Hb).
      apply in_flat_map. exists a. split; assumption.
    + apply IH; assumption.
Qed.

Lemma schema_ok_sound (arguments : list argument) :
  schema_ok arguments = true ->
  arguments_wf arguments /\ options_wf arguments /\
  forall a, In a arguments -> declared_ok a = true.
Proof.
  unfold schema_ok. intros H.
  apply andb_prop in H as [H Hdecl]. apply andb_prop in H as [H Hdash].
  apply andb_prop in H as [Hdest Hopt].
  rewrite List.forallb_forall in Hdecl, Hdash.
  split; [|split; [|exact Hdecl]].
  - intros a Ha. split; [apply dests_distinct_wf; assumption|].
    intros Hp. specialize (Hdecl a Ha). unfold declared_ok, is_help in *.
    rewrite Hp in Hdecl.
    destruct (action a) as [[?|]| |]; try reflexivity;
      destruct (default a); discriminate.
  - intros a tok Ha Htok. unfold classify.
    rewrite (Hdash tok) by (apply in_flat_map; exists a; split; assumption).
    cbn [negb]. rewrite (options_distinct_find arguments Hopt a tok Ha Htok).
    reflexivity.
Qed.

(** ** The destinations taken by the loop *)

Lemma loop_seen_mono (P Q : list string -> Prop) (r : loop_result) :
  (forall seen, P seen -> Q seen) -> loop_seen P r -> loop_seen Q r.
Proof. intros H. destruct r; cbn; auto. Qed.

Lemma loop_done_mono (P Q : list string -> Prop) (r : loop_result) :
  (forall seen, P seen -> Q seen) -> loop_done P r -> loop_done Q r.
Proof. intros H. destruct r; cbn; auto. Qed.

Lemma consume_seen_bounded (prog : string) (arguments : list argument)
    (has_sub : bool) (n : nat) :
  forall toks pos seen ns extras,
    length toks <= n ->
    loop_seen
      (fun seen' => forall key, key ∈ seen' ->
                      seen_from arguments toks pos seen key)
      (consume prog arguments has_sub toks pos seen ns extras).
Proof.
  induction n as [|n IH]; intros toks pos seen ns extras Hlen.
  - destruct toks; [|simpl in Hlen; lia]. intros key Hk. left. exact Hk.
  - destruct toks as [|tok rest]; [intros key Hk; left; exact Hk|].
    simpl in Hlen. cbn [consume].
    destruct (classify arguments tok) as [|a|] eqn:Hcl.
    + destruct pos as [|a pos'].
      * destruct has_sub; [intros key Hk; left; exact Hk|].
        eapply loop_seen_mono; [|apply IH; lia].
        intros seen' H key Hk. cbv beta in H.
        destruct (H key Hk) as [Hs|[(b & [] & _)|(t & b & Ht & Hb)]];
          [left; exact Hs|].
        right. right. exists t, b. split; [right; exact Ht|exact Hb].
      * destruct (get_value a tok) as [x| |]; try exact I.
        eapply loop_seen_mono; [|apply IH; lia].
        intros seen' H key Hk. cbv beta in H.
        destruct (H key Hk) as [Hs|[(b & Hb & Hd)|(t & b & Ht & Hb)]].
        -- apply elem_of_cons in Hs as [->|Hs]; [|left; exact Hs].
           right. left. exists a. split; [left; reflexivity|reflexivity].
        -- right. left. exists b. split; [right; exact Hb|exact Hd].
        -- right. right. exists t, b. split; [right; exact Ht|exact Hb].
    + destruct (action a) eqn:Hact; [| |exact I].
      * destruct rest as [|v rest']; [exact I|].
        destruct (is_positional_token arguments v); [|exact I].
        destruct (get_value a v) as [x| |]; try exact I.
        eapply loop_seen_mono; [|apply IH; simpl in Hlen; lia].
        intros seen' H key Hk. cbv beta in H.
        destruct (H key Hk) as [Hs|[Hp|(t & b & Ht & Hb)]].
        -- apply elem_of_cons in Hs as [->|Hs]; [|left; exact Hs].
           right. right. exists tok, a.
           split; [left; reflexivity|]. split; [exact Hcl|].
           split; [unfold is_help; rewrite Hact|]; reflexivity.
        -- right. left. exact Hp.
        -- right. right. exists t, b.
           split; [right; right; exact Ht|exact Hb].
      * eapply loop_seen_mono; [|apply IH; lia].
        intros seen' H key Hk. cbv beta in H.
        destruct (H key Hk) as [Hs|[Hp|(t & b & Ht & Hb)]].
        -- apply elem_of_cons in Hs as [->|Hs]; [|left; exact Hs].
           right. right. exists tok, a.
           split; [left; reflexivity|]. split; [exact Hcl|].
           split; [unfold is_help; rewrite Hact|]; reflexivity.
        -- right. left. exact Hp.
        -- right. right. exists t, b. split; [right; exact Ht|exact Hb].
    + eapply loop_seen_mono; [|apply IH; lia].
      intros seen' H key Hk. cbv beta in H.
      destruct (H key Hk) as [Hs|[Hp|(t & b & Ht & Hb)]];
        [left; exact Hs|right; left; exact Hp|].
      right. right. exists t, b. split; [right; exact Ht|exact Hb].
Qed.

(** In a parser without sub-parsers the loop reaches every option among the
    tokens, unless it stops. *)
Lemma consume_given_bounded (prog : string) (arguments : list argument)
    (n : nat) :
  forall toks pos seen ns extras,
    length toks <= n ->
    loop_done (seen_all arguments toks seen)
      (consume prog arguments false toks pos seen ns extras).
Proof.
  induction n as [|n IH]; intros toks pos seen ns extras Hlen.
  - destruct toks; [|simpl in Hlen; lia].
    split; [auto|intros tok a []].
  - destruct toks as [|tok rest]; [split; [auto|intros t a []]|].
    simpl in Hlen. cbn [consume].
    destruct (classify arguments tok) as [|a|] eqn:Hcl.
    + destruct pos as [|a pos'].
      * eapply loop_done_mono; [|apply IH; lia].
        intros seen' [Hs Hall]. split; [exact Hs|].
        intros t b [<-|Ht] Hb; [congruence|exact (Hall t b Ht Hb)].
      * destruct (get_value a tok) as [x| |]; try exact I.
        eapply loop_done_mono; [|apply IH; lia].
        intros seen' [Hs Hall]. split.
        -- intros key Hk. apply Hs. right. exact Hk.
        -- intros t b [<-|Ht] Hb; [congruence|exact (Hall t b Ht Hb)].
    + destruct (action a) eqn:Hact; [| |exact I].
      * destruct rest as [|v rest']; [exact I|].
        destruct (is_positional_token arguments v) eqn:Hv; [|exact I].
        destruct (get_value a v) as [x| |]; try exact I.
        eapply loop_done_mono; [|apply IH; simpl in Hlen; lia].
        intros seen' [Hs Hall]. split.
        -- intros key Hk. apply Hs. right. exact Hk.
        -- intros t b [<-|[<-|Ht]] Hb.
           ++ assert (b = a) by congruence. subst b. apply Hs. left.
           ++ unfold is_positional_token in Hv. rewrite Hb in Hv. discriminate.
           ++ exact (Hall t b Ht Hb).
      * eapply loop_done_mono; [|apply IH; lia].
        intros seen' [Hs Hall]. split.
        -- intros key Hk. apply Hs. right. exact Hk.
        -- intros t b [<-|Ht] Hb; [|exact (Hall t b Ht Hb)].
           assert (b = a) by congruence. subst b. apply Hs. left.
    + eapply loop_done_mono; [|apply IH; lia].
      intros seen' [Hs Hall]. split; [exact Hs|].
      intros t b [<-|Ht] Hb; [congruence|exact (Hall t b Ht Hb)].
Qed.

(** ** The namespace that a sub-parser answers *)

Lemma leaf_parse_attributes (prog : string) (arguments : list argument)
    (defaults : list (string * value)) (toks : list string)
    (args : Namespace) (extra_args : list string) :
  arguments_wf arguments ->
  parse_known_args (Parser prog arguments None defaults) toks
  = Parsed args extra_args ->
  exists seen,
    (forall key, key ∈ seen ->
       seen_from arguments toks (List.filter is_positional arguments) [] key) /\
    (forall tok a, In tok toks -> classify arguments tok = Optional a ->
       dest a ∈ seen) /\
    forall key, attribute_of arguments defaults seen args key.
Proof.
  intros Hwf Hparse. rewrite parse_known_args_eq in Hparse.
  cbv zeta in Hparse. destruct (existsb _ _); [discriminate|].
  set (base := init_namespace arguments None defaults) in *.
  assert (Hbase : forall key a, find_arg arguments key = Some a ->
            base !! key = Some (default a)).
  { intros key a Hf. unfold base. rewrite init_namespace_lookup, Hf.
    reflexivity. }
  assert (Hpos : forall a, In a (List.filter is_positional arguments) ->
            In a arguments /\ is_positional a = true)
    by (intros a Ha; apply List.filter_In in Ha; exact Ha).
  assert (Hinit : loop_state arguments base [] base).
  { intros key. destruct (find_arg arguments key); [|reflexivity].
    rewrite bool_decide_eq_false_2 by apply not_elem_of_nil. reflexivity. }
  pose proof (consume_state prog arguments false base Hwf toks
                (List.filter is_positional arguments) [] base [] Hpos Hinit)
    as Hstate.
  pose proof (consume_seen_bounded prog arguments false (length toks) toks
                (List.filter is_positional arguments) [] base []
                (le_n _)) as Hseen.
  pose proof (consume_given_bounded prog arguments (length toks) toks
                (List.filter is_positional arguments) [] base []
                (le_n _)) as Hgiven.
  destruct (consume _ _ _ _ _ _ _ _) as [ns seen extras| |o];
    [|discriminate|cbv beta iota in Hparse; subst o; destruct Hstate].
  cbn in Hstate, Hseen, Hgiven. destruct Hgiven as [_ Hgiven].
  unfold finish in Hparse.
  destruct (finalize arguments seen ns []) as [[| |]|[ns' missing]] eqn:Hfin;
    try discriminate.
  destruct missing; [|discriminate]. injection Hparse as <- <-.
  assert (Hfinal : final_state arguments base seen ns).
  { intros key. specialize (Hstate key).
    destruct (find_arg arguments key); [|exact Hstate].
    destruct (bool_decide (key ∈ seen)); [exact Hstate|left; exact Hstate]. }
  destruct (finalize_state arguments base Hwf Hbase seen arguments [] ns []
              ns' [] (fun a H => H) (fun a (H : In a []) => match H with end)
              Hfinal (fun a (H : In a []) => match H with end) Hfin)
    as [Hst Hset].
  destruct (finalize_missing seen arguments ns [] ns' [] Hfin eq_refl)
    as [_ Hreq].
  exists seen. split; [exact Hseen|]. split; [exact Hgiven|].
  intros key. unfold attribute_of. specialize (Hst key).
  destruct (find_arg arguments key) as [a|] eqn:Hfind.
  - destruct (find_arg_some arguments key a Hfind) as (Hin & Hd & Hh).
    destruct (bool_decide (key ∈ seen)) eqn:Hk; [exact Hst|].
    apply bool_decide_eq_false in Hk. subst key.
    destruct (Hset a Hin Hh Hk (Hreq a Hin Hk)) as (v & Hv & Hdef).
    exists v. split; [exact Hv|]. split; [apply Hreq; assumption|exact Hdef].
  - rewrite Hst. unfold base. rewrite init_namespace_lookup, Hfind.
    reflexivity.
Qed.

Lemma given_spec (toks : list string) (a : argument) :
  given toks a = true <->
  exists tok, In tok toks /\ In tok (option_strings a).
Proof.
  unfold given. rewrite List.existsb_exists. split.
  - intros (tok & Ht & Hex). exists tok. split; [exact Ht|].
    apply existsb_eqb_In. exact Hex.
  - intros (tok & Ht & Hex). exists tok. split; [exact Ht|].
    apply existsb_eqb_In. exact Hex.
Qed.

(** The attribute of an option of a parser without sub-parsers: a stored
    value when the option is among the tokens, and only then; its default
    otherwise, which an option that is required does not allow. *)
Lemma leaf_option_value (prog : string) (arguments : list argument)
    (defaults : list (string * value)) (toks : list string)
    (args : Namespace) (extra_args : list string) (a : argument) :
  arguments_wf arguments -> options_wf arguments ->
  parse_known_args (Parser prog arguments None defaults) toks
  = Parsed args extra_args ->
  In a arguments -> is_help a = false -> is_positional a = false ->
  exists v, args !! dest a = Some v /\
    if given toks a then inserted a v
    else required a = false /\ default_of a = Some v.
Proof.
  intros Hwf Howf Hparse Ha Hh Hp.
  destruct (leaf_parse_attributes prog arguments defaults toks args extra_args
              Hwf Hparse) as (seen & Hfrom & Hall & Hattr).
  specialize (Hattr (dest a)). unfold attribute_of in Hattr.
  rewrite (proj1 (Hwf a Ha) Hh) in Hattr.
  destruct Hattr as (v & Hv & Hcase). exists v. split; [exact Hv|].
  destruct (given toks a) eqn:Hg.
  - apply given_spec in Hg as (tok & Ht & Hopt).
    rewrite bool_decide_eq_true_2 in Hcase; [exact Hcase|].
    apply (Hall tok a Ht). apply Howf; assumption.
  - rewrite bool_decide_eq_false_2 in Hcase; [exact Hcase|].
    intros Hk. destruct (Hfrom _ Hk) as [Hnil|[(b & Hb & Hd)|(t & b & Ht & Hcl & Hhb & Hd)]].
    + apply not_elem_of_nil in Hnil. exact Hnil.
    + apply List.filter_In in Hb as [Hb Hpb].
      assert (b = a)
        by (apply (same_dest arguments Hwf); auto; apply (proj2 (Hwf b Hb) Hpb)).
      subst b. congruence.
    + destruct (classify_optional arguments t b Hcl) as [Hb Hopt].
      assert (b = a) by (apply (same_dest arguments Hwf); auto).
      subst b.
      assert (given toks a = true) by (apply given_spec; exists t; auto).
      congruence.
Qed.

(** Every attribute that a parser without sub-parsers declares is set, to a
    value that the declaration allows. *)
Lemma leaf_attribute_typed (prog : string) (arguments : list argument)
    (defaults : list (string * value)) (toks : list string)
    (args : Namespace) (extra_args : list string) (a : argument) :
  arguments_wf arguments ->
  (forall a, In a arguments -> declared_ok a = true) ->
  parse_known_args (Parser prog arguments None defaults) toks
  = Parsed args extra_args ->
  In a arguments -> is_help a = false ->
  exists v, args !! dest a = Some v /\ attribute_typed a v.
Proof.
  intros Hwf Hdecl Hparse Ha Hh.
  destruct (leaf_parse_attributes prog arguments defaults toks args extra_args
              Hwf Hparse) as (seen & _ & _ & Hattr).
  specialize (Hattr (dest a)). unfold attribute_of in Hattr.
  rewrite (proj1 (Hwf a Ha) Hh) in Hattr.
  destruct Hattr as (v & Hv & Hcase). exists v. split; [exact Hv|].
  specialize (Hdecl a Ha). unfold declared_ok in Hdecl.
  unfold attribute_typed.
  destruct (bool_decide (dest a ∈ seen)).
  - destruct Hcase as [[Hact ->]|[Hkind (s & Hget)]].
    + rewrite Hact. eexists. reflexivity.
    + unfold get_value in Hget.
      destruct (action a) as [[f|]| |] eqn:Hact.
      * destruct (f s) as [x|e] eqn:Hf; [|destruct e; discriminate].
        exists s. rewrite Hf. f_equal.
        destruct (choices a); [|congruence].
        destruct (bool_decide _); congruence.
      * destruct (default a); try discriminate.
        destruct (choices a); [discriminate|]. left. exists s. congruence.
      * exfalso. destruct (default a) as [|[|]| | |]; try discriminate.
        apply negb_true_iff in Hdecl.
        destruct Hkind as [Hpos|(ty & Hty)]; congruence.
      * unfold is_help in Hh. rewrite Hact in Hh. discriminate.
  - destruct Hcase as [Hreq Hdef]. unfold settled_default, default_of in Hdef.
    destruct (action a) as [[f|]| |] eqn:Hact.
    + destruct (default a) as [| |s| |]; try discriminate.
      unfold get_value in Hdef. rewrite Hact in Hdef.
      destruct (f s) as [x|e] eqn:Hf; [|destruct e; discriminate].
      exists s. rewrite Hf. f_equal.
      destruct (choices a); [|congruence].
      destruct (bool_decide _); congruence.
    + destruct (default a); try discriminate. right. split; congruence.
    + destruct (default a) as [|[|]| | |]; try discriminate.
      exists false. congruence.
    + unfold is_help in Hh. rewrite Hact in Hh. discriminate.
Qed.

(** ** The namespace of a command line *)

Lemma defaults_lookup_In (defaults : list (string * value)) (key : string)
    (v : value) :
  defaults_lookup defaults key = Some v -> In (key, v) defaults.
Proof.
  unfold defaults_lookup. destruct (List.find _ defaults) as [[k x]|] eqn:Hf;
    [|discriminate].
  intros E. injection E as <-. apply List.find_some in Hf as [Hin Hk].
  apply String.eqb_eq in Hk. cbn in Hk. subst k. exact Hin.
Qed.

Lemma node_namespace_lookup (prog sdest : string) (required : bool)
    (parsers : list (string * parser)) (defaults : list (string * value))
    (name key : string) :
  node_namespace
    (Parser prog [help_argument] (Some (sdest, required, parsers)) defaults)
    name !! key
  = if String.eqb sdest key then Some (VStr name)
    else defaults_lookup defaults key.
Proof.
  unfold node_namespace. destruct (String.eqb_spec sdest key) as [->|Hne].
  - apply lookup_insert_eq.
  - rewrite lookup_insert_ne by exact Hne. unfold init_namespace.
    cbn [fold_left action help_argument].
    rewrite fold_defaults_lookup, setdefault_lookup, lookup_empty.
    destruct (String.eqb_spec sdest key); [contradiction|reflexivity].
Qed.

(** Before the token that selects a sub-parser, a parser with only the help
    option hands every token on. *)
Lemma consume_help_only_tokens (prog : string) (toks : list string) :
  forall ns extras,
    match consume prog [help_argument] true toks [] [] ns extras with
    | LSub name rest _ _ extras' =>
        exists opts, toks = opts ++ name :: rest /\ extras' = extras ++ opts
    | _ => True
    end.
Proof.
  induction toks as [|tok rest IH]; intros ns extras; [exact I|].
  cbn [consume].
  destruct (classify [help_argument] tok) as [|a|] eqn:Hcl.
  - exists []. split; [reflexivity|symmetry; apply app_nil_r].
  - apply classify_optional in Hcl as [[<-|[]] _]. exact I.
  - specialize (IH ns (extras ++ [tok])).
    destruct (consume _ _ _ rest _ _ _ _); try exact I.
    destruct IH as (opts & -> & ->). exists (tok :: opts).
    split; [reflexivity|]. rewrite <- app_assoc. reflexivity.
Qed.

Lemma node_parse_tokens (prog sdest : string)
    (parsers : list (string * parser)) (defaults : list (string * value))
    (argv : list string) (args : Namespace) (extra_args : list string) :
  parse_known_args
    (Parser prog [help_argument] (Some (sdest, true, parsers)) defaults) argv
  = Parsed args extra_args ->
  exists opts name q rest subns subextras,
    argv = opts ++ name :: rest /\
    In (name, q) parsers /\
    parse_known_args q rest = Parsed subns subextras /\
    extra_args = opts ++ subextras /\
    args = subns ∪ node_namespace
                     (Parser prog [help_argument]
                        (Some (sdest, true, parsers)) defaults) name.
Proof.
  intros Hparse. rewrite parse_known_args_eq in Hparse. cbv zeta in Hparse.
  destruct (existsb _ _); [discriminate|].
  pose proof (consume_help_only prog argv
                (init_namespace [help_argument] (Some (sdest, true, parsers))
                   defaults) []) as Hloop.
  pose proof (consume_help_only_tokens prog argv
                (init_namespace [help_argument] (Some (sdest, true, parsers))
                   defaults) []) as Htoks.
  destruct (consume _ _ _ _ _ _ _ _) as [ns seen extras|name rest ns seen extras|o].
  - destruct Hloop as [-> ->]. rewrite finish_help_only in Hparse. discriminate.
  - destruct Hloop as [-> ->]. destruct Htoks as (opts & -> & ->).
    match type of Hparse with
    | select ?n ?f ?m ?l = _ => destruct (select_found n f m l) as [E|(q & Hin & E)]
    end; rewrite E in Hparse; [discriminate|].
    destruct (parse_known_args q rest) as [subns subextras| | | |] eqn:Hsub;
      try discriminate.
    rewrite finish_help_only in Hparse. injection Hparse as <- <-.
    exists opts, name, q, rest, subns, subextras.
    split; [reflexivity|]. split; [exact Hin|]. split; [exact Hsub|].
    split; reflexivity.
  - subst o. discriminate.
Qed.

Lemma command_parsers_ok : forallb command_ok command_parsers = true.
Proof. vm_compute. reflexivity. Qed.

Lemma sub_parser_cases (name : string) (q : parser) :
  In (name, q) (sub_parsers _get_parser) ->
  is_leaf q = true \/ (name = "dcv" /\ q = pdcv).
Proof.
  cbn [sub_parsers _get_parser In]. intros H.
  repeat (destruct H as [E|H];
          [injection E as <- <-;
           first [left; reflexivity|right; split; reflexivity]|]).
  destruct H.
Qed.

Lemma command_parsers_In (path : list string) (q : parser) :
  In (path, q) command_parsers ->
  (exists name, path = [name] /\ In (name, q) (sub_parsers _get_parser) /\
                is_leaf q = true) \/
  (path = ["dcv"; "connect"] /\ q = pdcv_connect).
Proof.
  unfold command_parsers, parser_paths. intros H.
  apply List.filter_In in H as [H Hleaf]. cbn [snd] in Hleaf.
  destruct H as [E|H]; [injection E as <- <-; discriminate|].
  apply in_flat_map in H as ([name q0] & Hin & H). cbn [fst snd] in H.
  destruct H as [E|H].
  - injection E as <- <-. left. exists name. auto.
  - right. apply in_map_iff in H as ([n' q'] & E & Hin').
    injection E as <- <-. cbn [fst snd] in *.
    destruct (sub_parser_cases name q0 Hin) as [Hl|[-> ->]].
    + destruct q0 as [? ? [?|] ?]; [discriminate|destruct Hin'].
    + destruct Hin' as [E|[]]. injection E as <- <-. split; reflexivity.
Qed.

Lemma leaf_command_parser (name : string) (q : parser) :
  In (name, q) (sub_parsers _get_parser) -> is_leaf q = true ->
  In ([name], q) command_parsers.
Proof.
  intros Hin Hleaf. unfold command_parsers. apply List.filter_In.
  split; [|exact Hleaf]. unfold parser_paths. right.
  apply in_flat_map. exists (name, q). split; [exact Hin|]. left. reflexivity.
Qed.

Lemma connect_command_parser :
  In (["dcv"; "connect"], pdcv_connect) command_parsers.
Proof.
  unfold command_parsers. apply List.filter_In. split; [|reflexivity].
  unfold parser_paths. right. apply in_flat_map. exists ("dcv", pdcv).
  split; [|right; left; reflexivity].
  cbn [sub_parsers _get_parser In]. tauto.
Qed.

Lemma command_ok_sound (path : list string) (q : parser) :
  In (path, q) command_parsers ->
  exists prog arguments defaults,
    q = Parser prog arguments None defaults /\
    arguments_wf arguments /\ options_wf arguments /\
    (forall a, In a arguments -> declared_ok a = true) /\
    (forall a, In a arguments ->
       dest a <> "command" /\ dest a <> "subcommand" /\ dest a <> "func") /\
    (forall kv, In kv defaults -> fst kv = "func").
Proof.
  intros Hin.
  assert (Hleaf : is_leaf q = true).
  { unfold command_parsers in Hin. apply List.filter_In in Hin. tauto. }
  pose proof command_parsers_ok as Hok. rewrite List.forallb_forall in Hok.
  specialize (Hok _ Hin). destruct q as [prog arguments [?|] defaults];
    [discriminate|].
  unfold command_ok in Hok. cbn [snd arguments_of defaults_of] in Hok.
  apply andb_prop in Hok as [Hok Hdef]. apply andb_prop in Hok as [Hschema Hdest].
  rewrite List.forallb_forall in Hdef, Hdest.
  destruct (schema_ok_sound arguments Hschema) as (Hwf & Howf & Hdecl).
  exists prog, arguments, defaults. split; [reflexivity|].
  split; [exact Hwf|]. split; [exact Howf|]. split; [exact Hdecl|]. split.
  - intros a Ha. specialize (Hdest a Ha).
    apply andb_prop in Hdest as [Hd Hf]. apply andb_prop in Hd as [Hc Hs].
    apply negb_true_iff, String.eqb_neq in Hc, Hs, Hf. auto.
  - intros kv Hkv. apply String.eqb_eq, Hdef, Hkv.
Qed.

(** What a parser that reads the arguments of a command answers: every
    attribute it declares, with a value that the declaration allows, and
    beside them only [func]. *)
Lemma command_parser_namespace (path : list string) (q : parser)
    (toks : list string) (args : Namespace) (extra_args : list string) :
  In (path, q) command_parsers ->
  parse_known_args q toks = Parsed args extra_args ->
  (forall a, In a (arguments_of q) -> is_help a = false ->
     exists v, args !! dest a = Some v /\ attribute_typed a v) /\
  (forall key, is_Some (args !! key) ->
     key = "func" \/
     exists a, In a (arguments_of q) /\ is_help a = false /\ dest a = key) /\
  args !! "command" = None /\ args !! "subcommand" = None.
Proof.
  intros Hin Hparse.
  destruct (command_ok_sound path q Hin)
    as (prog & arguments & defaults & -> & Hwf & Howf & Hdecl & Hdest & Hdef).
  cbn [arguments_of].
  destruct (leaf_parse_attributes prog arguments defaults toks args extra_args
              Hwf Hparse) as (seen & _ & _ & Hattr).
  assert (Hdom : forall key, is_Some (args !! key) ->
            key = "func" \/
            exists a, In a arguments /\ is_help a = false /\ dest a = key).
  { intros key [v Hv]. specialize (Hattr key). unfold attribute_of in Hattr.
    destruct (find_arg arguments key) as [a|] eqn:Hfind.
    - right. exists a. apply find_arg_some in Hfind. tauto.
    - left. rewrite Hv in Hattr. symmetry in Hattr.
      apply defaults_lookup_In in Hattr. exact (Hdef _ Hattr). }
  assert (Hnone : forall key, key <> "func" ->
            (forall a, In a arguments -> dest a <> key) ->
            args !! key = None).
  { intros key Hf Hno. destruct (args !! key) as [v|] eqn:Hv; [|reflexivity].
    destruct (Hdom key (ex_intro _ v Hv)) as [E|(a & Ha & _ & Hd)];
      [contradiction|]. exfalso. exact (Hno a Ha Hd). }
  split; [|split; [exact Hdom|split]].
  - intros a Ha Hh.
    apply (leaf_attribute_typed prog arguments defaults toks args extra_args);
      assumption.
  - apply Hnone; [discriminate|]. intros a Ha. apply (Hdest a Ha).
  - apply Hnone; [discriminate|]. intros a Ha. apply (Hdest a Ha).
Qed.

(** The same for a sub-parser of the schema; [dcv] reads its arguments
    through the parser of [connect]. *)
Lemma command_namespace (name : string) (q : parser) (toks : list string)
    (args : Namespace) (extra_args : list string) :
  In (name, q) (sub_parsers _get_parser) ->
  parse_known_args q toks = Parsed args extra_args ->
  (forall a, In a (arguments_of (argument_parser q)) -> is_help a = false ->
     exists v, args !! dest a = Some v /\ attribute_typed a v) /\
  (forall key, is_Some (args !! key) ->
     key = "func" \/ (name = "dcv" /\ key = "subcommand") \/
     exists a, In a (arguments_of (argument_parser q)) /\
               is_help a = false /\ dest a = key) /\
  args !! "command" = None.
Proof.
  intros Hin Hparse. destruct (sub_parser_cases name q Hin) as [Hleaf|[-> ->]].
  - assert (E : argument_parser q = q)
      by (destruct q as [? ? [?|] ?]; [discriminate|reflexivity]).
    rewrite E.
    destruct (command_parser_namespace [name] q toks args extra_args
                (leaf_command_parser name q Hin Hleaf) Hparse)
      as (Htyped & Hdom & Hcommand & _).
    split; [exact Htyped|]. split; [|exact Hcommand].
    intros key Hkey. destruct (Hdom key Hkey) as [E'|Ha]; auto.
  - unfold pdcv in Hparse. apply node_parse_tokens in Hparse
      as (opts & name & q & rest & subns & subextras & _ & Hsub & Hparse & _ & ->).
    destruct Hsub as [E|[]]. injection E as <- <-.
    fold pdcv. change (argument_parser pdcv) with pdcv_connect.
    destruct (command_parser_namespace _ _ rest subns subextras
                connect_command_parser Hparse)
      as (Htyped & Hdom & Hcommand & _).
    split; [|split].
    + intros a Ha Hh. destruct (Htyped a Ha Hh) as (v & Hv & Ht).
      exists v. split; [apply union_lookup_left; exact Hv|exact Ht].
    + intros key [v Hv]. apply lookup_union_Some_raw in Hv as [Hv|[_ Hv]].
      * destruct (Hdom key (ex_intro _ v Hv)) as [E|Ha]; auto.
      * unfold pdcv in Hv. rewrite node_namespace_lookup in Hv.
        destruct (String.eqb_spec "subcommand" key) as [<-|_]; [auto|].
        apply defaults_lookup_In in Hv. destruct Hv as [E|[]].
        injection E as <- _. auto.
    + rewrite (union_lookup_right _ _ _ Hcommand). reflexivity.
Qed.


(** ** Command lines that start with the name of a subcommand *)

Lemma select_In {A : Type} (name : string) (q : parser) (found : parser -> A)
    (missing : A) (l : list (string * parser)) :
  distinct (map fst l) = true -> In (name, q) l ->
  select name found missing l = found q.
Proof.
  induction l as [|[n q0] l IH]; intros Hd Hin; [destruct Hin|].
  cbn [map fst distinct] in Hd. apply andb_prop in Hd as [Hn Hd].
  cbn [select]. destruct Hin as [E|Hin].
  - injection E as -> ->. rewrite String.eqb_refl. reflexivity.
  - destruct (String.eqb_spec n name) as [->|_]; [|apply IH; assumption].
    exfalso. apply negb_true_iff in Hn.
    assert (H : existsb (String.eqb name) (map fst l) = true).
    { apply existsb_eqb_In. apply (in_map fst) in Hin. exact Hin. }
    congruence.
Qed.

Lemma sub_parser_names :
  forallb (plain_token [help_argument]) (map fst (sub_parsers _get_parser))
  = true /\
  distinct (map fst (sub_parsers _get_parser)) = true.
Proof. split; vm_compute; reflexivity. Qed.

Lemma command_select (name : string) (q : parser) (toks : list string) :
  In (name, q) (sub_parsers _get_parser) ->
  parse_known_args _get_parser (name :: toks)
  = match parse_known_args q toks with
    | Parsed subns subextras =>
        Parsed (subns ∪ node_namespace _get_parser name) subextras
    | o => o
    end.
Proof.
  intros Hin. destruct sub_parser_names as [Hplain Hdist].
  rewrite List.forallb_forall in Hplain.
  assert (Hname : plain_token [help_argument] name = true)
    by (apply Hplain; apply (in_map fst) in Hin; exact Hin).
  apply plain_token_spec in Hname as [Hcl Hout].
  unfold _get_parser at 1. rewrite (node_select _ _ _ _ name toks Hcl Hout).
  apply (select_In name q); [exact Hdist|exact Hin].
Qed.

(** The parser at the end of a path of the schema reads the tokens after
    the path, and its namespace is completed by the parsers on the path. *)
Lemma path_parse (path : list string) (q : parser) :
  In (path, q) parser_paths ->
  exists m, forall toks,
    parse_known_args _get_parser (path ++ toks)
    = match parse_known_args q toks with
      | Parsed subns subextras => Parsed (subns ∪ m) subextras
      | o => o
      end.
Proof.
  unfold parser_paths. intros [E|H].
  - injection E as <- <-. exists ∅. intros toks. cbn [app].
    destruct (parse_known_args _get_parser toks); try reflexivity.
    rewrite (right_id_L ∅ (∪)). reflexivity.
  - apply in_flat_map in H as ([name q0] & Hin & H). cbn [fst snd] in H.
    destruct H as [E|H].
    + injection E as <- <-. eexists. intros toks.
      apply command_select. exact Hin.
    + apply in_map_iff in H as ([n' q'] & E & Hin').
      injection E as <- <-. cbn [fst snd] in *.
      destruct (sub_parser_cases name q0 Hin) as [Hl|[-> ->]];
        [destruct q0 as [? ? [?|] ?]; [discriminate|destruct Hin']|].
      destruct Hin' as [E|[]]. injection E as <- <-.
      exists (node_namespace pdcv "connect" ∪ node_namespace _get_parser "dcv").
      intros toks.
      cbn [app]. rewrite (command_select "dcv" pdcv) by exact Hin.
      unfold pdcv at 1.
      rewrite node_select; [|reflexivity|reflexivity].
      cbn [select]. cbv beta.
      change (String.eqb "connect" "connect") with true. cbv iota.
      destruct (parse_known_args pdcv_connect toks); try reflexivity.
      rewrite (assoc_L (∪)). reflexivity.
Qed.



(** ** Help *)

Section HelpFacts.

Variable extern :
  extern_op -> option Namespace -> option (list string) -> Environ ->
  result string.
Variable cli_log_file : string.
Variable os_makedirs : string -> option (Z * string).

Lemma pcluster_help (argv : list string) (env : Environ) (prog : string) :
  logger_ready cli_log_file os_makedirs ->
  parse_known_args _get_parser argv = Help prog ->
  pcluster extern cli_log_file os_makedirs argv env
  = Some (0%Z, {| environ := env;
                  trace := [ELog LOG_DEBUG "pcluster CLI starting";
                            EHelp prog] |}).
Proof.
  intros Hlog Hparse.
  unfold pcluster, main, parse_command_line. rewrite Hparse.
  unfold run_process, bind, config_logger. unfold logger_ready in Hlog.
  destruct (os_makedirs _) as [[errno msg]|].
  - subst errno. reflexivity.
  - reflexivity.
Qed.

Lemma parser_paths_help :
  forallb (fun pq => help_leads (snd pq)) parser_paths = true.
Proof. vm_compute. reflexivity. Qed.

(** A parser of the schema that meets a help flag first answers with its
    help. *)
Lemma help_first (q : parser) (h : string) (toks : list string) :
  help_leads q = true -> In h help_flags ->
  parse_known_args q (h :: toks) = Unmodelled \/
  parse_known_args q (h :: toks) = Help (prog_of q).
Proof.
  destruct q as [prog arguments subparsers defaults]. unfold help_leads.
  cbn [arguments_of prog_of]. destruct arguments as [|a0 arguments];
    [discriminate|].
  intros Hlead Hh. apply andb_prop in Hlead as [Hhelp Hopt].
  apply bool_decide_eq_true in Hopt.
  assert (Hcl : classify (a0 :: arguments) h = Optional a0).
  { unfold classify, find_option. cbn [List.find]. rewrite Hopt.
    destruct Hh as [<-|[<-|[]]]; reflexivity. }
  rewrite parse_known_args_eq. cbv zeta.
  destruct (existsb _ _); [left; reflexivity|right].
  cbn [consume]. rewrite Hcl. unfold is_help in Hhelp.
  destruct (action a0); try discriminate. reflexivity.
Qed.

(** X13.  A help flag right after the path of a parser of the schema (no
    path, the name of a subcommand, or [dcv connect]) makes the process
    print the help of that parser and exit with status 0: no handler runs,
    the environment is left alone, and arguments that the parser requires
    are not asked for. *)
Theorem help_requested (path : list string) (q : parser) (h : string)
    (toks : list string) (env : Environ) :
  logger_ready cli_log_file os_makedirs ->
  In (path, q) parser_paths -> In h help_flags ->
  parse_known_args _get_parser (path ++ h :: toks) <> Unmodelled ->
  pcluster extern cli_log_file os_makedirs (path ++ h :: toks) env
  = Some (0%Z, {| environ := env;
                  trace := [ELog LOG_DEBUG "pcluster CLI starting";
                            EHelp (prog_of q)] |}).
Proof.
  intros Hlog Hin Hh Hmodel. apply pcluster_help; [exact Hlog|].
  destruct (path_parse path q Hin) as (m & Htop).
  specialize (Htop (h :: toks)).
  pose proof parser_paths_help as Hlead.
  rewrite List.forallb_forall in Hlead. specialize (Hlead _ Hin).
  destruct (help_first q h toks Hlead Hh) as [E|E]; rewrite E in Htop.
  - contradiction.
  - exact Htop.
Qed.

End HelpFacts.

(** ** The extra arguments *)

Lemma loop_extras_mono (P Q : list string -> Prop) (r : loop_result) :
  (forall extras, P extras -> Q extras) -> loop_extras P r -> loop_extras Q r.
Proof. intros H. destruct r; cbn; auto. Qed.

Lemma consume_extras_bounded (prog : string) (arguments : list argument)
    (n : nat) :
  forall toks pos seen ns extras,
    length toks <= n ->
    loop_extras (fun extras' => exists l, extras' = extras ++ l /\ sublist l toks)
      (consume prog arguments false toks pos seen ns extras).
Proof.
  induction n as [|n IH]; intros toks pos seen ns extras Hlen.
  - destruct toks; [|simpl in Hlen; lia].
    exists []. split; [symmetry; apply app_nil_r|constructor].
  - destruct toks as [|tok rest];
      [exists []; split; [symmetry; apply app_nil_r|constructor]|].
    simpl in Hlen. cbn [consume].
    assert (Hon : forall pos' seen' ns',
              loop_extras
                (fun extras' => exists l, extras' = extras ++ l /\
                                          sublist l (tok :: rest))
                (consume prog arguments false rest pos' seen' ns'
                   (extras ++ [tok]))).
    { intros pos' seen' ns'. eapply loop_extras_mono; [|apply IH; lia].
      intros ex (l & -> & Hl). exists (tok :: l).
      split; [rewrite <- app_assoc; reflexivity|constructor; exact Hl]. }
    assert (Hoff : forall pos' seen' ns',
              loop_extras
                (fun extras' => exists l, extras' = extras ++ l /\
                                          sublist l (tok :: rest))
                (consume prog arguments false rest pos' seen' ns' extras)).
    { intros pos' seen' ns'. eapply loop_extras_mono; [|apply IH; lia].
      intros ex (l & -> & Hl). exists l.
      split; [reflexivity|constructor; exact Hl]. }
    destruct (classify arguments tok) as [|a|].
    + destruct pos as [|a pos']; [apply Hon|].
      destruct (get_value a tok); try exact I. apply Hoff.
    + destruct (action a); [| |exact I].
      * destruct rest as [|v rest']; [exact I|].
        destruct (is_positional_token arguments v); [|exact I].
        destruct (get_value a v); try exact I.
        eapply loop_extras_mono; [|apply IH; simpl in Hlen; lia].
        intros ex (l & -> & Hl). exists l.
        split; [reflexivity|constructor; constructor; exact Hl].
      * apply Hoff.
    + apply Hon.
Qed.

Lemma finish_extras (prog : string) (arguments : list argument)
    (subparsers : option (string * bool * list (string * parser)))
    (sub_seen : bool) (seen : list string) (ns : Namespace)
    (extras : list string) (args : Namespace) (extra_args : list string) :
  finish prog arguments subparsers sub_seen seen ns extras
  = Parsed args extra_args ->
  extra_args = extras.
Proof.
  unfold finish.
  destruct (finalize arguments seen ns []) as [[| |]|[ns' missing]];
    try discriminate.
  destruct (match subparsers with
            | Some (sdest, true, _) =>
                if sub_seen then missing else missing ++ [sdest]
            | _ => missing
            end); [|discriminate].
  intros E. injection E as _ <-. reflexivity.
Qed.

Lemma leaf_extras (q : parser) (toks : list string) (args : Namespace)
    (extra_args : list string) :
  is_leaf q = true ->
  parse_known_args q toks = Parsed args extra_args ->
  sublist extra_args toks.
Proof.
  destruct q as [prog arguments [?|] defaults]; [discriminate|].
  intros _ Hparse. rewrite parse_known_args_eq in Hparse. cbv zeta in Hparse.
  destruct (existsb _ _); [discriminate|].
  pose proof (consume_extras_bounded prog arguments (length toks) toks
                (List.filter is_positional arguments) []
                (init_namespace arguments None defaults) [] (le_n _)) as Hex.
  destruct (consume _ _ _ _ _ _ _ _) as [ns seen extras| |o];
    [|discriminate|].
  - apply finish_extras in Hparse. subst extra_args.
    destruct Hex as (l & -> & Hl). exact Hl.
  - cbv beta iota in Hparse. subst o. destruct Hex.
Qed.

Lemma command_extras (name : string) (q : parser) (toks : list string)
    (args : Namespace) (extra_args : list string) :
  In (name, q) (sub_parsers _get_parser) ->
  parse_known_args q toks = Parsed args extra_args ->
  sublist extra_args toks.
Proof.
  intros Hin Hparse. destruct (sub_parser_cases name q Hin) as [Hleaf|[-> ->]].
  - exact (leaf_extras q toks args extra_args Hleaf Hparse).
  - unfold pdcv in Hparse. apply node_parse_tokens in Hparse
      as (opts & name & q & rest & subns & subextras & -> & Hsub & Hparse & -> & _).
    destruct Hsub as [E|[]]. injection E as <- <-.
    apply sublist_app; [reflexivity|]. constructor.
    exact (leaf_extras pdcv_connect rest subns subextras eq_refl Hparse).
Qed.


(** ** The further properties at concrete command lines *)

Lemma nowait_parse :
  parse_known_args _get_parser nowait_argv
  = Parsed (parsed_args nowait_argv) [].
Proof. vm_compute. reflexivity. Qed.

Lemma list_region_run :
  pcluster extern_ok sample_log_file makedirs_exists (with_region ["list"])
    home_env
  = Some (outcome_of (with_region ["list"]) home_env).
Proof. vm_compute. reflexivity. Qed.



Lemma log_directory_failure_witness :
  pcluster extern_ok sample_log_file makedirs_denied ["version"] ∅
  = Some (1%Z, {| environ := ∅;
                  trace := [ETraceback "OSError" "Permission denied"] |}).
Proof.
  apply (proj1 (log_directory_failure extern_ok sample_log_file
                  makedirs_denied ["version"] ∅ 13 "Permission denied"
                  eq_refl)).
  - discriminate.
  - vm_compute. discriminate.
Defined.

Lemma unknown_subcommand_rejected_witness :
  sample_pcluster ["frobnicate"]
  = Some (2%Z, {| environ := ∅;
                  trace := [ELog LOG_DEBUG "pcluster CLI starting";
                            EUsage Stderr "pcluster";
                            EParseError "pcluster"
                              (InvalidChoice "command" "frobnicate")] |}).
Proof.
  apply (proj1 (unknown_subcommand_rejected extern_ok sample_log_file
                  makedirs_exists "frobnicate" [] ∅ sample_logger_ready
                  eq_refl)).
  cbn. intuition discriminate.
Defined.

Lemma ssh_passthrough_witness :
  parse_known_args _get_parser ["ssh"; "mycluster"; "-i"; "key.pem"]
  = Parsed (ssh_namespace "mycluster") ["-i"; "key.pem"].
Proof.
  exact (proj1 (ssh_passthrough extern_ok sample_log_file makedirs_exists
                  "mycluster" ["-i"; "key.pem"] ∅ sample_logger_ready
                  eq_refl eq_refl)).
Defined.




Lemma help_requested_witness :
  sample_pcluster ["create"; "--help"]
  = Some (0%Z, {| environ := ∅;
                  trace := [ELog LOG_DEBUG "pcluster CLI starting";
                            EHelp "pcluster create"] |}).
Proof.
  apply (help_requested extern_ok sample_log_file makedirs_exists ["create"]
           pcreate "--help" [] ∅ sample_logger_ready).
  - right. left. reflexivity.
  - right. left. reflexivity.
  - vm_compute. discriminate.
Defined.


(** ** Option strings of the same argument *)

Lemma alias_classify (arguments : list argument) (t t' : string) :
  options_wf arguments -> alias arguments t t' = true ->
  t = t' \/
  exists a, In a arguments /\ In t (option_strings a) /\
            In t' (option_strings a) /\
            classify arguments t = Optional a /\
            classify arguments t' = Optional a.
Proof.
  intros Hwf H. unfold alias in H. apply orb_prop in H as [H|H].
  - left. apply String.eqb_eq. exact H.
  - right. apply List.existsb_exists in H as (a & Ha & H).
    apply andb_prop in H as [Ht Ht'].
    apply existsb_eqb_In in Ht, Ht'.
    exists a. repeat split; try assumption; apply Hwf; assumption.
Qed.

Lemma alias_outside (arguments : list argument) (t t' : string) :
  options_wf arguments -> alias arguments t t' = true ->
  outside_fragment (all_option_strings arguments) t
  = outside_fragment (all_option_strings arguments) t'.
Proof.
  intros Hwf H.
  destruct (alias_classify arguments t t' Hwf H)
    as [->|(a & Ha & Ht & Ht' & _)]; [reflexivity|].
  assert (Hin : forall x, In x (option_strings a) ->
            existsb (String.eqb x) (all_option_strings arguments) = true).
  { intros x Hx. apply existsb_eqb_In. apply in_flat_map. exists a. auto. }
  unfold outside_fragment. rewrite (Hin t Ht), (Hin t' Ht').
  cbn [negb]. rewrite !andb_false_r. reflexivity.
Qed.

Lemma consume_alias_bounded (prog : string) (arguments : list argument)
    (n : nat) :
  options_wf arguments ->
  forall toks toks' pos seen ns extras,
    length toks <= n ->
    Forall2 (fun t t' => alias arguments t t' = true) toks toks' ->
    consume prog arguments false toks pos seen ns extras
    = consume prog arguments false toks' pos seen ns extras.
Proof.
  intros Hwf. induction n as [|n IH];
    intros toks toks' pos seen ns extras Hlen Hall.
  - destruct Hall; [reflexivity|simpl in Hlen; lia].
  - destruct Hall as [|t t' rest rest' Ht Hrest]; [reflexivity|].
    simpl in Hlen. cbn [consume].
    destruct (alias_classify arguments t t' Hwf Ht)
      as [<-|(a & Ha & _ & _ & -> & ->)].
    + destruct (classify arguments t) as [|a|].
      * destruct pos as [|a pos']; [apply IH; [lia|exact Hrest]|].
        destruct (get_value a t); try reflexivity.
        apply IH; [lia|exact Hrest].
      * destruct (action a); [| |reflexivity].
        -- destruct Hrest as [|v v' r r' Hv Hr]; [reflexivity|].
           unfold is_positional_token.
           destruct (alias_classify arguments v v' Hwf Hv)
             as [<-|(b & _ & _ & _ & -> & ->)]; [|reflexivity].
           destruct (classify arguments v); try reflexivity.
           destruct (get_value a v); try reflexivity.
           apply IH; [simpl in Hlen; lia|exact Hr].
        -- apply IH; [lia|exact Hrest].
      * apply IH; [lia|exact Hrest].
    + destruct (action a); [| |reflexivity].
      * destruct Hrest as [|v v' r r' Hv Hr]; [reflexivity|].
        unfold is_positional_token.
        destruct (alias_classify arguments v v' Hwf Hv)
          as [<-|(b & _ & _ & _ & -> & ->)]; [|reflexivity].
        destruct (classify arguments v); try reflexivity.
        destruct (get_value a v); try reflexivity.
        apply IH; [simpl in Hlen; lia|exact Hr].
      * apply IH; [lia|exact Hrest].
Qed.

Lemma leaf_alias (prog : string) (arguments : list argument)
    (defaults : list (string * value)) (toks toks' : list string) :
  options_wf arguments ->
  Forall2 (fun t t' => alias arguments t t' = true) toks toks' ->
  parse_known_args (Parser prog arguments None defaults) toks
  = parse_known_args (Parser prog arguments None defaults) toks'.
Proof.
  intros Hwf Hall. rewrite !parse_known_args_eq. cbv zeta.
  rewrite !examined_flat.
  assert (Hout : existsb (outside_fragment (all_option_strings arguments)) toks
                 = existsb (outside_fragment (all_option_strings arguments))
                     toks').
  { induction Hall as [|t t' rest rest' Ht Hrest IH]; [reflexivity|].
    cbn [existsb]. rewrite IH, (alias_outside arguments t t' Hwf Ht).
    reflexivity. }
  rewrite Hout.
  rewrite (consume_alias_bounded prog arguments (length toks) Hwf toks toks'
             _ _ _ _ (le_n _) Hall).
  reflexivity.
Qed.

Section AliasFacts.

Variable extern :
  extern_op -> option Namespace -> option (list string) -> Environ ->
  result string.
Variable cli_log_file : string.
Variable os_makedirs : string -> option (Z * string).


(** ** Required arguments *)

Lemma command_parsers_required :
  forallb reports_required command_parsers = true.
Proof. vm_compute. reflexivity. Qed.

Lemma consume_unrecognised_leaf (prog : string) (arguments : list argument)
    (toks : list string) :
  forall pos seen ns extras,
    forallb (unrecognised arguments) toks = true ->
    consume prog arguments false toks pos seen ns extras
    = LDone ns seen (extras ++ toks).
Proof.
  induction toks as [|t toks IH]; intros pos seen ns extras H.
  - cbn. rewrite app_nil_r. reflexivity.
  - cbn [forallb] in H. apply andb_prop in H as [Ht Htoks].
    cbn [consume]. unfold unrecognised in Ht.
    destruct (classify arguments t); try discriminate.
    rewrite (IH pos seen ns (extras ++ [t]) Htoks), <- app_assoc. reflexivity.
Qed.

Lemma unrecognised_inside (arguments : list argument) (toks : list string) :
  forallb (unrecognised arguments) toks = true ->
  existsb (outside_fragment (all_option_strings arguments)) toks = false.
Proof.
  induction toks as [|t toks IH]; [reflexivity|].
  cbn [forallb existsb]. intros H. apply andb_prop in H as [Ht Htoks].
  rewrite (IH Htoks), orb_false_r. unfold unrecognised in Ht.
  destruct (classify arguments t); try discriminate.
  apply negb_true_iff in Ht. exact Ht.
Qed.


End AliasFacts.


